(** * Motivational meme generator: quote ingestion and caption layout

    A shallow embedding of the quote-ingestion layer (QuoteEngine) and of
    the text layout of MemeEngine, followed by the properties proved of
    them.

    Conventions.
    - A Python [str] is a list of characters.  A character is an [ascii],
      read as a code point in U+0000..U+00FF; on that range [isspace] and
      [lower] below agree with CPython's [str.isspace] and [str.lower].
    - A Python exception is a value of [exn]; code that can raise returns
      a [result].
    - What the code obtains from a library or from the operating system
      (file contents, the rows of a csv reader, a pandas data frame, font
      metrics, the outcome of a subprocess) is an argument of the model. *)

From Stdlib Require Import Ascii String NArith ZArith Lia.
From stdpp Require Import base option list strings gmap.

Abbreviation str := (list ascii).

(** A literal: [lit "abc"] is the Python string ['abc']. *)
Definition lit (s : string) : str := list_ascii_of_string s.
Arguments lit s%_string : simpl never.

(** ** Exceptions *)

Inductive exn : Type :=
| ValueError (msg : str)
| RuntimeError (msg : str)
| FileNotFoundError (msg : str)
| OSError (msg : str)
| UnicodeDecodeError (msg : str)
| CalledProcessError (msg : str)
| KeyError (msg : str)
| IndexError (msg : str)
| AttributeError (msg : str)
| UnboundLocalError (name : str).

(** [str(e)] *)
Definition exn_str (e : exn) : str :=
  match e with
  | ValueError m | RuntimeError m | FileNotFoundError m | OSError m
  | UnicodeDecodeError m | CalledProcessError m | KeyError m
  | IndexError m | AttributeError m => m
  | UnboundLocalError n =>
      lit "cannot access local variable '" ++ n ++
      lit "' where it is not associated with a value"
  end.

(** [inl e]: the call raised [e]; [inr v]: it returned [v]. *)
Definition result (A : Type) : Type := exn + A.

Definition rbind {A B} (m : result A) (k : A -> result B) : result B :=
  match m with
  | inl e => inl e
  | inr a => k a
  end.

Notation "x <-? m ; k" := (rbind m (fun x => k))
  (at level 100, m at next level, right associativity, only parsing).

(** A [for] loop whose body may raise: the first exception ends it. *)
Fixpoint for_each {A S} (body : S -> A -> result S) (xs : list A) (s : S)
  : result S :=
  match xs with
  | [] => inr s
  | x :: xs' => s' <-? body s x; for_each body xs' s'
  end.

(** ** The operations of Python's [str] that the code uses *)

Module PyStr.

Definition LF : ascii := "010"%char.
Definition CR : ascii := "013"%char.
Definition space : ascii := " "%char.
Definition dquote : ascii := "034"%char.
Definition hyphen : ascii := "-"%char.
Definition dot : ascii := "."%char.

(** [c.isspace()]: TAB..CR, FS..US, SPACE, NEL and NBSP. *)
Definition isspace (c : ascii) : bool :=
  let n := N_of_ascii c in
  ((9 <=? n) && (n <=? 13) || (28 <=? n) && (n <=? 32)
   || (n =? 133) || (n =? 160))%N.

(** [c.lower()]: A..Z and the capital letters of U+00C0..U+00DE (the
    multiplication sign U+00D7 is not a letter). *)
Definition lower_char (c : ascii) : ascii :=
  let n := N_of_ascii c in
  if ((65 <=? n) && (n <=? 90)
      || (192 <=? n) && (n <=? 222) && negb (n =? 215))%N
  then ascii_of_N (n + 32) else c.

Definition lower (s : str) : str := map lower_char s.

(** Truth value of a string: non-empty. *)
Definition truthy (s : str) : bool :=
  match s with
  | [] => false
  | _ :: _ => true
  end.

Fixpoint lstrip_by (p : ascii -> bool) (s : str) : str :=
  match s with
  | [] => []
  | c :: t => if p c then lstrip_by p t else s
  end.

Definition rstrip_by (p : ascii -> bool) (s : str) : str :=
  reverse (lstrip_by p (reverse s)).

Definition strip_by (p : ascii -> bool) (s : str) : str :=
  rstrip_by p (lstrip_by p s).

Definition in_chars (chars : str) (c : ascii) : bool :=
  bool_decide (c ∈ chars).

(** [s.strip()] *)
Definition strip (s : str) : str := strip_by isspace s.

(** [s.strip(chars)] *)
Definition strip_chars (chars s : str) : str := strip_by (in_chars chars) s.

(** [s.startswith(sub)] *)
Fixpoint startswith (s sub : str) : bool :=
  match sub, s with
  | [], _ => true
  | _ :: _, [] => false
  | a :: sub', b :: s' => bool_decide (a = b) && startswith s' sub'
  end.

(** [sub in s] *)
Fixpoint contains (sub s : str) : bool :=
  startswith s sub
  || match s with
     | [] => false
     | _ :: t => contains sub t
     end.

(** [s.rfind(sub)]: the highest index at which [sub] starts, if any. *)
Fixpoint rfind (s sub : str) : option nat :=
  match s with
  | [] => if startswith [] sub then Some 0 else None
  | _ :: t =>
      match rfind t sub with
      | Some i => Some (S i)
      | None => if startswith s sub then Some 0 else None
      end
  end.

(** [s.rsplit(sep, 1)] for a non-empty [sep] (both call sites pass a
    literal): one cut at the last occurrence, or [s] alone. *)
Definition rsplit1 (s sep : str) : list str :=
  match rfind s sep with
  | Some i => [take i s; drop (i + length sep) s]
  | None => [s]
  end.

(** [s.split(c)] for a one-character separator: never empty. *)
Fixpoint split_char (c : ascii) (s : str) : list str :=
  match s with
  | [] => [[]]
  | a :: t =>
      if bool_decide (a = c) then [] :: split_char c t
      else match split_char c t with
           | f :: fs => (a :: f) :: fs
           | [] => [[a]]
           end
  end.

(** [s.split()]: maximal runs of non-whitespace characters.  [cur] is
    the run being read. *)
Fixpoint split_ws_from (cur s : str) : list str :=
  match s with
  | [] => if truthy cur then [cur] else []
  | c :: t =>
      if isspace c
      then (if truthy cur then cur :: split_ws_from [] t
            else split_ws_from [] t)
      else split_ws_from (cur ++ [c]) t
  end.

Definition split_ws (s : str) : list str := split_ws_from [] s.

(** [sep.join(parts)] *)
Fixpoint join (sep : str) (parts : list str) : str :=
  match parts with
  | [] => []
  | [p] => p
  | p :: ps => p ++ sep ++ join sep ps
  end.

(** Text-mode reading with universal newlines: CR LF and a lone CR are
    handed over as LF. *)
Fixpoint universal_newlines (s : str) : str :=
  match s with
  | [] => []
  | c :: t =>
      if bool_decide (c = CR)
      then match t with
           | c' :: t' =>
               if bool_decide (c' = LF) then LF :: universal_newlines t'
               else LF :: universal_newlines t
           | [] => [LF]
           end
      else c :: universal_newlines t
  end.

(** Iterating over an open text file: each line keeps its LF; a last
    line without LF is yielded when it is not empty. *)
Fixpoint iter_lines (s : str) : list str :=
  match s with
  | [] => []
  | c :: t =>
      if bool_decide (c = LF) then [c] :: iter_lines t
      else match iter_lines t with
           | l :: ls => (c :: l) :: ls
           | [] => [[c]]
           end
  end.

(** Unpacking [a, b = parts] *)
Definition unpack2 (parts : list str) : result (str * str) :=
  match parts with
  | [a; b] => inr (a, b)
  | [] | [_] => inl (ValueError (lit "not enough values to unpack"))
  | _ => inl (ValueError (lit "too many values to unpack"))
  end.

End PyStr.

Import PyStr.

(** ** quote_model.py *)

Record QuoteModel : Type := mkQuote { body : str; author : str }.

(** [QuoteModel.__str__]: the display form. *)
Definition __str__ (q : QuoteModel) : str :=
  [dquote] ++ body q ++ [dquote] ++ lit " - " ++ author q.

(** ** text_ingestor.py *)

Module TextIngestor.

Definition allowed_extensions : list str := [lit "txt"].

(** The body of the loop over the lines of the file: [quotes] is the
    list built so far. *)
Definition ingest_line (quotes : list QuoteModel) (line : str)
  : result (list QuoteModel) :=
  let line := strip line in
  if negb (truthy line) then inr quotes
  else if negb (contains (lit "-") line) then inr quotes
  else
    parts <-? (if contains (lit " - ") line
               then unpack2 (rsplit1 line (lit " - "))
               else unpack2 (rsplit1 line (lit "-")));
    let body := strip (strip_chars (space :: [dquote]) (fst parts)) in
    let author := strip (snd parts) in
    if truthy body && truthy author
    then inr (quotes ++ [mkQuote body author])
    else inr quotes.

(** [open_ path] is what opening and reading [path] as UTF-8 text gives:
    the decoded contents, or the exception raised. *)
Definition parse (open_ : str -> result str) (path : str)
  : result (list QuoteModel) :=
  match (text <-? open_ path;
         for_each ingest_line (iter_lines (universal_newlines text)) [])
  with
  | inr quotes => inr quotes
  | inl e =>
      inl (ValueError (lit "Error parsing text file " ++ path ++
                       lit ": " ++ exn_str e))
  end.

End TextIngestor.

(** ** docx_ingestor.py *)

Module DocxIngestor.

Definition allowed_extensions : list str := [lit "docx"].

(** [docx_installed]: whether [from docx import Document] succeeds;
    [Document path]: the texts of the paragraphs, or the exception
    raised.  The loop over the paragraphs has the same body as the loop
    of the text ingestor over lines. *)
Definition parse (docx_installed : bool) (Document : str -> result (list str))
  (path : str) : result (list QuoteModel) :=
  if negb docx_installed
  then inl (RuntimeError (lit "python-docx is required to parse docx files"))
  else
    match (paragraphs <-? Document path;
           for_each TextIngestor.ingest_line paragraphs [])
    with
    | inr quotes => inr quotes
    | inl e =>
        inl (ValueError (lit "Error parsing DOCX file " ++ path ++
                         lit ": " ++ exn_str e))
    end.

End DocxIngestor.

(** ** QuoteEngine/csv_ingestor.py (csv module) *)

Module CSVIngestor.

Definition allowed_extensions : list str := [lit "csv"].

(** The values a [DictReader] row holds: a field, [None] for a field the
    line lacks, or the list of surplus fields (under the key [None]). *)
Inductive pyval : Type :=
| PNone
| PStr (s : str)
| PList (l : list str).

Definition val_truthy (v : pyval) : bool :=
  match v with
  | PNone => false
  | PStr s => truthy s
  | PList l => match l with [] => false | _ :: _ => true end
  end.

(** [a or b] *)
Definition py_or (a b : pyval) : pyval := if val_truthy a then a else b.

(** [v.strip()] *)
Definition val_strip (v : pyval) : result str :=
  match v with
  | PStr s => inr (strip s)
  | PNone =>
      inl (AttributeError (lit "'NoneType' object has no attribute 'strip'"))
  | PList _ =>
      inl (AttributeError (lit "'list' object has no attribute 'strip'"))
  end.

(** A dict in insertion order; the key [None] is the reader's restkey. *)
Definition dict : Type := list (option str * pyval).

Fixpoint dict_set (k : option str) (v : pyval) (d : dict) : dict :=
  match d with
  | [] => [(k, v)]
  | (k', v') :: d' =>
      if bool_decide (k' = k) then (k, v) :: d' else (k', v') :: dict_set k v d'
  end.

(** [d.get(k)] *)
Fixpoint dict_get (k : str) (d : dict) : pyval :=
  match d with
  | [] => PNone
  | (k', v) :: d' => if bool_decide (k' = Some k) then v else dict_get k d'
  end.

Definition dict_values (d : dict) : list pyval := map snd d.

(** [dict(zip(fieldnames, row))] *)
Fixpoint dict_zip (fieldnames row : list str) (d : dict) : dict :=
  match fieldnames, row with
  | k :: ks, v :: vs => dict_zip ks vs (dict_set (Some k) (PStr v) d)
  | _, _ => d
  end.

(** [DictReader.__next__] on one non-empty row of the underlying reader. *)
Definition dict_row (fieldnames row : list str) : dict :=
  let d := dict_zip fieldnames row [] in
  let lf := length fieldnames in
  let lr := length row in
  if lf <? lr then dict_set None (PList (drop lf row)) d
  else fold_left (fun d k => dict_set (Some k) PNone d) (drop lr fieldnames) d.

(** The rows a [DictReader] yields over the rows of [csv.reader]: the
    first row gives the field names, empty rows are passed over. *)
Definition DictReader (rows : list (list str)) : list dict :=
  match rows with
  | [] => []
  | fieldnames :: data =>
      map (dict_row fieldnames)
          (filter (fun r => r <> []) data)
  end.

(** A loop over a list that is appended to in place: when the body
    raises, what was appended before stays. *)
Fixpoint for_each_keep {A S} (body : S -> A -> result S) (xs : list A) (s : S)
  : S * option exn :=
  match xs with
  | [] => (s, None)
  | x :: xs' =>
      match body s x with
      | inr s' => for_each_keep body xs' s'
      | inl e => (s, Some e)
      end
  end.

(** The body of the loop over the [DictReader]. *)
Definition ingest_row (quotes : list QuoteModel) (row : dict)
  : result (list QuoteModel) :=
  let body := py_or (py_or (py_or (dict_get (lit "body") row)
                                  (dict_get (lit "quote") row))
                           (dict_get (lit "Body") row))
                    (dict_get (lit "Quote") row) in
  let author := py_or (py_or (py_or (dict_get (lit "author") row)
                                    (dict_get (lit "speaker") row))
                             (dict_get (lit "Author") row))
                      (dict_get (lit "Speaker") row) in
  let '(body, author) :=
    if negb (val_truthy body) || negb (val_truthy author)
    then match dict_values row with
         | v0 :: v1 :: _ => (v0, v1)
         | _ => (body, author)
         end
    else (body, author) in
  if val_truthy body && val_truthy author
  then b <-? val_strip body;
       a <-? val_strip author;
       inr (quotes ++ [mkQuote b a])
  else inr quotes.

(** The body of the loop of the fallback, over the plain reader. *)
Definition ingest_plain_row (quotes : list QuoteModel) (row : list str)
  : result (list QuoteModel) :=
  match row with
  | r0 :: r1 :: _ =>
      if truthy (strip r0) && truthy (strip r1)
      then inr (quotes ++ [mkQuote (strip r0) (strip r1)])
      else inr quotes
  | _ => inr quotes
  end.

(** [reader path]: the rows [csv.reader] yields for the file, or the
    exception raised on opening or reading it. *)
Definition parse (reader : str -> result (list (list str))) (path : str)
  : result (list QuoteModel) :=
  let '(quotes, raised) :=
    match reader path with
    | inl e => ([], Some e)
    | inr rows => for_each_keep ingest_row (DictReader rows) []
    end in
  match raised with
  | None => inr quotes
  | Some e =>
      match (rows <-? reader path; for_each ingest_plain_row rows quotes) with
      | inr quotes' => inr quotes'
      | inl fallback_error =>
          inl (ValueError (lit "Error parsing CSV file " ++ path ++ lit ": " ++
                           exn_str e ++ lit ", fallback also failed: " ++
                           exn_str fallback_error))
      end
  end.

(** [parse] with the file read as both loops read it, row by row.
    [reader path] is the exception raised on opening the file, or the
    rows [csv.reader] yields and, when the reading stops before the end
    of the file (a byte that cannot be decoded, a field over the limit),
    the exception that stops it.  A row is handled before the next one
    is read: when the body of the first loop raises, the rest of the
    file is not read in that attempt.  The fallback opens the same file
    and reads it from the start. *)
Definition parse_lazy (reader : str -> result (list (list str) * option exn))
  (path : str) : result (list QuoteModel) :=
  let '(quotes, raised) :=
    match reader path with
    | inl e => ([], Some e)
    | inr (rows, stop) =>
        let '(quotes, raised) := for_each_keep ingest_row (DictReader rows) [] in
        (quotes, match raised with
                 | Some e => Some e
                 | None => stop
                 end)
    end in
  match raised with
  | None => inr quotes
  | Some e =>
      match (read <-? reader path;
             quotes' <-? for_each ingest_plain_row (fst read) quotes;
             match snd read with
             | Some e' => inl e'
             | None => inr quotes'
             end)
      with
      | inr quotes' => inr quotes'
      | inl fallback_error =>
          inl (ValueError (lit "Error parsing CSV file " ++ path ++ lit ": " ++
                           exn_str e ++ lit ", fallback also failed: " ++
                           exn_str fallback_error))
      end
  end.

End CSVIngestor.

(** ** motivacional_meme_generator/QuoteEngine/csv_ingestor.py (pandas) *)

Module PandasCSVIngestor.

Definition allowed_extensions : list str := [lit "csv"].

(** A cell of the data frame: the missing value (an empty field reads as
    NaN), or any other value, given by the text [str] returns for it. *)
Inductive cell : Type :=
| NaN
| Value (text : str).

(** [str(c)] *)
Definition cell_str (c : cell) : str :=
  match c with
  | NaN => lit "nan"
  | Value t => t
  end.

(** What [pd.read_csv] returns: the column labels and the rows. *)
Record DataFrame : Type := mkFrame {
  columns : list str;
  rows : list (list cell)
}.

(** [l.index(x)] *)
Fixpoint index (x : str) (l : list str) : result nat :=
  match l with
  | [] => inl (ValueError (x ++ lit " is not in list"))
  | y :: l' => if bool_decide (y = x) then inr 0 else i <-? index x l'; inr (S i)
  end.

(** [l[i]] *)
Definition getitem {A} (l : list A) (i : nat) : result A :=
  match l !! i with
  | Some x => inr x
  | None => inl (IndexError (lit "list index out of range"))
  end.

(** [x in l] *)
Definition elem (x : str) (l : list str) : bool := bool_decide (x ∈ l).

(** One [case] of the [match]: both names occur among the lower-cased
    labels; the labels themselves are returned. *)
Definition labels_of (columns lower_columns : list str) (b a : str)
  : result (option str * option str) :=
  b_idx <-? index b lower_columns;
  a_idx <-? index a lower_columns;
  b_col <-? getitem columns b_idx;
  a_col <-? getitem columns a_idx;
  inr (Some b_col, Some a_col).

Definition _find_quote_columns (columns : list str)
  : result (option str * option str) :=
  let lower_columns := map lower columns in
  if elem (lit "body") lower_columns && elem (lit "author") lower_columns
  then labels_of columns lower_columns (lit "body") (lit "author")
  else if elem (lit "quote") lower_columns && elem (lit "speaker") lower_columns
  then labels_of columns lower_columns (lit "quote") (lit "speaker")
  else if elem (lit "body") lower_columns && elem (lit "speaker") lower_columns
  then labels_of columns lower_columns (lit "body") (lit "speaker")
  else if elem (lit "quote") lower_columns && elem (lit "author") lower_columns
  then labels_of columns lower_columns (lit "quote") (lit "author")
  else inr (None, None).

(** [row[label]]: the cell under the column labelled [label]. *)
Definition row_get (columns : list str) (row : list cell) (label : str)
  : result cell :=
  match index label columns with
  | inl _ => inl (KeyError label)
  | inr i =>
      match row !! i with
      | Some c => inr c
      | None => inl (KeyError label)
      end
  end.

(** [row.iloc[i]] *)
Definition row_iloc (row : list cell) (i : nat) : result cell :=
  match row !! i with
  | Some c => inr c
  | None =>
      inl (IndexError (lit "single positional indexer is out-of-bounds"))
  end.

(** The test both loops share, and the append. *)
Definition keep (quotes : list QuoteModel) (body author : str)
  : list QuoteModel :=
  if truthy body && truthy author
     && negb (bool_decide (body = lit "nan"))
     && negb (bool_decide (author = lit "nan"))
  then quotes ++ [mkQuote body author]
  else quotes.

Definition truthy_label (l : option str) : bool :=
  match l with
  | Some s => truthy s
  | None => false
  end.

Definition parse_frame (df : DataFrame) : result (list QuoteModel) :=
  cols <-? _find_quote_columns (columns df);
  let '(body_col, author_col) := cols in
  if truthy_label body_col && truthy_label author_col
  then
    for_each (fun quotes row =>
                b <-? row_get (columns df) row (default [] body_col);
                a <-? row_get (columns df) row (default [] author_col);
                inr (keep quotes (strip (cell_str b)) (strip (cell_str a))))
             (rows df) []
  else if 2 <=? length (columns df)
  then
    for_each (fun quotes row =>
                b <-? row_iloc row 0;
                a <-? row_iloc row 1;
                inr (keep quotes (strip (cell_str b)) (strip (cell_str a))))
             (rows df) []
  else inr [].

(** [read_csv path]: the data frame [pd.read_csv] builds, or the
    exception it raises. *)
Definition parse (read_csv : str -> result DataFrame) (path : str)
  : result (list QuoteModel) :=
  match (df <-? read_csv path; parse_frame df) with
  | inr quotes => inr quotes
  | inl e =>
      inl (ValueError (lit "Error parsing CSV file " ++ path ++
                       lit " with pandas: " ++ exn_str e))
  end.

End PandasCSVIngestor.

(** ** pdf_ingestor.py *)

Module PDFIngestor.

Definition allowed_extensions : list str := [lit "pdf"].

(** The files that exist, each with what a UTF-8 text read of it gives. *)
Inductive fdata : Type :=
| Text (s : str)
| NotText.

Abbreviation fsys := (gmap str fdata).

(** Code that reads and changes the file system and may raise. *)
Definition M (A : Type) : Type := fsys -> result A * fsys.

Definition ret {A} (a : A) : M A := fun fs => (inr a, fs).

Definition raise {A} (e : exn) : M A := fun fs => (inl e, fs).

Definition bind {A B} (m : M A) (k : A -> M B) : M B :=
  fun fs =>
    match m fs with
    | (inl e, fs') => (inl e, fs')
    | (inr a, fs') => k a fs'
    end.

Notation "x <- m ;; k" := (bind m (fun x => k))
  (at level 100, m at next level, right associativity, only parsing).

Definition lift {A} (r : result A) : M A := fun fs => (r, fs).

(** [try: body except Exception as e: handler e] *)
Definition try_except {A} (body : M A) (handler : exn -> M A) : M A :=
  fun fs =>
    match body fs with
    | (inl e, fs') => handler e fs'
    | (inr a, fs') => (inr a, fs')
    end.

(** [try: body finally: final]: [final] runs on every way out of
    [body]; what [body] returned or raised stands unless [final] raises. *)
Definition try_finally {A} (body : M A) (final : M unit) : M A :=
  fun fs =>
    let '(r, fs1) := body fs in
    match final fs1 with
    | (inr _, fs2) => (r, fs2)
    | (inl e, fs2) => (inl e, fs2)
    end.

(** The environment of a call: which tools are on the PATH, the name the
    operating system picks for the temporary file, and what running a
    command does: its standard output or the exception [subprocess.run]
    raises, and the file system it leaves. *)
Record env : Type := mkEnv {
  which : str -> bool;
  mktemp : fsys -> str;
  subprocess_run : list str -> fsys -> result str * fsys
}.

(** [tempfile.NamedTemporaryFile(suffix=".txt", delete=False)]: the file
    is created empty and stays after the [with] block. *)
Definition NamedTemporaryFile (E : env) : M str :=
  fun fs => let name := mktemp E fs in (inr name, <[name := Text []]> fs).

(** [open(path, "w")]: creates or empties the file. *)
Definition open_w (path : str) : M unit :=
  fun fs => (inr tt, <[path := Text []]> fs).

(** [f.write(s)] and the closing of [f]: the text reaches the file under
    [path] if that name still leads to it. *)
Definition write (path s : str) : M unit :=
  fun fs =>
    match fs !! path with
    | Some _ => (inr tt, <[path := Text s]> fs)
    | None => (inr tt, fs)
    end.

(** [open(path, "r", encoding="utf-8")] and the reading of all of it. *)
Definition read (path : str) : M str :=
  fun fs =>
    match fs !! path with
    | Some (Text s) => (inr s, fs)
    | Some NotText =>
        (inl (UnicodeDecodeError (lit "'utf-8' codec can't decode")), fs)
    | None => (inl (FileNotFoundError path), fs)
    end.

Definition os_path_exists (path : str) : M bool :=
  fun fs => (inr (bool_decide (is_Some (fs !! path))), fs).

Definition os_remove (path : str) : M unit :=
  fun fs =>
    match fs !! path with
    | Some _ => (inr tt, delete path fs)
    | None => (inl (FileNotFoundError path), fs)
    end.

Definition run (E : env) (argv : list str) : M str := subprocess_run E argv.

(** The two [except] clauses. *)
Definition handler (pdf_tool path : str) (e : exn) : M (list QuoteModel) :=
  match e with
  | CalledProcessError m =>
      raise (RuntimeError (pdf_tool ++ lit " failed: " ++ m))
  | _ =>
      raise (ValueError (lit "Error parsing PDF file " ++ path ++
                         lit ": " ++ exn_str e))
  end.

(** The statements under [try]; the loop over the lines has the same
    body as the loop of the text ingestor. *)
Definition extract (E : env) (pdf_tool path tmp_path : str)
  : M (list QuoteModel) :=
  _ <- (if bool_decide (pdf_tool = lit "pdftotext")
        then _ <- run E [lit "pdftotext"; path; tmp_path];; ret tt
        else _ <- open_w tmp_path;;
             out <- run E [lit "mutool"; lit "draw"; lit "-F"; lit "txt"; path];;
             write tmp_path out);;
  text <- read tmp_path;;
  lift (for_each TextIngestor.ingest_line
                 (iter_lines (universal_newlines text)) []).

Definition cleanup (tmp_path : str) : M unit :=
  there <- os_path_exists tmp_path;;
  if there then os_remove tmp_path else ret tt.

Definition parse (E : env) (path : str) : M (list QuoteModel) :=
  pdf_tool <- (if which E (lit "pdftotext") then ret (lit "pdftotext")
               else if which E (lit "mutool") then ret (lit "mutool")
               else raise (RuntimeError (lit
                 "Neither pdftotext nor mutool found; please install Xpdf utilities or mupdf-tools")));;
  tmp_path <- NamedTemporaryFile E;;
  try_finally
    (try_except (extract E pdf_tool path tmp_path) (handler pdf_tool path))
    (cleanup tmp_path).

End PDFIngestor.

(** ** ingestor_interface.py and ingestor.py *)

Module Ingestor.

Inductive ingestor : Type := Text | CSV | Docx | PDF.

Definition allowed_extensions (i : ingestor) : list str :=
  match i with
  | Text => TextIngestor.allowed_extensions
  | CSV => CSVIngestor.allowed_extensions
  | Docx => DocxIngestor.allowed_extensions
  | PDF => PDFIngestor.allowed_extensions
  end.

Definition __name__ (i : ingestor) : str :=
  match i with
  | Text => lit "TextIngestor"
  | CSV => lit "CSVIngestor"
  | Docx => lit "DocxIngestor"
  | PDF => lit "PDFIngestor"
  end.

(** [path.split(".")[-1].lower()] *)
Definition extension (path : str) : str :=
  lower (default [] (last (split_char dot path))).

(** [IngestorInterface.can_ingest] *)
Definition can_ingest (i : ingestor) (path : str) : bool :=
  bool_decide (extension path ∈ allowed_extensions i).

(** What a call of the facade leaves: what it returned or raised, the
    parsers whose [parse] it called, in order, and the world after. *)
Record outcome (W : Type) : Type := mkOutcome {
  returned : result (list QuoteModel);
  invoked : list ingestor;
  world : W
}.
Arguments mkOutcome {W}.
Arguments returned {W}.
Arguments invoked {W}.
Arguments world {W}.

Section Facade.
Context {W : Type}.
(** [os.path.exists] *)
Variable path_exists : str -> W -> bool.
(** [invoke i path w]: what [parse] of parser [i] returns or raises on
    [path] in the world [w], and the world it leaves. *)
Variable invoke : ingestor -> str -> W -> result (list QuoteModel) * W.

(** The [for] loop over the tuple of parsers. *)
Fixpoint dispatch (ingestors : list ingestor) (path : str) (w : W)
  : outcome W :=
  match ingestors with
  | [] =>
      mkOutcome
        (inl (ValueError (lit "No available ingestor for file type: " ++ path)))
        [] w
  | i :: rest =>
      if can_ingest i path
      then
        let '(r, w') := invoke i path w in
        mkOutcome
          match r with
          | inr quotes => inr quotes
          | inl e =>
              inl (ValueError (lit "Failed to parse " ++ path ++ lit " with " ++
                               __name__ i ++ lit ": " ++ exn_str e))
          end
          [i] w'
      else dispatch rest path w
  end.

Definition parse (path : str) (w : W) : outcome W :=
  if negb (path_exists path w)
  then mkOutcome (inl (FileNotFoundError (lit "File not found: " ++ path))) [] w
  else dispatch [Text; CSV; Docx; PDF] path w.

End Facade.

End Ingestor.

(** ** The facade over the four parsers *)

Module QuoteEngine.

(** What a call reads from, beside the files the PDF parser writes and
    removes: whether a path exists, what opening a text file gives, the
    rows of [csv.reader], python-docx and its paragraphs, and the
    environment of the PDF tools. *)
Record runtime : Type := mkRuntime {
  path_exists : str -> PDFIngestor.fsys -> bool;
  open_ : str -> result str;
  reader : str -> result (list (list str));
  docx_installed : bool;
  Document : str -> result (list str);
  pdf_env : PDFIngestor.env
}.

(** [ingestor.parse(path)] for the class [ingestor] of the loop. *)
Definition ingestor_parse (R : runtime) (i : Ingestor.ingestor) (path : str)
  (fs : PDFIngestor.fsys) : result (list QuoteModel) * PDFIngestor.fsys :=
  match i with
  | Ingestor.Text => (TextIngestor.parse (open_ R) path, fs)
  | Ingestor.CSV => (CSVIngestor.parse (reader R) path, fs)
  | Ingestor.Docx =>
      (DocxIngestor.parse (docx_installed R) (Document R) path, fs)
  | Ingestor.PDF => PDFIngestor.parse (pdf_env R) path fs
  end.

(** [Ingestor.parse(path)] *)
Definition parse (R : runtime) (path : str) (fs : PDFIngestor.fsys)
  : Ingestor.outcome PDFIngestor.fsys :=
  Ingestor.parse (path_exists R) (ingestor_parse R) path fs.

End QuoteEngine.

(** ** MemeEngine.py: the layout of the caption *)

Module MemeEngine.

Local Open Scope Z_scope.

Section Layout.
(** A loaded font, [self._load_font(size)] and
    [draw.textbbox((0, 0), text, font=font)]: Pillow's. *)
Variable font : Type.
Variable _load_font : Z -> font.
Variable textbbox : font -> str -> Z * Z * Z * Z.

(** [w_box[2] - w_box[0]] *)
Definition text_width (font_obj : font) (s : str) : Z :=
  let '(x0, _, x1, _) := textbbox font_obj s in x1 - x0.

(** The body of the loop of [wrap_text]: the state is [(lines, current)]. *)
Definition wrap_step (font_obj : font) (max_w : Z)
  (st : list str * list str) (w : str) : list str * list str :=
  let '(lines, current) := st in
  let candidate :=
    match current with
    | [] => w
    | _ :: _ => join [space] (current ++ [w])
    end in
  if text_width font_obj candidate <=? max_w
  then (lines, current ++ [w])
  else (match current with
        | [] => lines
        | _ :: _ => lines ++ [join [space] current]
        end, [w]).

Definition wrap_text (s : str) (font_obj : font) (max_w : Z) : list str :=
  let words := split_ws s in
  let '(lines, current) := fold_left (wrap_step font_obj max_w) words ([], []) in
  match current with
  | [] => lines
  | _ :: _ => lines ++ [join [space] current]
  end.

(** The local variables of [make_meme] the loop assigns; [None]: not
    bound (for [font]: bound to [None]). *)
Record locals : Type := mkLocals {
  font_size : Z;
  font_ : option font;
  body_lines : option (list str);
  author_lines : option (list str);
  line_height : option Z
}.

(** The [while font_size > 10] loop.  [total_h < img.height * 0.5]
    compares an integer with half an integer: [2 * total_h < img.height].
    The result is [None] when [fuel] iterations do not reach the end. *)
Fixpoint search (fuel : nat) (img_height max_width : Z) (body author_line : str)
  (st : locals) : option locals :=
  if 10 <? font_size st
  then
    match fuel with
    | O => None
    | S fuel' =>
        let f := _load_font (font_size st) in
        let bl := wrap_text body f max_width in
        let al := wrap_text author_line f max_width in
        let '(_, _, _, lh) := textbbox f (lit "Ay") in
        let total_h := Z.of_nat (length bl + length al)%nat * (lh + 4) in
        let st' := mkLocals (font_size st) (Some f) (Some bl) (Some al) (Some lh) in
        if 2 * total_h <? img_height
        then Some st'
        else search fuel' img_height max_width body author_line
               (mkLocals (font_size st - 2) (Some f) (Some bl) (Some al) (Some lh))
    end
  else Some st.

(** The height of the two blocks of the caption at a font size, as a
    pass of the loop computes it. *)
Definition block_height (max_width : Z) (body author_line : str) (size : Z) : Z :=
  let f := _load_font size in
  let '(_, _, _, lh) := textbbox f (lit "Ay") in
  Z.of_nat (length (wrap_text body f max_width) +
            length (wrap_text author_line f max_width))%nat * (lh + 4).

(** Reading a local variable. *)
Definition local {A} (name : string) (v : option A) : result A :=
  match v with
  | Some a => inr a
  | None => inl (UnboundLocalError (lit name))
  end.

(** What is drawn: the font, the lines and the height of a line. *)
Record caption : Type := mkCaption {
  caption_font : option font;
  caption_lines : list str;
  caption_line_height : Z;
  caption_total_h : Z
}.

(** [make_meme] from the resized image to the lines to draw;
    [img_width] and [img_height] are the sizes of the resized image.
    [int(img.height / 10)] is the quotient truncated. *)
Definition make_meme (img_width img_height : Z) (text author : str)
  : option (result caption) :=
  let body := [dquote] ++ text ++ [dquote] in
  let author_line := lit "- " ++ author in
  let padding := 20 in
  let max_width := img_width - 2 * padding in
  let font_size := Z.min 40 (Z.quot img_height 10) in
  match search (Z.to_nat font_size) img_height max_width body author_line
               (mkLocals font_size None None None None)
  with
  | None => None
  | Some st =>
      Some (bl <-? local "body_lines" (body_lines st);
            al <-? local "author_lines" (author_lines st);
            let lines := bl ++ [[]] ++ al in
            lh <-? local "line_height" (line_height st);
            let total_h := Z.of_nat (length lines) * (lh + 4) in
            inr (mkCaption (font_ st) lines lh total_h))
  end.

(** The statements about [wrap_text] are written with the following.
    A line given by its words fits when it is one word or is no wider
    than [max_w]. *)
Definition fits (font_obj : font) (max_w : Z) (g : list str) : Prop :=
  (2 <= length g)%nat -> text_width font_obj (join [space] g) <= max_w.

(** Lines given by their words are filled greedily when the first word
    of each line but the first did not fit at the end of the line
    before. *)
Fixpoint greedy (font_obj : font) (max_w : Z) (G : list (list str)) : Prop :=
  match G with
  | g1 :: (g2 :: _) as rest =>
      (forall w, head g2 = Some w ->
         max_w < text_width font_obj (join [space] (g1 ++ [w]))) /\
      greedy font_obj max_w rest
  | _ => True
  end.

End Layout.

End MemeEngine.

(** ** web.py and app.py: the request that makes a meme *)

Module Web.

Definition slash : ascii := "/"%char.

(** [os.path.basename] *)
Definition basename (p : str) : str := default [] (last (split_char slash p)).

(** [os.path.join(a, b)] *)
Definition os_path_join (a b : str) : str :=
  if startswith b [slash] then b
  else if negb (truthy a) || bool_decide (last a = Some slash) then a ++ b
  else a ++ [slash] ++ b.

(** The fields of the form: [request.form.get] gives [None] for a field
    that was not sent. *)
Record form : Type := mkForm {
  image_url : option str;
  body : option str;
  author : option str
}.

(** [not v] for an optional string *)
Definition not_ (v : option str) : bool :=
  match v with
  | Some s => negb (truthy s)
  | None => true
  end.

(** What the view returns: the redirection to the form, with the
    messages flashed before it, or the page of the meme. *)
Inductive response : Type :=
| redirect (flashed : list str)
| render_template (path : str).

(** The files, each with its bytes. *)
Abbreviation files := (gmap str str).

Section MemePost.
(** [requests.get(url, timeout=5)] and [raise_for_status]: the content
    received, or the exception raised. *)
Variable requests_get : str -> result str.
(** [meme_engine.make_meme(img_path, text, author)]: the path it returns
    or the exception it raises, and the files it leaves. *)
Variable make_meme : str -> str -> str -> files -> result str * files.
(** The decimal form of an integer in an f-string. *)
Variable str_of_int : Z -> str.

(** [randint] is the draw of [random.randint(0, 1000000)]. *)
Definition tmp_path (randint : Z) : str :=
  os_path_join (lit "/tmp") (lit "tmp_" ++ str_of_int randint).

(** [meme_post]; the directory [/tmp] is there and can be written to. *)
Definition meme_post (F : form) (randint : Z) (fs : files) : response * files :=
  if not_ (image_url F)
  then (redirect [lit "Image URL is required"], fs)
  else if not_ (body F) || not_ (author F)
  then (redirect [lit "Both quote body and author are required"], fs)
  else
    match requests_get (default [] (image_url F)) with
    | inl _ => (redirect [lit "Unable to fetch image from provided URL"], fs)
    | inr content =>
        let tmp_path := tmp_path randint in
        let fs := <[tmp_path := content]> fs in
        let '(made, fs) :=
          make_meme tmp_path (default [] (body F)) (default [] (author F)) fs in
        let '(flashed, static_path) :=
          match made with
          | inr path => ([], Some (lit "/static/" ++ basename path))
          | inl e => ([lit "Error generating meme: " ++ exn_str e], None)
          end in
        (* finally: try: os.remove(tmp_path) except Exception: pass *)
        let fs := delete tmp_path fs in
        if not_ static_path then (redirect flashed, fs)
        else (render_template (default [] static_path), fs)
    end.

End MemePost.

End Web.

(** A word: not empty and without whitespace. *)
Definition is_word (w : str) : bool :=
  truthy w && forallb (fun c => negb (isspace c)) w.

(** ** Definitions the statements below are written with *)

(** [sub] occurs in [s]. *)
Definition occurs (sub s : str) : Prop := exists a b, s = a ++ sub ++ b.

(** [s] cut at the last occurrence of [sep]. *)
Definition last_cut (sep s left right : str) : Prop :=
  s = left ++ sep ++ right /\
  forall a b, s = a ++ sep ++ b -> length a <= length left.

(** [t] is [s] without the longest prefix and the longest suffix made of
    characters that satisfy [p]. *)
Definition trimmed_of (p : ascii -> bool) (s t : str) : Prop :=
  exists l r, s = l ++ t ++ r /\ forallb p l = true /\ forallb p r = true /\
    (forall c, head t = Some c -> p c = false) /\
    (forall c, last t = Some c -> p c = false).

(** What one line of a text file gives, as the code has it: the line is
    trimmed of whitespace first; the body loses every leading and
    trailing space and double quote, then whitespace. *)
Definition line_rule (raw : str) (out : list QuoteModel) : Prop :=
  let line := strip raw in
  ((line = [] \/ hyphen ∉ line) /\ out = []) \/
  (line <> [] /\ hyphen ∈ line /\
   exists sep left right,
     ((occurs (lit " - ") line /\ sep = lit " - ") \/
      (~ occurs (lit " - ") line /\ sep = lit "-")) /\
     last_cut sep line left right /\
     exists b a,
       trimmed_of isspace (strip_chars [space; dquote] left) b /\
       trimmed_of (in_chars [space; dquote]) left
                  (strip_chars [space; dquote] left) /\
       trimmed_of isspace right a /\
       ((b <> [] /\ a <> [] /\ out = [mkQuote b a]) \/
        ((b = [] \/ a = []) /\ out = []))).

(** What leaves the [try] statement of the PDF parser: a list of
    quotes, a RuntimeError for a failed tool, or a ValueError. *)
Definition pdf_outcome (r : result (list QuoteModel)) : Prop :=
  match r with
  | inr _ | inl (RuntimeError _) | inl (ValueError _) => True
  | inl _ => False
  end.

(** The invariant of the data model: both fields are non-empty after
    trimming. *)
Definition invariant (q : QuoteModel) : Prop :=
  strip (body q) <> [] /\ strip (author q) <> [].

(** A text file whose lines are the display forms of [qs], with or
    without a newline after the last. *)
Definition display_file (qs : list QuoteModel) (final_newline : bool) : str :=
  if final_newline then flat_map (fun q => __str__ q ++ [LF]) qs
  else join [LF] (map __str__ qs).

(** A field on one line: no LF and no CR in it. *)
Definition one_line (s : str) : bool :=
  forallb (fun c => negb (bool_decide (c = LF)) && negb (bool_decide (c = CR))) s.

(** [s] is not empty and neither begins nor ends with a character that
    satisfies [p]. *)
Definition bare (p : ascii -> bool) (s : str) : bool :=
  match head s, last s with
  | Some c, Some c' => negb (p c) && negb (p c')
  | _, _ => false
  end.

(** The pairs the display form can carry: the body and the author are
    non-empty and on one line; the body neither begins nor ends with
    whitespace or a double quote; the author neither begins nor ends with
    whitespace, does not begin with ["- "] and has no [" - "] in it. *)
Definition well_formed (q : QuoteModel) : bool :=
  one_line (body q) && one_line (author q)
  && bare (fun c => isspace c || in_chars [space; dquote] c) (body q)
  && bare isspace (author q)
  && negb (contains (lit " - ") (space :: author q)).

(** Definitions that follow the words of the specification, to compare
    the code with. *)
Module Stated.

(** One layer of enclosing double quotes removed. *)
Definition unquote_once (s : str) : str :=
  match s with
  | c :: t =>
      match last t with
      | Some c' =>
          if bool_decide (c = dquote) && bool_decide (c' = dquote)
          then removelast t else s
      | None => s
      end
  | [] => []
  end.

(** The record of a line: split at the last [" - "] if there is one,
    else at the last ["-"]; the body trimmed of whitespace and of one
    layer of double quotes, the author trimmed of whitespace. *)
Definition text_record (line : str) : list QuoteModel :=
  if negb (truthy (strip line)) || negb (contains (lit "-") line) then []
  else
    let sep := if contains (lit " - ") line then lit " - " else lit "-" in
    match rsplit1 line sep with
    | [l; r] =>
        let b := unquote_once (strip l) in
        let a := strip r in
        if truthy b && truthy a then [mkQuote b a] else []
    | _ => []
    end.

(** The name pairs of the CSV header, in priority order. *)
Definition name_pairs : list (str * str) :=
  [(lit "body", lit "author"); (lit "quote", lit "speaker");
   (lit "body", lit "speaker"); (lit "quote", lit "author")].

(** The position of the first column whose name is [name] whatever the
    case. *)
Fixpoint position (name : str) (header : list str) : option nat :=
  match header with
  | [] => None
  | h :: t => if bool_decide (lower h = name) then Some 0 else S <$> position name t
  end.

(** The label of that column. *)
Definition label (header : list str) (name : str) : option str :=
  i ← position name header; header !! i.

(** The header has a column of that name, whatever the case. *)
Definition mentions (header : list str) (name : str) : bool :=
  bool_decide (name ∈ map lower header).

(** The first name pair both of whose names the header has. *)
Definition named_pair (header : list str) : option (str * str) :=
  find (fun p => mentions header p.1 && mentions header p.2) name_pairs.

(** The positions of the body and author columns: those of the first name
    pair both of whose names the header has, else the first two. *)
Definition resolve (header : list str) : option (nat * nat) :=
  match named_pair header with
  | Some (b, a) =>
      bi ← position b header; ai ← position a header; Some (bi, ai)
  | None => if (2 <=? length header)%nat then Some (0, 1)%nat else None
  end.

(** The record of a data row: both cells trimmed, kept when neither is
    empty. *)
Definition csv_record (cols : nat * nat) (row : list str) : list QuoteModel :=
  match row !! cols.1, row !! cols.2 with
  | Some b, Some a =>
      if truthy (strip b) && truthy (strip a)
      then [mkQuote (strip b) (strip a)] else []
  | _, _ => []
  end.

(** The records of a CSV file given by its rows, the header first. *)
Definition csv_records (rows : list (list str)) : list QuoteModel :=
  match rows with
  | [] => []
  | header :: data =>
      match resolve header with
      | Some cols => flat_map (csv_record cols) data
      | None => []
      end
  end.

End Stated.

(** The record of a row of a data frame, the body and author cells at
    the positions [cols]: the texts of both cells trimmed, kept when
    neither is empty nor [nan]. *)
Definition frame_record (cols : nat * nat) (row : list PandasCSVIngestor.cell)
  : list QuoteModel :=
  match row !! cols.1, row !! cols.2 with
  | Some b, Some a =>
      PandasCSVIngestor.keep []
        (strip (PandasCSVIngestor.cell_str b))
        (strip (PandasCSVIngestor.cell_str a))
  | _, _ => []
  end.

(** * Properties *)

(** ** Python's string operations *)

(** The whitespace characters and the letters [lower] changes, by code
    point. *)
Example isspace_table :
  filter (fun n => isspace (ascii_of_nat n) = true) (seq 0 256)
  = [9; 10; 11; 12; 13; 28; 29; 30; 31; 32; 133; 160].
Proof. vm_compute. reflexivity. Qed.

Example lower_table :
  filter (fun n => lower_char (ascii_of_nat n) <> ascii_of_nat n) (seq 0 256)
  = seq 65 26 ++ seq 192 23 ++ seq 216 7.
Proof. vm_compute. reflexivity. Qed.

Section StrFacts.
Implicit Types (s t sub sep : str) (p : ascii -> bool).

Lemma startswith_prefix s sub :
  startswith s sub = true <-> exists k, s = sub ++ k.
Proof.
  revert s. induction sub as [|a sub IH]; intros [|b s]; simpl.
  - split; eauto.
  - split; eauto.
  - split; [done | intros [k ?]; done].
  - rewrite andb_true_iff, bool_decide_eq_true, IH. split.
    + intros [-> [k ->]]. eauto.
    + intros [k [= -> ->]]. eauto.
Qed.

Lemma occurs_nil sub : occurs sub [] <-> sub = [].
Proof.
  split.
  - intros (a & b & H). symmetry in H.
    apply app_eq_nil in H as [_ H]. by apply app_eq_nil in H as [H _].
  - intros ->. by exists [], [].
Qed.

Lemma occurs_cons sub c s :
  occurs sub (c :: s) <-> (exists k, c :: s = sub ++ k) \/ occurs sub s.
Proof.
  split.
  - intros ([|x a] & b & H); simpl in H.
    + left. eauto.
    + right. injection H as -> ->. by exists a, b.
  - intros [[k H] | (a & b & ->)].
    + by exists [], k.
    + by exists (c :: a), b.
Qed.

Lemma contains_occurs sub s : contains sub s = true <-> occurs sub s.
Proof.
  induction s as [|c s IH]; cbn [contains].
  - rewrite orb_false_r, startswith_prefix, occurs_nil. split.
    + intros [k H]. symmetry in H. by apply app_eq_nil in H as [? _].
    + intros ->. by exists [].
  - rewrite orb_true_iff, IH, occurs_cons.
    by rewrite (startswith_prefix (c :: s)).
Qed.

Lemma contains_char c s : contains [c] s = true <-> c ∈ s.
Proof.
  rewrite contains_occurs. split.
  - intros (a & b & ->). set_solver.
  - intros (a & b & ->)%list_elem_of_split. by exists a, b.
Qed.

(** [rfind] gives a place where [sub] starts, and the last one. *)
Lemma rfind_Some s sub i :
  rfind s sub = Some i ->
  i + length sub <= length s /\
  s = take i s ++ sub ++ drop (i + length sub) s /\
  forall a b, s = a ++ sub ++ b -> length a <= i.
Proof.
  revert i. induction s as [|c s IH]; intros i; cbn [rfind].
  - destruct sub as [|x sub]; simpl; [|done].
    intros [= <-]. split; [done|]. split; [done|]. intros a b H.
    symmetry in H. apply app_eq_nil in H as [-> _]. done.
  - destruct (rfind s sub) as [j|] eqn:Hj.
    + intros [= <-]. destruct (IH j eq_refl) as (Hle & Hs & Hlast).
      split; [simpl; lia|]. split.
      * simpl. by rewrite <- Hs.
      * intros [|x a] b H; simpl in H |- *; [lia|].
        injection H as -> ->. specialize (Hlast a b eq_refl). lia.
    + destruct (startswith (c :: s) sub) eqn:Hp; [|done].
      intros [= <-]. apply startswith_prefix in Hp as [k Hk].
      split; [rewrite Hk, length_app; lia|]. split.
      * simpl. rewrite Hk at 1. f_equal.
        rewrite Hk. by rewrite drop_app_length.
      * intros [|x a] b H; simpl in H |- *; [lia|].
        injection H as -> ->.
        assert (Hn : rfind (a ++ sub ++ b) sub <> None); [|done].
        clear. induction a as [|y a IHa]; cbn [rfind app].
        -- destruct (sub ++ b) as [|z r] eqn:E.
           ++ apply app_eq_nil in E as [-> _]. done.
           ++ cbn [rfind]. destruct (rfind r sub); [done|].
              rewrite <- E.
              assert (startswith (sub ++ b) sub = true) as ->; [|done].
              apply startswith_prefix. eauto.
        -- by destruct (rfind (a ++ sub ++ b) sub).
Qed.

Lemma rfind_None s sub : rfind s sub = None <-> ~ occurs sub s.
Proof.
  induction s as [|c s IH]; cbn [rfind].
  - rewrite occurs_nil. destruct sub; simpl; split; done.
  - rewrite occurs_cons. destruct (rfind s sub) as [j|] eqn:Hj.
    + split; [done|]. intros H. exfalso. apply H. right.
      apply rfind_Some in Hj as (_ & Hs & _).
      by exists (take j s), (drop (j + length sub) s).
    + destruct (startswith (c :: s) sub) eqn:Hp.
      * apply startswith_prefix in Hp. split; [done|]. intros H.
        exfalso. apply H. by left.
      * split; [|done]. intros _ [H|H].
        -- apply startswith_prefix in H. congruence.
        -- by apply IH in H.
Qed.

(** Under the guard of the call sites, [rsplit] gives two parts: the
    cut at the last occurrence. *)
Lemma rsplit1_last_cut s sep :
  occurs sep s ->
  exists left right, rsplit1 s sep = [left; right] /\ last_cut sep s left right.
Proof.
  intros Hocc. unfold rsplit1. destruct (rfind s sep) as [i|] eqn:Hi.
  - apply rfind_Some in Hi as (Hle & Hs & Hlast).
    exists (take i s), (drop (i + length sep) s). split; [done|].
    split; [done|]. intros a b E. rewrite length_take.
    specialize (Hlast a b E). lia.
  - apply rfind_None in Hi. done.
Qed.

Lemma truthy_true s : truthy s = true <-> s <> [].
Proof. by destruct s. Qed.

Lemma truthy_false s : truthy s = false <-> s = [].
Proof. by destruct s. Qed.

Lemma forallb_reverse p s : forallb p (reverse s) = forallb p s.
Proof.
  induction s as [|c s IH]; [done|].
  rewrite reverse_cons, forallb_app, IH. simpl.
  by rewrite andb_true_r, andb_comm.
Qed.

Lemma lstrip_by_spec p s :
  exists l, s = l ++ lstrip_by p s /\ forallb p l = true /\
    (forall c, head (lstrip_by p s) = Some c -> p c = false).
Proof.
  induction s as [|c s (l & Hs & Hl & Hh)]; simpl.
  - by exists [].
  - destruct (p c) eqn:Hc.
    + exists (c :: l). simpl. rewrite Hc, Hl. by rewrite Hs at 1.
    + exists []. repeat split. simpl. by intros ? [= <-].
Qed.

Lemma lstrip_by_fixed p t :
  (forall c, head t = Some c -> p c = false) -> lstrip_by p t = t.
Proof.
  destruct t as [|c t]; [done|]. simpl. intros H. by rewrite (H c).
Qed.

Lemma rstrip_by_spec p s :
  exists r, s = rstrip_by p s ++ r /\ forallb p r = true /\
    (forall c, last (rstrip_by p s) = Some c -> p c = false).
Proof.
  unfold rstrip_by. destruct (lstrip_by_spec p (reverse s)) as (l & Hs & Hl & Hh).
  exists (reverse l). split; [|split].
  - rewrite <- reverse_app, <- Hs. by rewrite reverse_involutive.
  - by rewrite forallb_reverse.
  - intros c. rewrite last_reverse. apply Hh.
Qed.

Lemma rstrip_by_fixed p t :
  (forall c, last t = Some c -> p c = false) -> rstrip_by p t = t.
Proof.
  intros H. unfold rstrip_by. rewrite lstrip_by_fixed.
  - apply reverse_involutive.
  - intros c. rewrite head_reverse. apply H.
Qed.

Lemma strip_by_fixed p t :
  (forall c, head t = Some c -> p c = false) ->
  (forall c, last t = Some c -> p c = false) ->
  strip_by p t = t.
Proof.
  intros Hh Hl. unfold strip_by. rewrite lstrip_by_fixed by done.
  by apply rstrip_by_fixed.
Qed.

(** [strip] removes the longest prefix and the longest suffix of
    characters to strip, and nothing else. *)
Lemma strip_by_trimmed p s : trimmed_of p s (strip_by p s).
Proof.
  unfold strip_by.
  destruct (lstrip_by_spec p s) as (l & Hs & Hl & Hh).
  destruct (rstrip_by_spec p (lstrip_by p s)) as (r & Hu & Hr & Hlast).
  exists l, r. split; [|split; [done|split; [done|split; [|done]]]].
  - rewrite <- Hu. done.
  - intros c Hc. apply Hh. rewrite Hu.
    destruct (rstrip_by p (lstrip_by p s)); [done|]. done.
Qed.

Lemma strip_by_idemp p s : strip_by p (strip_by p s) = strip_by p s.
Proof.
  destruct (strip_by_trimmed p s) as (l & r & _ & _ & _ & Hh & Hl).
  by apply strip_by_fixed.
Qed.

(** What is trimmed is determined: [strip] is the only such string. *)
Lemma trimmed_of_unique p s t : trimmed_of p s t -> t = strip_by p s.
Proof.
  intros (l & r & -> & Hl & Hr & Hh & Hlast). unfold strip_by.
  assert (Hlead : forall l u, forallb p l = true -> lstrip_by p (l ++ u) = lstrip_by p u).
  { clear. induction l as [|c l IH]; [done|]. simpl. intros u.
    intros [-> ?]%andb_true_iff. by apply IH. }
  rewrite Hlead by done. destruct t as [|c t].
  - simpl. unfold rstrip_by.
    assert (Hall : forall r, forallb p r = true -> lstrip_by p r = []).
    { clear. induction r as [|c r IH]; [done|]. simpl.
      intros [-> ?]%andb_true_iff. by apply IH. }
    by rewrite (Hall r) by done.
  - rewrite lstrip_by_fixed.
    2:{ intros c' [= <-]. by apply Hh. }
    unfold rstrip_by. rewrite reverse_app, Hlead by (by rewrite forallb_reverse).
    rewrite lstrip_by_fixed; [by rewrite reverse_involutive|].
    intros c'. rewrite head_reverse. apply Hlast.
Qed.

End StrFacts.

(** ** The text ingestor *)

(** The two ways [line_rule] holds. *)
Lemma line_rule_skip (raw : str) :
  strip raw = [] \/ hyphen ∉ strip raw -> line_rule raw [].
Proof. intros H. by left. Qed.

Lemma line_rule_cut (raw sep left right : str) (out : list QuoteModel) :
  strip raw <> [] -> hyphen ∈ strip raw ->
  (occurs (lit " - ") (strip raw) /\ sep = lit " - ") \/
  (~ occurs (lit " - ") (strip raw) /\ sep = lit "-") ->
  last_cut sep (strip raw) left right ->
  out = (if truthy (strip (strip_chars [space; dquote] left))
            && truthy (strip right)
         then [mkQuote (strip (strip_chars [space; dquote] left)) (strip right)]
         else []) ->
  line_rule raw out.
Proof.
  intros Hne Hin Hsep Hcut ->. right. split; [done|]. split; [done|].
  exists sep, left, right. split; [done|]. split; [done|].
  exists (strip (strip_chars [space; dquote] left)), (strip right).
  split; [apply strip_by_trimmed|]. split; [apply strip_by_trimmed|].
  split; [apply strip_by_trimmed|].
  destruct (truthy (strip (strip_chars _ left))) eqn:Hb;
    [destruct (truthy (strip right)) eqn:Ha|]; cbn [andb].
  - left. by rewrite <- !truthy_true.
  - right. apply truthy_false in Ha. auto.
  - right. apply truthy_false in Hb. auto.
Qed.

(** One pass of the loop never raises; it appends what [line_rule]
    says. *)
Lemma ingest_line_rule (quotes : list QuoteModel) (line : str) :
  exists out,
    TextIngestor.ingest_line quotes line = inr (quotes ++ out) /\
    line_rule line out.
Proof.
  unfold TextIngestor.ingest_line.
  destruct (truthy (strip line)) eqn:Hne; cbn [negb].
  2:{ exists []. rewrite app_nil_r. split; [done|].
      apply line_rule_skip. left. by apply truthy_false. }
  apply truthy_true in Hne.
  destruct (contains (lit "-") (strip line)) eqn:Hhy; cbn [negb].
  2:{ exists []. rewrite app_nil_r. split; [done|].
      apply line_rule_skip. right. intros Hin.
      apply (contains_char hyphen) in Hin.
      change [hyphen] with (lit "-") in Hin. congruence. }
  assert (Hin : hyphen ∈ strip line) by by apply (contains_char hyphen).
  assert (Hcut : exists sep left right,
    ((occurs (lit " - ") (strip line) /\ sep = lit " - ") \/
     (~ occurs (lit " - ") (strip line) /\ sep = lit "-")) /\
    last_cut sep (strip line) left right /\
    (if contains (lit " - ") (strip line)
     then unpack2 (rsplit1 (strip line) (lit " - "))
     else unpack2 (rsplit1 (strip line) (lit "-"))) = inr (left, right)).
  { destruct (contains (lit " - ") (strip line)) eqn:Hsep.
    - apply contains_occurs in Hsep.
      destruct (rsplit1_last_cut _ _ Hsep) as (l & r & -> & Hc).
      exists (lit " - "), l, r. auto.
    - assert (Hno : ~ occurs (lit " - ") (strip line)).
      { intros H%contains_occurs. congruence. }
      apply contains_occurs in Hhy.
      destruct (rsplit1_last_cut _ _ Hhy) as (l & r & -> & Hc).
      exists (lit "-"), l, r. auto. }
  destruct Hcut as (sep & left & right & Hsep & Hc & ->).
  cbn [rbind fst snd].
  exists (if truthy (strip (strip_chars [space; dquote] left))
             && truthy (strip right)
          then [mkQuote (strip (strip_chars [space; dquote] left)) (strip right)]
          else []).
  split; [|by eapply line_rule_cut].
  destruct (_ && _); [done|]. by rewrite app_nil_r.
Qed.

Lemma for_each_ingest_line (lines : list str) (quotes : list QuoteModel) :
  exists outs,
    for_each TextIngestor.ingest_line lines quotes = inr (quotes ++ concat outs) /\
    Forall2 line_rule lines outs.
Proof.
  revert quotes. induction lines as [|l lines IH]; intros quotes; simpl.
  - exists []. simpl. by rewrite app_nil_r.
  - destruct (ingest_line_rule quotes l) as (out & -> & Hout). simpl.
    destruct (IH (quotes ++ out)) as (outs & -> & Houts).
    exists (out :: outs). simpl. rewrite app_assoc. auto.
Qed.

(** C1, as the code has it.  For every readable text file the text
    parser returns, without raising, the records of its lines in order,
    and each line gives what [line_rule] says: nothing if the line,
    trimmed of whitespace, is empty or has no ["-"]; otherwise the
    trimmed line is cut at the last [" - "] if it has one, else at the
    last ["-"]; the body is the left part without its leading and
    trailing spaces and double quotes (all of them), then trimmed of
    whitespace; the author is the right part trimmed of whitespace; a
    record is given exactly when both are non-empty. *)
Theorem text_parse_line_by_line (open_ : str -> result str) (path text : str) :
  open_ path = inr text ->
  exists outs,
    TextIngestor.parse open_ path = inr (concat outs) /\
    Forall2 line_rule (iter_lines (universal_newlines text)) outs.
Proof.
  intros Hopen. unfold TextIngestor.parse. rewrite Hopen. simpl.
  destruct (for_each_ingest_line (iter_lines (universal_newlines text)) [])
    as (outs & -> & Houts).
  by exists outs.
Qed.

Lemma text_parse_line_by_line_witness :
  exists outs,
    TextIngestor.parse (fun _ => inr (lit "Stay hungry - Jobs")) (lit "quotes.txt")
    = inr (concat outs) /\
    Forall2 line_rule
      (iter_lines (universal_newlines (lit "Stay hungry - Jobs"))) outs.
Proof.
  apply (text_parse_line_by_line (fun _ => inr (lit "Stay hungry - Jobs"))
           (lit "quotes.txt") (lit "Stay hungry - Jobs")).
  reflexivity.
Defined.

(** The scenario of the specification and of tests/test_quoteengine.py. *)
Example text_parse_scenario :
  TextIngestor.parse
    (fun _ => inr (lit "This is a test - Tester" ++ [LF] ++
                   lit "Another quote - Someone"))
    (lit "quotes.txt")
  = inr [mkQuote (lit "This is a test") (lit "Tester");
         mkQuote (lit "Another quote") (lit "Someone")].
Proof. vm_compute. reflexivity. Qed.

(** C1 as stated fails.  The body does not lose one layer of double
    quotes but all of them.  On the line made of two double quotes, [a],
    two double quotes and [ - b], the body is [a]; with one layer
    removed it would be [a] between double quotes. *)
Lemma text_parse_strips_every_quote :
  let line := [dquote; dquote] ++ lit "a" ++ [dquote; dquote] ++ lit " - b" in
  TextIngestor.parse (fun _ => inr line) (lit "quotes.txt")
    = inr [mkQuote (lit "a") (lit "b")] /\
  flat_map Stated.text_record (iter_lines (universal_newlines line))
    = [mkQuote ([dquote] ++ lit "a" ++ [dquote]) (lit "b")] /\
  TextIngestor.parse (fun _ => inr line) (lit "quotes.txt")
    <> inr (flat_map Stated.text_record (iter_lines (universal_newlines line))).
Proof. vm_compute. repeat split; congruence. Qed.

(** ** The display form read back *)

Section RoundTrip.
Implicit Types (s t l r sep : str) (q : QuoteModel).

Lemma rsplit1_at s sep l r :
  s = l ++ sep ++ r ->
  (forall a b, s = a ++ sep ++ b -> length a <= length l) ->
  rsplit1 s sep = [l; r].
Proof.
  intros Hs Hlast. unfold rsplit1.
  destruct (rfind s sep) as [i|] eqn:Hi.
  - apply rfind_Some in Hi as (Hle & Hcut & Hmax).
    assert (i = length l) as ->.
    { specialize (Hmax l r Hs). specialize (Hlast _ _ Hcut).
      rewrite length_take in Hlast. lia. }
    rewrite Hs. rewrite take_app_length.
    rewrite app_assoc, <- length_app, drop_app_length. done.
  - apply rfind_None in Hi. destruct Hi. by exists l, r.
Qed.

(** In [l ++ " - " ++ a] the separator written last is the last one, when
    [a] neither begins with ["- "] nor has [" - "] in it. *)
Lemma separator_is_last l a x y :
  ~ occurs (lit " - ") (space :: a) ->
  l ++ lit " - " ++ a = x ++ lit " - " ++ y ->
  length x <= length l.
Proof.
  intros Hno E. apply app_eq_app in E as [m [[-> _]|[-> E]]].
  - rewrite length_app. lia.
  - destruct m as [|c m]; [rewrite length_app; simpl; lia|].
    exfalso. change (lit " - ") with [space; hyphen; space] in *.
    simpl in E. injection E as <- E.
    destruct m as [|c' m]; simpl in E; [done|].
    injection E as <- E. apply Hno. by exists m, y.
Qed.

Lemma bare_spec (p : ascii -> bool) s :
  bare p s = true ->
  (s <> []) /\ (forall c, head s = Some c -> p c = false) /\
  (forall c, last s = Some c -> p c = false).
Proof.
  unfold bare. destruct (head s) as [c|] eqn:Hh; [|done].
  destruct (last s) as [c'|] eqn:Hl; [|done].
  intros [Hc Hc']%andb_true_iff. apply negb_true_iff in Hc, Hc'.
  split; [by destruct s|]. split; by intros ? [= <-].
Qed.

Lemma one_line_spec s : one_line s = true -> (LF ∉ s) /\ (CR ∉ s).
Proof.
  unfold one_line. induction s as [|c s IH]; simpl.
  - intros _. split; apply not_elem_of_nil.
  - intros [[H1 H2]%andb_true_iff H]%andb_true_iff.
    apply negb_true_iff, bool_decide_eq_false in H1, H2.
    destruct (IH H). rewrite !not_elem_of_cons. auto.
Qed.

Lemma display_one_line q :
  one_line (body q) = true -> one_line (author q) = true ->
  (LF ∉ __str__ q) /\ (CR ∉ __str__ q).
Proof.
  intros [? ?]%one_line_spec [? ?]%one_line_spec. unfold __str__.
  change (lit " - ") with [space; hyphen; space].
  rewrite ?not_elem_of_app, ?not_elem_of_cons.
  repeat split; try done; by apply not_elem_of_nil.
Qed.

Lemma strip_by_inside (p : ascii -> bool) l t r :
  forallb p l = true -> forallb p r = true -> bare p t = true ->
  strip_by p (l ++ t ++ r) = t.
Proof.
  intros Hl Hr (Hne & Hh & Hlast)%bare_spec. symmetry.
  apply trimmed_of_unique. by exists l, r.
Qed.

Lemma strip_by_fixed_bare (p : ascii -> bool) t :
  bare p t = true -> strip_by p t = t.
Proof.
  intros H. apply (strip_by_inside p [] t []) in H; [|done..].
  by rewrite app_nil_r in H.
Qed.

Lemma strip_bare t : bare isspace t = true -> strip t = t.
Proof. apply strip_by_fixed_bare. Qed.

Lemma bare_or (p1 p2 : ascii -> bool) s :
  bare (fun c => p1 c || p2 c) s = true ->
  bare p1 s = true /\ bare p2 s = true.
Proof.
  unfold bare. destruct (head s); [|done]. destruct (last s); [|done].
  rewrite !negb_orb, !andb_true_iff. tauto.
Qed.

(** A well-formed pair is read back from its display form, whatever
    whitespace follows on the line. *)
Lemma ingest_display (quotes : list QuoteModel) q (trail : str) :
  well_formed q = true -> forallb isspace trail = true ->
  TextIngestor.ingest_line quotes (__str__ q ++ trail) = inr (quotes ++ [q]).
Proof.
  unfold well_formed.
  intros [[[[Hb1 Ha1]%andb_true_iff Hb]%andb_true_iff Ha]%andb_true_iff
            Hsep]%andb_true_iff Htrail.
  apply negb_true_iff in Hsep.
  assert (Hno : ~ occurs (lit " - ") (space :: author q)).
  { intros H%contains_occurs. congruence. }
  destruct (bare_spec _ _ Ha) as (Hane & Hah & Hal).
  assert (Hline : strip (__str__ q ++ trail) = __str__ q).
  { unfold strip. apply (strip_by_inside isspace [] (__str__ q) trail); try done.
    unfold bare, __str__. simpl.
    rewrite last_cons, last_app, last_cons.
    change (lit " - ") with [space; hyphen; space]. simpl.
    rewrite !last_cons.
    destruct (last (author q)) as [c|] eqn:Hc.
    - by rewrite (Hal c).
    - by apply last_None in Hc. }
  unfold TextIngestor.ingest_line. rewrite Hline.
  assert (Hform : __str__ q = (dquote :: body q ++ [dquote]) ++ lit " - " ++ author q).
  { unfold __str__. simpl. by rewrite <- !app_assoc. }
  assert (Hocc : occurs (lit " - ") (__str__ q)) by (rewrite Hform; by eexists _, _).
  assert (truthy (__str__ q) = true) as -> by done.
  assert (contains (lit "-") (__str__ q) = true) as ->.
  { apply (contains_char hyphen). unfold __str__.
    change (lit " - ") with [space; hyphen; space]. set_solver. }
  assert (contains (lit " - ") (__str__ q) = true) as -> by by apply contains_occurs.
  simpl. rewrite (rsplit1_at _ _ (dquote :: body q ++ [dquote]) (author q)); [|done|].
  2:{ intros a b E. rewrite Hform in E. by eapply separator_is_last. }
  simpl.
  apply bare_or in Hb as [Hbs Hbq].
  rewrite (strip_bare (author q)) by done.
  assert (strip_chars [space; dquote] (dquote :: body q ++ [dquote]) = body q) as ->.
  { by apply (strip_by_inside _ [dquote] (body q) [dquote]). }
  rewrite (strip_bare (body q)) by done.
  destruct (bare_spec _ _ Hbs) as (Hbne & _).
  apply truthy_true in Hbne, Hane. rewrite Hbne, Hane. simpl.
  by destruct q.
Qed.

Lemma universal_newlines_app a b :
  CR ∉ a -> universal_newlines (a ++ b) = a ++ universal_newlines b.
Proof.
  induction a as [|c a IH]; [done|]. intros [Hc Ha]%not_elem_of_cons.
  cbn [app universal_newlines]. rewrite bool_decide_eq_false_2 by done.
  by rewrite IH.
Qed.

Lemma iter_lines_line l rest :
  LF ∉ l -> iter_lines (l ++ LF :: rest) = (l ++ [LF]) :: iter_lines rest.
Proof.
  induction l as [|c l IH]; [done|]. intros [Hc Hl]%not_elem_of_cons.
  cbn [app iter_lines]. rewrite bool_decide_eq_false_2 by done.
  by rewrite IH.
Qed.

Lemma iter_lines_last l : LF ∉ l -> l <> [] -> iter_lines l = [l].
Proof.
  induction l as [|c l IH]; [done|]. intros [Hc Hl]%not_elem_of_cons _.
  cbn [iter_lines]. rewrite bool_decide_eq_false_2 by done.
  destruct l as [|c' l]; [done|]. by rewrite IH.
Qed.

(** The loop over a file that begins with the display form of [q]. *)
Lemma ingest_display_line (quotes : list QuoteModel) q (rest : str) :
  well_formed q = true ->
  for_each TextIngestor.ingest_line
    (iter_lines (universal_newlines (__str__ q ++ LF :: rest))) quotes
  = for_each TextIngestor.ingest_line
      (iter_lines (universal_newlines rest)) (quotes ++ [q]).
Proof.
  intros Hq. assert (Hline : (LF ∉ __str__ q) /\ (CR ∉ __str__ q)).
  { unfold well_formed in Hq. rewrite !andb_true_iff in Hq.
    apply display_one_line; tauto. }
  destruct Hline as [Hlf Hcr].
  rewrite universal_newlines_app by done.
  change (universal_newlines (LF :: rest)) with (LF :: universal_newlines rest).
  rewrite iter_lines_line by done. cbn [for_each].
  by rewrite ingest_display.
Qed.

Lemma ingest_display_file (qs quotes : list QuoteModel) (final_newline : bool) :
  Forall (fun q => well_formed q = true) qs ->
  for_each TextIngestor.ingest_line
    (iter_lines (universal_newlines (display_file qs final_newline))) quotes
  = inr (quotes ++ qs).
Proof.
  intros Hqs. revert quotes.
  induction Hqs as [|q qs Hq Hqs IH]; intros quotes.
  - destruct final_newline; simpl; by rewrite app_nil_r.
  - destruct final_newline.
    + unfold display_file in *. cbn [flat_map]. rewrite <- app_assoc.
      change ([LF] ++ ?r) with (LF :: r).
      rewrite ingest_display_line by done. rewrite IH.
      by rewrite <- app_assoc.
    + unfold display_file in *. destruct qs as [|q' qs].
      * cbn [map join].
        assert (Hline : (LF ∉ __str__ q) /\ (CR ∉ __str__ q)).
        { unfold well_formed in Hq. rewrite !andb_true_iff in Hq.
          apply display_one_line; tauto. }
        destruct Hline as [Hlf Hcr].
        rewrite <- (app_nil_r (__str__ q)) at 1.
        rewrite universal_newlines_app by done. cbn [universal_newlines].
        rewrite app_nil_r, iter_lines_last by done. cbn [for_each].
        rewrite <- (app_nil_r (__str__ q)). by rewrite ingest_display.
      * change (join [LF] (map __str__ (q :: q' :: qs)))
          with (__str__ q ++ LF :: join [LF] (map __str__ (q' :: qs))).
        rewrite ingest_display_line by done. rewrite IH.
        by rewrite <- app_assoc.
Qed.

End RoundTrip.



(** A pair that is not well formed: the author has a separator in it,
    and the display form is cut there. *)
Example display_of_author_with_separator :
  TextIngestor.parse
    (fun _ => inr (__str__ (mkQuote (lit "a") (lit "b - c")))) (lit "quotes.txt")
  = inr [mkQuote (lit "a" ++ [dquote] ++ lit " - b") (lit "c")].
Proof. vm_compute. reflexivity. Qed.

(** ** The facade *)

Section FacadeFacts.
Import Ingestor.
Context {W : Type}.
Variable path_exists : str -> W -> bool.
Variable invoke : ingestor -> str -> W -> result (list QuoteModel) * W.

Lemma split_char_not_empty c (s : str) : split_char c s <> [].
Proof.
  destruct s as [|a s]; [done|]. simpl.
  destruct (bool_decide (a = c)); [done|]. by destruct (split_char c s).
Qed.

Lemma split_char_app c (a b : str) :
  split_char c (a ++ c :: b) = split_char c a ++ split_char c b.
Proof.
  induction a as [|x a IH]; simpl.
  - by rewrite bool_decide_eq_true_2.
  - rewrite IH. destruct (bool_decide (x = c)); [done|].
    pose proof (split_char_not_empty c a).
    by destruct (split_char c a).
Qed.

Lemma split_char_none c (s : str) : c ∉ s -> split_char c s = [s].
Proof.
  induction s as [|x s IH]; [done|]. intros [Hx Hs]%not_elem_of_cons. simpl.
  rewrite bool_decide_eq_false_2 by done. by rewrite IH.
Qed.

(** The extension is the part after the last dot, in lower case; a path
    without a dot is its own extension. *)
Lemma extension_after_last_dot (path : str) :
  (forall pre suf, path = pre ++ dot :: suf -> dot ∉ suf ->
     extension path = lower suf) /\
  (dot ∉ path -> extension path = lower path).
Proof.
  unfold extension. split.
  - intros pre suf -> Hsuf.
    by rewrite split_char_app, (split_char_none _ suf), last_snoc.
  - intros Hno. by rewrite split_char_none.
Qed.

(** The loop calls the first parser of the table that accepts the
    extension, and no other. *)
Lemma dispatch_first (ingestors : list ingestor) (path : str) (w : W) :
  dispatch invoke ingestors path w =
  match list_find (fun i => extension path ∈ allowed_extensions i) ingestors with
  | Some (_, i) =>
      mkOutcome
        match (invoke i path w).1 with
        | inr quotes => inr quotes
        | inl e =>
            inl (ValueError (lit "Failed to parse " ++ path ++ lit " with " ++
                             __name__ i ++ lit ": " ++ exn_str e))
        end
        [i] (invoke i path w).2
  | None =>
      mkOutcome
        (inl (ValueError (lit "No available ingestor for file type: " ++ path)))
        [] w
  end.
Proof.
  induction ingestors as [|i rest IH]; [done|].
  cbn [dispatch list_find]. unfold can_ingest.
  destruct (decide (extension path ∈ allowed_extensions i)) as [Hin|Hin].
  - rewrite bool_decide_eq_true_2 by done. by destruct (invoke i path w).
  - rewrite bool_decide_eq_false_2 by done. rewrite IH.
    by destruct (list_find _ rest) as [[? ?]|].
Qed.

End FacadeFacts.

(** C2.  The facade takes as extension the part of the path after its
    last ["."], in lower case (the whole path when it has no dot).  For a
    path that exists it goes through Text, CSV, Document, PDF in that
    order and calls the first parser whose extensions contain it, and
    that parser only; with no such parser it raises.  The extension of
    [x.CSV] is [csv] and selects the CSV parser. *)
Theorem facade_dispatch_by_extension {W : Type}
  (path_exists : str -> W -> bool)
  (invoke : Ingestor.ingestor -> str -> W -> result (list QuoteModel) * W)
  (path : str) (w : W) :
  ((forall pre suf, path = pre ++ dot :: suf -> dot ∉ suf ->
      Ingestor.extension path = lower suf) /\
   (dot ∉ path -> Ingestor.extension path = lower path)) /\
  (forall i, Ingestor.can_ingest i path = true <->
             Ingestor.extension path ∈ Ingestor.allowed_extensions i) /\
  (path_exists path w = true ->
   match list_find (fun i => Ingestor.extension path ∈ Ingestor.allowed_extensions i)
           [Ingestor.Text; Ingestor.CSV; Ingestor.Docx; Ingestor.PDF] with
   | Some (_, i) =>
       Ingestor.invoked (Ingestor.parse path_exists invoke path w) = [i] /\
       Ingestor.world (Ingestor.parse path_exists invoke path w)
         = (invoke i path w).2 /\
       (forall quotes, (invoke i path w).1 = inr quotes ->
          Ingestor.returned (Ingestor.parse path_exists invoke path w) = inr quotes)
   | None =>
       Ingestor.parse path_exists invoke path w =
       Ingestor.mkOutcome
         (inl (ValueError (lit "No available ingestor for file type: " ++ path)))
         [] w
   end) /\
  Ingestor.extension (lit "x.CSV") = lit "csv" /\
  (path = lit "x.CSV" -> path_exists path w = true ->
   Ingestor.invoked (Ingestor.parse path_exists invoke path w) = [Ingestor.CSV]).
Proof.
  split; [apply extension_after_last_dot|].
  split; [intros i; unfold Ingestor.can_ingest; apply bool_decide_eq_true|].
  split; [|split; [done|]].
  - intros Hex. unfold Ingestor.parse. rewrite Hex. cbn [negb].
    rewrite dispatch_first.
    destruct (list_find _ _) as [[k i]|]; [|done]. cbn.
    repeat split. by intros quotes ->.
  - intros -> Hex. unfold Ingestor.parse. rewrite Hex. cbn [negb].
    rewrite dispatch_first. done.
Qed.

Lemma facade_dispatch_by_extension_witness :
  Ingestor.invoked
    (Ingestor.parse (fun _ (_ : unit) => true) (fun _ _ w => (inr [], w))
       (lit "x.CSV") tt) = [Ingestor.CSV].
Proof.
  apply (facade_dispatch_by_extension (fun _ (_ : unit) => true)
           (fun _ _ w => (inr [], w)) (lit "x.CSV") tt); reflexivity.
Defined.

(** The parsers accept different extensions: at most one accepts a
    path, and the facade calls that one. *)
Lemma can_ingest_chosen (i : Ingestor.ingestor) (path : str) :
  Ingestor.can_ingest i path = true ->
  list_find (fun j => Ingestor.extension path ∈ Ingestor.allowed_extensions j)
    [Ingestor.Text; Ingestor.CSV; Ingestor.Docx; Ingestor.PDF]
  = Some (match i with
          | Ingestor.Text => 0 | Ingestor.CSV => 1
          | Ingestor.Docx => 2 | Ingestor.PDF => 3
          end, i).
Proof.
  unfold Ingestor.can_ingest. intros Hin%bool_decide_eq_true.
  destruct i; cbn in Hin; apply list_elem_of_singleton in Hin; rewrite Hin; done.
Qed.

(** C9.  When the parser that accepts the path raises [e], the facade
    raises a ValueError whose message names the path and that parser and
    ends with the text of [e]; it has called that parser only, and the
    world is as that one call left it. *)
Theorem facade_wraps_failure {W : Type}
  (path_exists : str -> W -> bool)
  (invoke : Ingestor.ingestor -> str -> W -> result (list QuoteModel) * W)
  (path : str) (w w' : W) (i : Ingestor.ingestor) (e : exn) :
  path_exists path w = true ->
  Ingestor.can_ingest i path = true ->
  invoke i path w = (inl e, w') ->
  Ingestor.parse path_exists invoke path w =
  Ingestor.mkOutcome
    (inl (ValueError (lit "Failed to parse " ++ path ++ lit " with " ++
                      Ingestor.__name__ i ++ lit ": " ++ exn_str e)))
    [i] w'.
Proof.
  intros Hex Hi Hinv. unfold Ingestor.parse. rewrite Hex. cbn [negb].
  rewrite dispatch_first, (can_ingest_chosen i path Hi), Hinv. done.
Qed.

Lemma facade_wraps_failure_witness :
  Ingestor.parse (fun _ (_ : nat) => true)
    (fun _ _ n => (inl (ValueError (lit "bad header")), S n))
    (lit "quotes.csv") 0
  = Ingestor.mkOutcome
      (inl (ValueError (lit "Failed to parse quotes.csv with CSVIngestor: bad header")))
      [Ingestor.CSV] 1.
Proof.
  apply (facade_wraps_failure (fun _ (_ : nat) => true)
           (fun _ _ n => (inl (ValueError (lit "bad header")), S n))
           (lit "quotes.csv") 0 1 Ingestor.CSV (ValueError (lit "bad header")));
    reflexivity.
Defined.

(** ** The CSV parsers *)

Section PandasFacts.
Import PandasCSVIngestor.
Implicit Types (header columns : list str) (name : str).

Lemma position_lookup name header i :
  Stated.position name header = Some i ->
  exists c, header !! i = Some c /\ lower c = name.
Proof.
  revert i. induction header as [|h t IH]; intros i; simpl; [done|].
  case_bool_decide as Hh.
  - intros [= <-]. by exists h.
  - destruct (Stated.position name t) as [j|]; simpl; [|done].
    intros [= <-]. by apply IH.
Qed.

Lemma mentions_position header name :
  Stated.mentions header name = true <-> is_Some (Stated.position name header).
Proof.
  unfold Stated.mentions. rewrite bool_decide_eq_true.
  induction header as [|h t IH]; simpl.
  - split; [by intros ?%elem_of_nil | by intros [? ?]].
  - rewrite elem_of_cons, IH. case_bool_decide as Hh.
    + split; [by eauto | by left].
    + split.
      * intros [?|[j Hj]]; [done|]. rewrite Hj. by eexists.
      * intros [j Hj]. right.
        destruct (Stated.position name t); [by eexists | done].
Qed.

Lemma index_lower name header :
  index name (map lower header) =
  match Stated.position name header with
  | Some i => inr i
  | None => inl (ValueError (name ++ lit " is not in list"))
  end.
Proof.
  induction header as [|h t IH]; simpl; [done|].
  case_bool_decide; [done|]. rewrite IH.
  by destruct (Stated.position name t).
Qed.

(** The label found for a name leads back to the same column. *)
Lemma index_label name header i c :
  Stated.position name header = Some i -> header !! i = Some c ->
  index c header = inr i.
Proof.
  revert i. induction header as [|h t IH]; intros i; simpl; [done|].
  case_bool_decide as Hh.
  - intros [= <-] [= <-]. by rewrite bool_decide_eq_true_2.
  - destruct (Stated.position name t) as [j|] eqn:Hj; simpl; [|done].
    intros [= <-] Hc. simpl in Hc.
    destruct (position_lookup _ _ _ Hj) as (c' & Hc' & Hlow).
    assert (c' = c) as -> by congruence.
    rewrite bool_decide_eq_false_2 by congruence.
    by rewrite (IH j).
Qed.

Lemma labels_of_mentioned columns b a :
  Stated.mentions columns b = true -> Stated.mentions columns a = true ->
  labels_of columns (map lower columns) b a
  = inr (Stated.label columns b, Stated.label columns a).
Proof.
  intros [bi Hb]%mentions_position [ai Ha]%mentions_position.
  unfold labels_of, Stated.label. rewrite !index_lower, Hb, Ha. simpl.
  destruct (position_lookup _ _ _ Hb) as (cb & Hcb & _).
  destruct (position_lookup _ _ _ Ha) as (ca & Hca & _).
  unfold getitem. by rewrite Hcb, Hca.
Qed.

(** The [match] of [_find_quote_columns] tries the name pairs in the
    order of [name_pairs] and never raises. *)
Lemma find_quote_columns_resolved columns :
  _find_quote_columns columns =
  inr match Stated.named_pair columns with
      | Some (b, a) => (Stated.label columns b, Stated.label columns a)
      | None => (None, None)
      end.
Proof.
  unfold _find_quote_columns, Stated.named_pair, Stated.name_pairs.
  change (fun x => elem x (map lower columns)) with (Stated.mentions columns).
  repeat change (elem ?n (map lower columns)) with (Stated.mentions columns n).
  cbn [find fst snd].
  destruct (Stated.mentions columns (lit "body")) eqn:Hb,
    (Stated.mentions columns (lit "author")) eqn:Ha,
    (Stated.mentions columns (lit "quote")) eqn:Hq,
    (Stated.mentions columns (lit "speaker")) eqn:Hs;
    cbn [andb]; try done; by apply labels_of_mentioned.
Qed.

Lemma keep_app (quotes : list QuoteModel) (b a : str) :
  keep quotes b a = quotes ++ keep [] b a.
Proof. unfold keep. destruct (_ && _); [done|]. by rewrite app_nil_r. Qed.

(** The loop over the rows, the cells taken under two labels found for
    two names of the header. *)
Lemma for_each_named columns (rows : list (list cell)) (quotes : list QuoteModel)
  (b a cb ca : str) (bi ai : nat) :
  Stated.position b columns = Some bi -> columns !! bi = Some cb ->
  Stated.position a columns = Some ai -> columns !! ai = Some ca ->
  Forall (fun r => length r = length columns) rows ->
  for_each (fun quotes row =>
              b <-? row_get columns row cb;
              a <-? row_get columns row ca;
              inr (keep quotes (strip (cell_str b)) (strip (cell_str a))))
           rows quotes
  = inr (quotes ++ flat_map (frame_record (bi, ai)) rows).
Proof.
  intros Hb Hcb Ha Hca Hrows. revert quotes.
  induction Hrows as [|row rows Hrow Hrows IH]; intros quotes.
  - simpl. by rewrite app_nil_r.
  - cbn [for_each flat_map]. unfold row_get at 1 2.
    rewrite (index_label _ _ _ _ Hb Hcb), (index_label _ _ _ _ Ha Hca).
    destruct (lookup_lt_is_Some_2 row bi) as [xb Hxb].
    { rewrite Hrow. by eapply lookup_lt_Some. }
    destruct (lookup_lt_is_Some_2 row ai) as [xa Hxa].
    { rewrite Hrow. by eapply lookup_lt_Some. }
    rewrite Hxb, Hxa. cbn [rbind]. rewrite IH.
    unfold frame_record at 2. cbn [fst snd]. rewrite Hxb, Hxa.
    by rewrite keep_app, <- app_assoc.
Qed.

(** The loop of the fallback, over the first two cells. *)
Lemma for_each_positional (n : nat) (rows : list (list cell))
  (quotes : list QuoteModel) :
  2 <= n -> Forall (fun r => length r = n) rows ->
  for_each (fun quotes row =>
              b <-? row_iloc row 0;
              a <-? row_iloc row 1;
              inr (keep quotes (strip (cell_str b)) (strip (cell_str a))))
           rows quotes
  = inr (quotes ++ flat_map (frame_record (0, 1)) rows).
Proof.
  intros Hn Hrows. revert quotes.
  induction Hrows as [|row rows Hrow Hrows IH]; intros quotes.
  - simpl. by rewrite app_nil_r.
  - cbn [for_each flat_map].
    destruct row as [|xb [|xa row]]; simpl in Hrow; [lia..|].
    unfold row_iloc. cbn [lookup list_lookup rbind]. rewrite IH.
    unfold frame_record at 2. cbn [fst snd lookup list_lookup].
    by rewrite keep_app, <- app_assoc.
Qed.

(** On a data frame whose rows have a cell for every column, the parser
    returns the records of the rows at the positions [Stated.resolve]
    gives. *)
Lemma parse_frame_resolved (df : DataFrame) :
  Forall (fun r => length r = length (columns df)) (rows df) ->
  parse_frame df =
  inr match Stated.resolve (columns df) with
      | Some cols => flat_map (frame_record cols) (rows df)
      | None => []
      end.
Proof.
  intros Hrows. unfold parse_frame, Stated.resolve.
  rewrite find_quote_columns_resolved. cbn [rbind].
  destruct (Stated.named_pair (columns df)) as [[b a]|] eqn:Hpair.
  - apply find_some in Hpair as [Hin [Hb Ha]%andb_true_iff].
    cbn [fst snd] in Hb, Ha.
    apply mentions_position in Hb as [bi Hb], Ha as [ai Ha].
    destruct (position_lookup _ _ _ Hb) as (cb & Hcb & Hlb).
    destruct (position_lookup _ _ _ Ha) as (ca & Hca & Hla).
    unfold Stated.label. rewrite Hb, Ha. cbn [mbind option_bind].
    rewrite Hcb, Hca. cbn [truthy_label default].
    assert (truthy cb = true) as ->.
    { destruct cb; [|done]. simpl in Hlb. subst b.
      cbv in Hin. intuition discriminate. }
    assert (truthy ca = true) as ->.
    { destruct ca; [|done]. simpl in Hla. subst a.
      cbv in Hin. intuition discriminate. }
    cbn [andb]. by rewrite (for_each_named _ _ _ b a cb ca bi ai).
  - cbn [truthy_label andb].
    destruct (2 <=? length (columns df)) eqn:Hn; [|done].
    apply Nat.leb_le in Hn.
    by rewrite (for_each_positional (length (columns df))).
Qed.

End PandasFacts.

(** C4, as the code has it.  The pandas parser resolves the body and
    author columns whatever the case of the header, trying the name
    pairs (body, author), (quote, speaker), (body, speaker),
    (quote, author) in that order and taking the first pair both of
    whose names the header has; with no such pair it takes the first two
    columns whatever their names (and gives no record when there are
    fewer than two).  The header [quote,speaker] with the one row
    [Stay hungry,Jobs] gives the one record, with the pandas parser and
    with the parser on the csv module. *)
Theorem pandas_csv_column_resolution
  (read_csv : str -> result PandasCSVIngestor.DataFrame) (path : str)
  (df : PandasCSVIngestor.DataFrame) :
  PandasCSVIngestor._find_quote_columns (PandasCSVIngestor.columns df) =
    inr match Stated.named_pair (PandasCSVIngestor.columns df) with
        | Some (b, a) =>
            (Stated.label (PandasCSVIngestor.columns df) b,
             Stated.label (PandasCSVIngestor.columns df) a)
        | None => (None, None)
        end /\
  (read_csv path = inr df ->
   Forall (fun r => length r = length (PandasCSVIngestor.columns df))
          (PandasCSVIngestor.rows df) ->
   PandasCSVIngestor.parse read_csv path =
     inr match Stated.resolve (PandasCSVIngestor.columns df) with
         | Some cols => flat_map (frame_record cols) (PandasCSVIngestor.rows df)
         | None => []
         end) /\
  PandasCSVIngestor.parse
    (fun _ => inr (PandasCSVIngestor.mkFrame
       [lit "quote"; lit "speaker"]
       [[PandasCSVIngestor.Value (lit "Stay hungry");
         PandasCSVIngestor.Value (lit "Jobs")]])) path
  = inr [mkQuote (lit "Stay hungry") (lit "Jobs")] /\
  CSVIngestor.parse
    (fun _ => inr [[lit "quote"; lit "speaker"]; [lit "Stay hungry"; lit "Jobs"]])
    path
  = inr [mkQuote (lit "Stay hungry") (lit "Jobs")].
Proof.
  split; [apply find_quote_columns_resolved|]. split; [|split; reflexivity].
  intros Hread Hrows. unfold PandasCSVIngestor.parse. rewrite Hread.
  cbn [rbind]. by rewrite parse_frame_resolved.
Qed.

Lemma pandas_csv_column_resolution_witness :
  PandasCSVIngestor.parse
    (fun _ => inr (PandasCSVIngestor.mkFrame
       [lit "Id"; lit "AUTHOR"; lit "Body"]
       [[PandasCSVIngestor.Value (lit "1");
         PandasCSVIngestor.Value (lit "Jobs");
         PandasCSVIngestor.Value (lit " Stay hungry ")]]))
    (lit "quotes.csv")
  = inr [mkQuote (lit "Stay hungry") (lit "Jobs")].
Proof.
  pose proof (pandas_csv_column_resolution
           (fun _ => inr (PandasCSVIngestor.mkFrame
              [lit "Id"; lit "AUTHOR"; lit "Body"]
              [[PandasCSVIngestor.Value (lit "1");
                PandasCSVIngestor.Value (lit "Jobs");
                PandasCSVIngestor.Value (lit " Stay hungry ")]]))
           (lit "quotes.csv")
           (PandasCSVIngestor.mkFrame
              [lit "Id"; lit "AUTHOR"; lit "Body"]
              [[PandasCSVIngestor.Value (lit "1");
                PandasCSVIngestor.Value (lit "Jobs");
                PandasCSVIngestor.Value (lit " Stay hungry ")]]))
    as (_ & H & _).
  rewrite H.
  - reflexivity.
  - reflexivity.
  - repeat constructor.
Defined.

(** C4 as stated fails for the parser on the csv module: it looks the
    fields up under the exact names only, so under the header
    [AUTHOR,BODY] it takes the first two fields as they come. *)
Lemma csv_reader_exact_names_only :
  let rows := [[lit "AUTHOR"; lit "BODY"]; [lit "Jobs"; lit "Stay hungry"]] in
  Stated.csv_records rows = [mkQuote (lit "Stay hungry") (lit "Jobs")] /\
  CSVIngestor.parse (fun _ => inr rows) (lit "quotes.csv")
    = inr [mkQuote (lit "Jobs") (lit "Stay hungry")] /\
  CSVIngestor.parse (fun _ => inr rows) (lit "quotes.csv")
    <> inr (Stated.csv_records rows).
Proof. vm_compute. repeat split; congruence. Qed.

(** C5 fails for the parser on the csv module: it tests the fields
    before it trims them, so a body of one space is kept and the record
    has an empty body. *)
Lemma csv_reader_blank_body :
  let rows := [[lit "body"; lit "author"]; [lit " "; lit "Jobs"]] in
  CSVIngestor.parse (fun _ => inr rows) (lit "quotes.csv")
    = inr [mkQuote [] (lit "Jobs")] /\
  ~ invariant (mkQuote [] (lit "Jobs")).
Proof.
  split; [reflexivity|]. intros [Hb _]. by apply Hb.
Qed.

Lemma keep_only (b a : str) (q : QuoteModel) :
  q ∈ PandasCSVIngestor.keep [] b a ->
  q = mkQuote b a /\ b <> [] /\ a <> [] /\ b <> lit "nan" /\ a <> lit "nan".
Proof.
  unfold PandasCSVIngestor.keep.
  destruct (truthy b) eqn:Hb, (truthy a) eqn:Ha; cbn [andb];
    try by intros ?%elem_of_nil.
  case_bool_decide as Hbn; cbn [negb andb]; [by intros ?%elem_of_nil|].
  case_bool_decide as Han; cbn [negb]; [by intros ?%elem_of_nil|].
  intros ->%list_elem_of_singleton.
  apply truthy_true in Hb, Ha. done.
Qed.

(** C10.  The pandas parser keeps a row only if neither trimmed text is
    [nan]: on a data frame whose rows have a cell for every column, a
    row with a resolved cell whose trimmed text is [nan] gives no record,
    and no record has [nan] as body or author.  A row with the text
    [nan] beside [Jobs] gives nothing although both are non-empty after
    trimming, and so does a row with an empty cell, which reads as NaN. *)
Theorem pandas_csv_skips_nan
  (read_csv : str -> result PandasCSVIngestor.DataFrame) (path : str)
  (df : PandasCSVIngestor.DataFrame) (cols : nat * nat) :
  read_csv path = inr df ->
  Forall (fun r => length r = length (PandasCSVIngestor.columns df))
         (PandasCSVIngestor.rows df) ->
  Stated.resolve (PandasCSVIngestor.columns df) = Some cols ->
  PandasCSVIngestor.parse read_csv path
    = inr (flat_map (frame_record cols) (PandasCSVIngestor.rows df)) /\
  (forall row b a,
     row !! cols.1 = Some b -> row !! cols.2 = Some a ->
     strip (PandasCSVIngestor.cell_str b) = lit "nan" \/
     strip (PandasCSVIngestor.cell_str a) = lit "nan" ->
     frame_record cols row = []) /\
  (forall row q, q ∈ frame_record cols row ->
     body q <> lit "nan" /\ author q <> lit "nan") /\
  (let row := [PandasCSVIngestor.Value (lit "nan");
               PandasCSVIngestor.Value (lit "Jobs")] in
   PandasCSVIngestor.parse
     (fun _ => inr (PandasCSVIngestor.mkFrame [lit "body"; lit "author"] [row]))
     path = inr [] /\
   Stated.csv_record (0, 1) [lit "nan"; lit "Jobs"]
     = [mkQuote (lit "nan") (lit "Jobs")]) /\
  PandasCSVIngestor.parse
    (fun _ => inr (PandasCSVIngestor.mkFrame [lit "body"; lit "author"]
       [[PandasCSVIngestor.NaN; PandasCSVIngestor.Value (lit "Jobs")]]))
    path = inr [].
Proof.
  intros Hread Hrows Hcols. split; [|split; [|split; [|split]]].
  - unfold PandasCSVIngestor.parse. rewrite Hread. cbn [rbind].
    by rewrite parse_frame_resolved, Hcols.
  - intros row b a Hb Ha Hnan. unfold frame_record. rewrite Hb, Ha.
    unfold PandasCSVIngestor.keep.
    destruct Hnan as [-> | ->].
    + rewrite bool_decide_eq_true_2 by done. cbn [negb].
      by rewrite andb_false_r.
    + rewrite (bool_decide_eq_true_2 (lit "nan" = lit "nan")) by done.
      cbn [negb]. by rewrite andb_false_r.
  - intros row q. unfold frame_record.
    destruct (row !! cols.1) as [b|]; [|by intros ?%elem_of_nil].
    destruct (row !! cols.2) as [a|]; [|by intros ?%elem_of_nil].
    intros (-> & _ & _ & ? & ?)%keep_only. done.
  - done.
  - done.
Qed.

Lemma pandas_csv_skips_nan_witness :
  PandasCSVIngestor.parse
    (fun _ => inr (PandasCSVIngestor.mkFrame [lit "quote"; lit "author"]
       [[PandasCSVIngestor.Value (lit " nan "); PandasCSVIngestor.Value (lit "Jobs")];
        [PandasCSVIngestor.Value (lit "Stay hungry"); PandasCSVIngestor.Value (lit "Jobs")]]))
    (lit "quotes.csv")
  = inr [mkQuote (lit "Stay hungry") (lit "Jobs")].
Proof.
  pose proof (pandas_csv_skips_nan
    (fun _ => inr (PandasCSVIngestor.mkFrame [lit "quote"; lit "author"]
       [[PandasCSVIngestor.Value (lit " nan "); PandasCSVIngestor.Value (lit "Jobs")];
        [PandasCSVIngestor.Value (lit "Stay hungry"); PandasCSVIngestor.Value (lit "Jobs")]]))
    (lit "quotes.csv")
    (PandasCSVIngestor.mkFrame [lit "quote"; lit "author"]
       [[PandasCSVIngestor.Value (lit " nan "); PandasCSVIngestor.Value (lit "Jobs")];
        [PandasCSVIngestor.Value (lit "Stay hungry"); PandasCSVIngestor.Value (lit "Jobs")]])
    (0, 1)) as H.
  destruct H as (H & _).
  - reflexivity.
  - repeat constructor.
  - reflexivity.
  - rewrite H. reflexivity.
Defined.

(** ** The PDF parser and its temporary file *)

Section PDFFacts.
Import PDFIngestor.

(** The [finally] block leaves no file under the name and never raises. *)
Lemma cleanup_removes (tmp_path : str) (fs : fsys) :
  cleanup tmp_path fs = (inr tt, delete tmp_path fs).
Proof.
  unfold cleanup, bind, os_path_exists, os_remove, ret.
  destruct (fs !! tmp_path) as [d|] eqn:Hd.
  - rewrite bool_decide_eq_true_2 by by eexists. by rewrite Hd.
  - rewrite bool_decide_eq_false_2 by by intros [? ?].
    by rewrite delete_id.
Qed.

Lemma try_finally_cleanup {A} (body : M A) (tmp_path : str) (fs : fsys) :
  try_finally body (cleanup tmp_path) fs
  = ((body fs).1, delete tmp_path (body fs).2).
Proof.
  unfold try_finally. destruct (body fs) as [r fs1].
  by rewrite cleanup_removes.
Qed.

Lemma try_except_handler (body : M (list QuoteModel)) (pdf_tool path : str)
  (fs : fsys) :
  pdf_outcome (try_except body (handler pdf_tool path) fs).1.
Proof.
  unfold try_except. destruct (body fs) as [[e|quotes] fs1]; [|done].
  by destruct e.
Qed.

End PDFFacts.

(** C8.  When an extraction tool is found, the PDF parser creates the
    temporary file, and however the call ends -- with the quotes, with a
    RuntimeError because the tool failed, or with a ValueError because
    something later failed -- no file is left under the name of the
    temporary file, whatever the tool did to the file system. *)
Theorem pdf_temporary_file_removed (E : PDFIngestor.env) (path : str)
  (fs : PDFIngestor.fsys) :
  PDFIngestor.which E (lit "pdftotext") = true \/
  PDFIngestor.which E (lit "mutool") = true ->
  (PDFIngestor.parse E path fs).2 !! PDFIngestor.mktemp E fs = None /\
  pdf_outcome (PDFIngestor.parse E path fs).1.
Proof.
  intros Htool. unfold PDFIngestor.parse.
  assert (Hsel : exists tool,
    (if PDFIngestor.which E (lit "pdftotext") then PDFIngestor.ret (lit "pdftotext")
     else if PDFIngestor.which E (lit "mutool") then PDFIngestor.ret (lit "mutool")
     else PDFIngestor.raise (RuntimeError (lit
       "Neither pdftotext nor mutool found; please install Xpdf utilities or mupdf-tools")))
    = PDFIngestor.ret tool).
  { destruct (PDFIngestor.which E (lit "pdftotext")); [by eexists|].
    destruct (PDFIngestor.which E (lit "mutool")); [by eexists|].
    by destruct Htool. }
  destruct Hsel as [tool ->].
  unfold PDFIngestor.bind, PDFIngestor.ret, PDFIngestor.NamedTemporaryFile.
  rewrite try_finally_cleanup. cbn [fst snd]. split.
  - apply lookup_delete_eq.
  - apply try_except_handler.
Qed.

Lemma pdf_temporary_file_removed_witness :
  let E := PDFIngestor.mkEnv
             (fun tool => bool_decide (tool = lit "pdftotext"))
             (fun _ => lit "/tmp/tmpab12.txt")
             (fun argv fs => (inl (CalledProcessError (lit "exit status 1")), fs)) in
  (PDFIngestor.parse E (lit "quotes.pdf") ∅).2 !! lit "/tmp/tmpab12.txt" = None /\
  pdf_outcome (PDFIngestor.parse E (lit "quotes.pdf") ∅).1.
Proof.
  apply (pdf_temporary_file_removed
           (PDFIngestor.mkEnv
              (fun tool => bool_decide (tool = lit "pdftotext"))
              (fun _ => lit "/tmp/tmpab12.txt")
              (fun argv fs => (inl (CalledProcessError (lit "exit status 1")), fs)))
           (lit "quotes.pdf") ∅).
  left. reflexivity.
Defined.

(** ** The caption *)

Section CaptionFacts.
Import MemeEngine.
Local Open Scope Z_scope.
Variable font : Type.
Variable _load_font : Z -> font.
Variable textbbox : font -> str -> Z * Z * Z * Z.

(** With a first size of 10 or less the loop is not entered: the local
    variables it assigns stay unbound. *)
Lemma search_not_entered (fuel : nat) (img_height max_width : Z)
  (body author_line : str) (st : locals font) :
  font_size font st <= 10 ->
  search font _load_font textbbox fuel img_height max_width body author_line st
  = Some st.
Proof.
  intros Hsize. destruct fuel; simpl;
    by rewrite (proj2 (Z.ltb_ge 10 (font_size font st))).
Qed.

(** Once entered, the loop ends within [fuel] passes, with the local
    variables bound to what the last size tried gave: a size above 10,
    where the caption fits or which is 12 or less. *)
Lemma search_entered (fuel : nat) (img_width img_height : Z)
  (body author_line : str) (st : locals font) :
  10 < font_size font st -> (Z.to_nat (font_size font st) <= fuel)%nat ->
  exists st' size,
    search font _load_font textbbox fuel img_height (img_width - 2 * 20)
           body author_line st = Some st' /\
    10 < size <= font_size font st /\
    font_ font st' = Some (_load_font size) /\
    body_lines font st'
      = Some (wrap_text font textbbox body (_load_font size) (img_width - 2 * 20)) /\
    author_lines font st'
      = Some (wrap_text font textbbox author_line (_load_font size)
                        (img_width - 2 * 20)) /\
    (exists lh, line_height font st' = Some lh) /\
    (2 * block_height font _load_font textbbox (img_width - 2 * 20)
           body author_line size < img_height \/ size <= 12).
Proof.
  revert st. induction fuel as [|fuel IH]; intros st Hsize Hfuel; [lia|].
  cbn [search]. rewrite (proj2 (Z.ltb_lt 10 (font_size font st))) by done.
  unfold block_height in *.
  destruct (textbbox (_load_font (font_size font st)) (lit "Ay"))
    as [[[x0 y0] x1] lh] eqn:Hbox.
  match goal with |- context [if ?c then _ else _] => destruct c eqn:Hfit end.
  - apply Z.ltb_lt in Hfit. eexists _, (font_size font st). split; [done|].
    cbn. rewrite Hbox. repeat split; try done; try lia; eauto.
  - destruct (Z.le_gt_cases (font_size font st - 2) 10) as [Hlast|Hmore].
    + rewrite search_not_entered by done.
      eexists _, (font_size font st). split; [done|].
      cbn. repeat split; try done; try lia; eauto.
    + destruct (IH (mkLocals font (font_size font st - 2)
                      (Some (_load_font (font_size font st)))
                      (Some (wrap_text font textbbox body
                               (_load_font (font_size font st)) (img_width - 2 * 20)))
                      (Some (wrap_text font textbbox author_line
                               (_load_font (font_size font st)) (img_width - 2 * 20)))
                      (Some lh)))
        as (st' & size & Hs & Hrange & Hrest); cbn; [lia|lia|].
      exists st', size. split; [done|]. cbn in Hrange. split; [lia|]. done.
Qed.

(** For an image 110 pixels high or more the loop is entered and
    [make_meme] does not raise: the caption is drawn with the font of the
    last size tried, which is above 10; the floor itself is never
    tried. *)
Lemma make_meme_entered (img_width img_height : Z) (text author : str) :
  110 <= img_height ->
  exists size lh,
    10 < size <= 40 /\
    (2 * block_height font _load_font textbbox (img_width - 2 * 20)
           ([dquote] ++ text ++ [dquote]) (lit "- " ++ author) size < img_height
     \/ size <= 12) /\
    make_meme font _load_font textbbox img_width img_height text author
    = Some (inr (mkCaption font (Some (_load_font size))
                   (wrap_text font textbbox ([dquote] ++ text ++ [dquote])
                              (_load_font size) (img_width - 2 * 20)
                    ++ [[]] ++
                    wrap_text font textbbox (lit "- " ++ author)
                              (_load_font size) (img_width - 2 * 20))
                   lh
                   (Z.of_nat
                      (length
                         (wrap_text font textbbox ([dquote] ++ text ++ [dquote])
                                    (_load_font size) (img_width - 2 * 20)
                          ++ [[]] ++
                          wrap_text font textbbox (lit "- " ++ author)
                                    (_load_font size) (img_width - 2 * 20)))
                    * (lh + 4)))).
Proof.
  intros Hh. unfold make_meme.
  assert (Hq : 11 <= img_height ÷ 10).
  { rewrite Z.quot_div_nonneg by lia. apply Z.div_le_lower_bound; lia. }
  destruct (search_entered (Z.to_nat (Z.min 40 (img_height ÷ 10)))
              img_width img_height ([dquote] ++ text ++ [dquote])
              (lit "- " ++ author)
              (mkLocals font (Z.min 40 (img_height ÷ 10)) None None None None))
    as (st' & size & Hs & Hrange & Hfont & Hbl & Hal & [lh Hlh] & Hfit);
    [cbn; lia | cbn; lia |].
  cbn in Hrange. exists size, lh. split; [lia|]. split; [done|].
  rewrite Hs, Hbl, Hal, Hlh. cbn. by rewrite Hfont.
Qed.

End CaptionFacts.

(** C6 fails on the code.  For an image less than 110 pixels high (after
    the resize) the first size, [min(40, int(height / 10))], is 10 or
    less: the loop is not entered and [make_meme] raises
    UnboundLocalError at [body_lines], whatever the font and the
    caption, where the claim has it render at the floor size. *)
Theorem make_meme_low_image_raises (font : Type) (_load_font : Z -> font)
  (textbbox : font -> str -> Z * Z * Z * Z)
  (img_width img_height : Z) (text author : str) :
  (img_height < 110)%Z ->
  MemeEngine.make_meme font _load_font textbbox img_width img_height text author
  = Some (inl (UnboundLocalError (lit "body_lines"))).
Proof.
  intros Hh. unfold MemeEngine.make_meme.
  rewrite search_not_entered; [done|]. cbn [MemeEngine.font_size].
  assert (img_height ÷ 10 <= 10)%Z; [|lia].
  destruct (Z.le_gt_cases 0 img_height) as [Hpos|Hneg].
  - rewrite Z.quot_div_nonneg by lia.
    apply Z.lt_succ_r, Z.div_lt_upper_bound; lia.
  - pose proof (Z.quot_opp_l img_height 10 ltac:(lia)) as Hq.
    assert (0 <= (- img_height) ÷ 10)%Z by (apply Z.quot_pos; lia). lia.
Qed.

Lemma make_meme_low_image_raises_witness :
  MemeEngine.make_meme unit (fun _ => tt)
    (fun _ s => (0, 0, 6 * Z.of_nat (length s), 11)%Z) 100%Z 100%Z
    (lit "Stay hungry") (lit "Jobs")
  = Some (inl (UnboundLocalError (lit "body_lines"))).
Proof.
  apply (make_meme_low_image_raises unit (fun _ => tt)
           (fun _ s => (0, 0, 6 * Z.of_nat (length s), 11)%Z) 100%Z 100%Z
           (lit "Stay hungry") (lit "Jobs")).
  reflexivity.
Defined.

(** ** Words and lines *)

Section WordFacts.
Implicit Types (s w cur sep : str) (g : list str).

Lemma split_ws_from_word cur w s :
  forallb (fun c => negb (isspace c)) w = true ->
  split_ws_from cur (w ++ s) = split_ws_from (cur ++ w) s.
Proof.
  revert cur. induction w as [|c w IH]; intros cur; simpl.
  - by rewrite app_nil_r.
  - intros [Hc Hw]%andb_true_iff. apply negb_true_iff in Hc. rewrite Hc.
    rewrite IH by done. by rewrite <- app_assoc.
Qed.

Lemma split_ws_from_words cur s :
  forallb (fun c => negb (isspace c)) cur = true ->
  Forall (fun w => is_word w = true) (split_ws_from cur s).
Proof.
  revert cur. induction s as [|c s IH]; intros cur Hcur; simpl.
  - destruct (truthy cur) eqn:Ht; [|done].
    constructor; [|done]. unfold is_word. by rewrite Ht, Hcur.
  - destruct (isspace c) eqn:Hc.
    + destruct (truthy cur) eqn:Ht; [|by apply IH].
      constructor; [|by apply IH]. unfold is_word. by rewrite Ht, Hcur.
    + apply IH. rewrite forallb_app, Hcur. simpl. by rewrite Hc.
Qed.

(** [split] gives words. *)
Lemma split_ws_words s : Forall (fun w => is_word w = true) (split_ws s).
Proof. by apply split_ws_from_words. Qed.

Lemma join_cons sep w w' g :
  join sep (w :: w' :: g) = w ++ sep ++ join sep (w' :: g).
Proof. done. Qed.

Lemma join_snoc sep g w :
  g <> [] -> join sep (g ++ [w]) = join sep g ++ sep ++ w.
Proof.
  induction g as [|x g IH]; [done|]. intros _.
  destruct g as [|y g]; [done|].
  change ((x :: y :: g) ++ [w]) with (x :: y :: (g ++ [w])).
  rewrite !join_cons. change (y :: g ++ [w]) with ((y :: g) ++ [w]).
  rewrite IH by done. by rewrite <- !app_assoc.
Qed.

(** Words joined by spaces are split into the same words. *)
Lemma split_ws_join g :
  Forall (fun w => is_word w = true) g -> split_ws (join [space] g) = g.
Proof.
  unfold split_ws. induction 1 as [|w g Hw Hg IH]; [done|].
  unfold is_word in Hw. apply andb_true_iff in Hw as [Ht Hns].
  destruct g as [|w' g].
  - simpl. rewrite <- (app_nil_r w) at 1.
    rewrite split_ws_from_word by done. simpl. by rewrite Ht.
  - rewrite join_cons, split_ws_from_word by done.
    cbn [app split_ws_from]. change (isspace space) with true.
    cbn match. rewrite Ht. by rewrite IH.
Qed.

End WordFacts.

Section WrapFacts.
Import MemeEngine.
Local Open Scope Z_scope.
Variable font : Type.
Variable textbbox : font -> str -> Z * Z * Z * Z.
Variable f : font.
Variable max_w : Z.

Local Abbreviation width := (text_width font textbbox f).
Local Abbreviation fitting := (fits font textbbox f max_w).
Local Abbreviation filled := (greedy font textbbox f max_w).
Local Abbreviation line_of := (join [space]).

Lemma greedy_snoc (G : list (list str)) (c n : list str) :
  filled (G ++ [c]) ->
  (forall w, head n = Some w -> max_w < width (line_of (c ++ [w]))) ->
  filled (G ++ [c; n]).
Proof.
  intros HG Hn. induction G as [|g G IH]; [by split|].
  destruct G as [|g' G]; simpl in HG |- *.
  - destruct HG as [H1 _]. by repeat split.
  - destruct HG as [H1 H2]. split; [done|]. by apply IH.
Qed.

Lemma greedy_last (G : list (list str)) (c c' : list str) :
  filled (G ++ [c]) -> head c' = head c -> filled (G ++ [c']).
Proof.
  intros HG Hh. induction G as [|g G IH]; [done|].
  destruct G as [|g' G]; simpl in HG |- *.
  - destruct HG as [H1 _]. split; [|done]. intros w. rewrite Hh. apply H1.
  - destruct HG as [H1 H2]. split; [done|]. by apply IH.
Qed.

(** One pass of the loop of [wrap_text], the lines given by their
    words. *)
Lemma wrap_step_groups (gs : list (list str)) (current : list str) (w : str) :
  Forall (fun g => g <> []) gs -> Forall fitting (gs ++ [current]) ->
  filled (gs ++ [current]) -> (current = [] -> gs = []) ->
  exists gs' current',
    wrap_step font textbbox f max_w (map line_of gs, current) w
      = (map line_of gs', current') /\
    current' <> [] /\
    Forall (fun g => g <> []) gs' /\ Forall fitting (gs' ++ [current']) /\
    filled (gs' ++ [current']) /\
    concat gs' ++ current' = concat gs ++ current ++ [w].
Proof.
  intros Hne Hfit Hfill Hfirst. unfold wrap_step.
  destruct current as [|c0 cur].
  - rewrite (Hfirst eq_refl). exists [], [w].
    split; [by destruct (width w <=? max_w)|].
    repeat split; try done.
    constructor; [|done]. intros Hlen. simpl in Hlen. lia.
  - set (current := c0 :: cur) in *.
    apply Forall_app in Hfit as [Hfit Hcur].
    destruct (width (line_of (current ++ [w])) <=? max_w) eqn:Hw.
    + apply Z.leb_le in Hw. exists gs, (current ++ [w]).
      repeat split; try done.
      * apply Forall_app. split; [done|]. constructor; [|done]. by intros _.
      * by apply (greedy_last gs current).
    + apply Z.leb_gt in Hw. exists (gs ++ [current]), [w].
      rewrite map_app. repeat split; try done.
      * apply Forall_app. by split; [|constructor].
      * apply Forall_app. split.
        -- by apply Forall_app.
        -- constructor; [|done]. intros Hlen. simpl in Hlen. lia.
      * rewrite <- app_assoc. apply greedy_snoc; [done|].
        by intros w' [= <-].
      * rewrite concat_app. simpl. by rewrite app_nil_r, <- !app_assoc.
Qed.

(** The whole loop. *)
Lemma wrap_fold_groups (ws : list str) (gs : list (list str)) (current : list str) :
  Forall (fun g => g <> []) gs -> Forall fitting (gs ++ [current]) ->
  filled (gs ++ [current]) -> (current = [] -> gs = []) ->
  exists gs' current',
    fold_left (wrap_step font textbbox f max_w) ws (map line_of gs, current)
      = (map line_of gs', current') /\
    (current' = [] -> gs' = []) /\
    Forall (fun g => g <> []) gs' /\ Forall fitting (gs' ++ [current']) /\
    filled (gs' ++ [current']) /\
    concat gs' ++ current' = concat gs ++ current ++ ws.
Proof.
  revert gs current. induction ws as [|w ws IH]; intros gs current Hne Hfit Hfill Hfirst.
  - exists gs, current. by rewrite app_nil_r.
  - destruct (wrap_step_groups gs current w Hne Hfit Hfill Hfirst)
      as (gs1 & cur1 & Hstep & Hcur1 & Hne1 & Hfit1 & Hfill1 & Hcat1).
    destruct (IH gs1 cur1 Hne1 Hfit1 Hfill1 ltac:(done))
      as (gs2 & cur2 & Hfold & Hfirst2 & Hne2 & Hfit2 & Hfill2 & Hcat2).
    exists gs2, cur2. cbn [fold_left]. rewrite Hstep, Hfold.
    repeat split; try done.
    rewrite Hcat2, app_assoc, Hcat1. by rewrite <- !app_assoc.
Qed.

(** The lines of [wrap_text], given by their words: the words of the
    text in order, no line empty, every line fitting, the lines filled
    greedily. *)
Lemma wrap_text_groups (s : str) :
  exists G : list (list str),
    wrap_text font textbbox s f max_w = map line_of G /\
    concat G = split_ws s /\
    Forall (fun g => g <> []) G /\ Forall fitting G /\ filled G.
Proof.
  unfold wrap_text.
  destruct (wrap_fold_groups (split_ws s) [] [])
    as (gs & current & Hfold & Hfirst & Hne & Hfit & Hfill & Hcat); try done.
  { constructor; [|done]. intros Hlen. simpl in Hlen. lia. }
  change ([] : list str) with (map line_of []) at 1. rewrite Hfold.
  destruct current as [|c0 cur].
  - rewrite (Hfirst eq_refl) in *. exists []. by repeat split.
  - exists (gs ++ [c0 :: cur]). rewrite map_app. repeat split; try done.
    + rewrite concat_app. simpl. by rewrite app_nil_r.
    + apply Forall_app. by split; [|constructor].
Qed.

Lemma greedy_lookup (G : list (list str)) (i : nat) (g1 g2 : list str) (w : str) :
  filled G -> G !! i = Some g1 -> G !! S i = Some g2 -> head g2 = Some w ->
  max_w < width (line_of (g1 ++ [w])).
Proof.
  revert i. induction G as [|g G IH]; intros i HG; [done|].
  destruct G as [|g' G]; [done|]. destruct HG as [H1 H2].
  destruct i as [|i]; simpl.
  - intros [= <-] [= <-]. apply H1.
  - intros Hg1 Hg2. by apply (IH i H2).
Qed.

End WrapFacts.

(** C7.  [wrap_text] keeps every word of the text, whole, in order, each
    in one line: the words of its lines, one line after the other, are
    the words of the text, and every line is its words joined by single
    spaces.  A line of two words or more is no wider than the maximum
    width.  The first word of each line but the first did not fit at the
    end of the line before.  Where a line is at least as wide as each of
    its words, a word wider than the maximum width is a line of its
    own. *)
Theorem wrap_text_greedy (font : Type) (textbbox : font -> str -> Z * Z * Z * Z)
  (s : str) (f : font) (max_w : Z) :
  let lines := MemeEngine.wrap_text font textbbox s f max_w in
  let width := MemeEngine.text_width font textbbox f in
  flat_map split_ws lines = split_ws s /\
  (forall line, line ∈ lines ->
     split_ws line <> [] /\ line = join [space] (split_ws line)) /\
  (forall line, line ∈ lines ->
     2 <= length (split_ws line) -> (width line <= max_w)%Z) /\
  (forall i l1 l2 w,
     lines !! i = Some l1 -> lines !! S i = Some l2 ->
     head (split_ws l2) = Some w ->
     (max_w < width (l1 ++ [space] ++ w))%Z) /\
  ((forall (g : list str) (w : str),
      w ∈ g -> (width w <= width (join [space] g))%Z) ->
   forall line w, line ∈ lines -> w ∈ split_ws line ->
     (max_w < width w)%Z -> line = w).
Proof.
  intros lines width.
  destruct (wrap_text_groups font textbbox f max_w s)
    as (G & Hlines & Hcat & Hne & Hfit & Hfill).
  fold lines in Hlines.
  assert (Hwords : Forall (fun g => Forall (fun w => is_word w = true) g) G).
  { pose proof (split_ws_words s) as Hs. rewrite <- Hcat in Hs.
    clear -Hs. induction G as [|g G IH]; [done|].
    simpl in Hs. apply Forall_app in Hs as [? ?]. constructor; auto. }
  assert (Hsplit : forall g, g ∈ G -> split_ws (join [space] g) = g).
  { intros g Hg. apply split_ws_join.
    by apply (proj1 (Forall_forall _ _) Hwords). }
  assert (Hline : forall line, line ∈ lines ->
            exists g, g ∈ G /\ line = join [space] g /\ split_ws line = g).
  { intros line. rewrite Hlines. intros (g & -> & Hg)%list_elem_of_fmap.
    exists g. by rewrite Hsplit. }
  split; [|split; [|split; [|split]]].
  - rewrite Hlines, <- Hcat. clear -Hsplit.
    induction G as [|g G IH]; [done|]. simpl.
    rewrite Hsplit by by left. f_equal. apply IH.
    intros g' Hg'. apply Hsplit. by right.
  - intros line (g & Hg & -> & Hs)%Hline. rewrite Hs. split; [|done].
    by apply (proj1 (Forall_forall _ _) Hne).
  - intros line (g & Hg & -> & Hs)%Hline. rewrite Hs. intros Hlen.
    apply (proj1 (Forall_forall _ _) Hfit g Hg). lia.
  - intros i l1 l2 w. rewrite Hlines, !list_lookup_fmap.
    destruct (G !! i) as [g1|] eqn:Hg1; [|done].
    destruct (G !! S i) as [g2|] eqn:Hg2; [|done].
    intros [= <-] [= <-]. rewrite Hsplit by by eapply list_elem_of_lookup_2.
    intros Hw. rewrite <- join_snoc.
    + by apply (greedy_lookup font textbbox f max_w G i g1 g2 w).
    + apply (proj1 (Forall_forall _ _) Hne). by eapply list_elem_of_lookup_2.
  - intros Hmono line w (g & Hg & -> & Hs)%Hline. rewrite Hs. intros Hw Hwide.
    destruct g as [|w1 [|w2 g]].
    + by apply elem_of_nil in Hw.
    + by apply list_elem_of_singleton in Hw as ->.
    + exfalso. specialize (Hmono _ _ Hw).
      pose proof (proj1 (Forall_forall _ _) Hfit _ Hg) as Hg'.
      unfold MemeEngine.fits in Hg'. fold width in Hg'.
      cbn [length] in Hg'. specialize (Hg' ltac:(lia)). lia.
Qed.

Lemma length_join_elem (sep : str) (g : list str) (w : str) :
  w ∈ g -> length w <= length (join sep g).
Proof.
  induction g as [|x g IH]; [by intros ?%elem_of_nil|].
  destruct g as [|y g].
  - by intros ->%list_elem_of_singleton.
  - rewrite join_cons, !length_app. intros [->|Hw]%elem_of_cons; [lia|].
    specialize (IH Hw). lia.
Qed.

Lemma wrap_text_greedy_witness :
  let bbox := fun (_ : unit) (s : str) => (0, 0, 6 * Z.of_nat (length s), 11)%Z in
  let lines := MemeEngine.wrap_text unit bbox (lit "so incomprehensibilities it is") tt 60 in
  lines = [lit "so"; lit "incomprehensibilities"; lit "it is"] /\
  forall line w, line ∈ lines -> w ∈ split_ws line ->
    (60 < MemeEngine.text_width unit bbox tt w)%Z -> line = w.
Proof.
  split; [reflexivity|].
  apply (wrap_text_greedy unit
           (fun (_ : unit) (s : str) => (0, 0, 6 * Z.of_nat (length s), 11)%Z)
           (lit "so incomprehensibilities it is") tt 60).
  intros g w Hw. unfold MemeEngine.text_width.
  apply (length_join_elem [space]) in Hw. lia.
Defined.

(** ** The invariant of the records *)

Section InvariantFacts.

Lemma for_each_preserves {A S} (P : S -> Prop) (body : S -> A -> result S)
  (xs : list A) (s s' : S) :
  (forall s x s', P s -> body s x = inr s' -> P s') ->
  P s -> for_each body xs s = inr s' -> P s'.
Proof.
  intros Hbody. revert s. induction xs as [|x xs IH]; intros s Hs; simpl.
  - by intros [= <-].
  - destruct (body s x) as [e|s1] eqn:Hx; [done|]. simpl.
    apply IH. by eapply Hbody.
Qed.

Lemma stripped_invariant (b a : str) :
  truthy (strip b) = true -> truthy (strip a) = true ->
  invariant (mkQuote (strip b) (strip a)).
Proof.
  intros Hb%truthy_true Ha%truthy_true. unfold invariant, strip. simpl.
  by rewrite !strip_by_idemp.
Qed.

(** The loop body of the text, document and PDF parsers appends only
    records that satisfy the invariant. *)
Lemma ingest_line_invariant (quotes quotes' : list QuoteModel) (line : str) :
  Forall invariant quotes ->
  TextIngestor.ingest_line quotes line = inr quotes' ->
  Forall invariant quotes'.
Proof.
  intros Hq. unfold TextIngestor.ingest_line.
  destruct (negb (truthy (strip line))); [by intros [= <-]|].
  destruct (negb (contains (lit "-") (strip line))); [by intros [= <-]|].
  destruct (if contains (lit " - ") (strip line) then _ else _)
    as [e|[l r]]; [done|].
  cbn [rbind fst snd].
  destruct (truthy (strip (strip_chars [space; dquote] l))) eqn:Hb;
    [|by intros [= <-]].
  destruct (truthy (strip r)) eqn:Ha; [|by intros [= <-]].
  intros [= <-]. apply Forall_app. split; [done|].
  constructor; [|done]. by apply stripped_invariant.
Qed.

Lemma text_parse_invariant (open_ : str -> result str) (path : str)
  (quotes : list QuoteModel) :
  TextIngestor.parse open_ path = inr quotes -> Forall invariant quotes.
Proof.
  unfold TextIngestor.parse. destruct (open_ path) as [e|text]; [done|].
  cbn [rbind].
  destruct (for_each _ _ _) as [e|quotes'] eqn:Hloop; [done|].
  intros [= <-]. revert Hloop.
  apply (for_each_preserves (Forall invariant)); [|done].
  intros s x s'. apply ingest_line_invariant.
Qed.

Lemma docx_parse_invariant (docx_installed : bool)
  (Document : str -> result (list str)) (path : str) (quotes : list QuoteModel) :
  DocxIngestor.parse docx_installed Document path = inr quotes ->
  Forall invariant quotes.
Proof.
  unfold DocxIngestor.parse. destruct docx_installed; [|done]. cbn [negb].
  destruct (Document path) as [e|paragraphs]; [done|]. cbn [rbind].
  destruct (for_each _ _ _) as [e|quotes'] eqn:Hloop; [done|].
  intros [= <-]. revert Hloop.
  apply (for_each_preserves (Forall invariant)); [|done].
  intros s x s'. apply ingest_line_invariant.
Qed.

Lemma pdf_parse_invariant (E : PDFIngestor.env) (path : str)
  (fs : PDFIngestor.fsys) (quotes : list QuoteModel) :
  (PDFIngestor.parse E path fs).1 = inr quotes -> Forall invariant quotes.
Proof.
  unfold PDFIngestor.parse, PDFIngestor.bind at 1.
  destruct (if PDFIngestor.which E (lit "pdftotext") then _ else _)
    as [[e|tool] fs0] eqn:Htool; [done|].
  unfold PDFIngestor.bind at 1, PDFIngestor.NamedTemporaryFile.
  rewrite try_finally_cleanup. cbn [fst].
  unfold PDFIngestor.try_except.
  destruct (PDFIngestor.extract E tool path _ _) as [[e|quotes'] fs1] eqn:Hx.
  { by destruct e. }
  cbn [fst]. intros [= <-]. revert Hx.
  unfold PDFIngestor.extract, PDFIngestor.bind at 1.
  destruct (if bool_decide (tool = lit "pdftotext") then _ else _)
    as [[e|[]] fs2]; [done|].
  unfold PDFIngestor.bind, PDFIngestor.read, PDFIngestor.lift.
  destruct (fs2 !! _) as [[text|]|]; [|done..].
  intros [= Hloop _]. revert Hloop.
  apply (for_each_preserves (Forall invariant)); [|done].
  intros s x s'. apply ingest_line_invariant.
Qed.

Lemma keep_invariant (quotes : list QuoteModel) (b a : str) :
  Forall invariant quotes ->
  Forall invariant (PandasCSVIngestor.keep quotes (strip b) (strip a)).
Proof.
  intros Hq. unfold PandasCSVIngestor.keep.
  destruct (truthy (strip b)) eqn:Hb; [|done].
  destruct (truthy (strip a)) eqn:Ha; [|done]. cbn [andb].
  destruct (negb _ && negb _); [|done].
  apply Forall_app. split; [done|]. constructor; [|done].
  by apply stripped_invariant.
Qed.

Lemma pandas_parse_invariant
  (read_csv : str -> result PandasCSVIngestor.DataFrame) (path : str)
  (quotes : list QuoteModel) :
  PandasCSVIngestor.parse read_csv path = inr quotes -> Forall invariant quotes.
Proof.
  unfold PandasCSVIngestor.parse.
  destruct (read_csv path) as [e|df]; [done|]. cbn [rbind].
  destruct (PandasCSVIngestor.parse_frame df) as [e|quotes'] eqn:Hf; [done|].
  intros [= <-]. revert Hf. unfold PandasCSVIngestor.parse_frame.
  destruct (PandasCSVIngestor._find_quote_columns _) as [e|[bc ac]]; [done|].
  cbn [rbind].
  destruct (_ && _).
  - apply (for_each_preserves (Forall invariant)); [|done].
    intros s row s' Hs.
    destruct (PandasCSVIngestor.row_get _ row (default [] bc)) as [e|b]; [done|].
    destruct (PandasCSVIngestor.row_get _ row (default [] ac)) as [e|a]; [done|].
    cbn [rbind]. intros [= <-]. by apply keep_invariant.
  - destruct (2 <=? _); [|by intros [= <-]].
    apply (for_each_preserves (Forall invariant)); [|done].
    intros s row s' Hs.
    destruct (PandasCSVIngestor.row_iloc row 0) as [e|b]; [done|].
    destruct (PandasCSVIngestor.row_iloc row 1) as [e|a]; [done|].
    cbn [rbind]. intros [= <-]. by apply keep_invariant.
Qed.

End InvariantFacts.

(** ** The well-formed pairs are the pairs read back *)

Section ReadBack.
Implicit Types (s t l r : str) (p : ascii -> bool) (q : QuoteModel).

Lemma strip_by_length p s : length (strip_by p s) <= length s.
Proof.
  destruct (strip_by_trimmed p s) as (l & r & Hs & _).
  apply (f_equal length) in Hs. rewrite !length_app in Hs. lia.
Qed.

Lemma strip_by_same_length p s :
  length (strip_by p s) = length s -> strip_by p s = s.
Proof.
  destruct (strip_by_trimmed p s) as (l & r & Hs & _). intros Hlen.
  pose proof (f_equal length Hs) as Hl. rewrite !length_app in Hl.
  destruct l; [|simpl in Hl; lia]. destruct r; [|simpl in Hl; lia].
  rewrite Hs at 2. simpl. by rewrite app_nil_r.
Qed.

Lemma strip_by_fixed_bare_inv p s :
  strip_by p s = s -> s <> [] -> bare p s = true.
Proof.
  intros Hs Hne. destruct (strip_by_trimmed p s) as (_ & _ & _ & _ & _ & Hh & Hl).
  rewrite Hs in Hh, Hl. unfold bare.
  destruct (head s) as [c|] eqn:Hc; [|by apply head_None in Hc].
  destruct (last s) as [c'|] eqn:Hc'; [|by apply last_None in Hc'].
  by rewrite (Hh c), (Hl c').
Qed.

Lemma strip_by_padded p l m r :
  forallb p l = true -> forallb p r = true ->
  strip_by p (l ++ m ++ r) = strip_by p m.
Proof.
  intros Hl Hr. symmetry. apply trimmed_of_unique.
  destruct (strip_by_trimmed p m) as (l' & r' & Hm & Hl' & Hr' & Hh & Hlast).
  exists (l ++ l'), (r' ++ r). rewrite !forallb_app, Hl, Hr, Hl', Hr'.
  repeat split; try done. rewrite Hm at 1. by rewrite <- !app_assoc.
Qed.

Lemma bare_both (p1 p2 : ascii -> bool) s :
  bare p1 s = true -> bare p2 s = true ->
  bare (fun c => p1 c || p2 c) s = true.
Proof.
  unfold bare. destruct (head s); [|done]. destruct (last s); [|done].
  rewrite !negb_orb, !andb_true_iff. tauto.
Qed.

(** What a line gives has fields that begin and end with a character
    other than whitespace. *)
Lemma ingest_line_bare (line : str) q :
  TextIngestor.ingest_line [] line = inr [q] ->
  bare isspace (body q) = true /\ bare isspace (author q) = true.
Proof.
  unfold TextIngestor.ingest_line.
  destruct (negb (truthy (strip line))); [done|].
  destruct (negb (contains (lit "-") (strip line))); [done|].
  destruct (if contains (lit " - ") (strip line) then _ else _)
    as [e|[l r]]; [done|].
  cbn [rbind fst snd].
  destruct (truthy (strip (strip_chars [space; dquote] l))) eqn:Hb; [|done].
  destruct (truthy (strip r)) eqn:Ha; [|done].
  intros [= <-]. cbn [body author andb]. apply truthy_true in Hb, Ha.
  split; (apply strip_by_fixed_bare_inv; [apply strip_by_idemp | done]).
Qed.

(** A pair on one line whose display form is read back as itself is
    well formed: [well_formed] asks nothing more than the round trip
    needs. *)
Lemma read_back_well_formed (path : str) q :
  one_line (body q) = true -> one_line (author q) = true ->
  TextIngestor.parse (fun _ => inr (__str__ q)) path = inr [q] ->
  well_formed q = true.
Proof.
  intros Hb1 Ha1. unfold TextIngestor.parse. cbn [rbind].
  destruct (display_one_line q Hb1 Ha1) as [Hlf Hcr].
  rewrite <- (app_nil_r (__str__ q)) at 1.
  rewrite universal_newlines_app by done. cbn [universal_newlines].
  rewrite app_nil_r, iter_lines_last by done. cbn [for_each rbind].
  destruct (TextIngestor.ingest_line [] (__str__ q)) as [e|out] eqn:Hout; [done|].
  intros [= ->].
  destruct (ingest_line_bare _ _ Hout) as [Hbs Has].
  destruct (bare_spec _ _ Has) as (Hane & Hah & Hal).
  destruct (bare_spec _ _ Hbs) as (Hbne & _ & _).
  revert Hout. unfold TextIngestor.ingest_line.
  assert (Hline : strip (__str__ q) = __str__ q).
  { unfold strip. apply strip_by_fixed_bare.
    unfold bare, __str__. simpl.
    rewrite last_cons, last_app, last_cons.
    change (lit " - ") with [space; hyphen; space]. simpl.
    rewrite !last_cons.
    destruct (last (author q)) as [c|] eqn:Hc.
    - by rewrite (Hal c).
    - by apply last_None in Hc. }
  rewrite Hline.
  assert (Hform : __str__ q = (dquote :: body q ++ [dquote]) ++ lit " - " ++ author q).
  { unfold __str__. simpl. by rewrite <- !app_assoc. }
  assert (Hocc : occurs (lit " - ") (__str__ q)) by (rewrite Hform; by eexists _, _).
  assert (truthy (__str__ q) = true) as -> by done.
  assert (contains (lit "-") (__str__ q) = true) as ->.
  { apply (contains_char hyphen). unfold __str__.
    change (lit " - ") with [space; hyphen; space]. set_solver. }
  assert (contains (lit " - ") (__str__ q) = true) as -> by by apply contains_occurs.
  cbn [negb]. unfold rsplit1.
  destruct (rfind (__str__ q) (lit " - ")) as [i|] eqn:Hi.
  2:{ apply rfind_None in Hi. done. }
  apply rfind_Some in Hi as (Hle & Hcut & Hmax).
  change (length (lit " - ")) with 3 in *.
  cbn [unpack2 rbind fst snd].
  destruct (truthy (strip (strip_chars [space; dquote] (take i (__str__ q)))))
    eqn:Htb; [|done].
  destruct (truthy (strip (drop (i + 3) (__str__ q)))) eqn:Hta; [|done].
  cbn [andb app]. intros [= Hq].
  pose proof (f_equal body Hq) as Hbody. pose proof (f_equal author Hq) as Hauthor.
  cbn [body author] in Hbody, Hauthor.
  (* the cut is at the separator the display form writes *)
  assert (Hn : i = length (dquote :: body q ++ [dquote])).
  { pose proof (Hmax _ _ Hform) as Hge.
    pose proof (strip_by_length isspace (drop (i + 3) (__str__ q))) as Hl.
    fold (strip (drop (i + 3) (__str__ q))) in Hl.
    rewrite Hauthor, length_drop in Hl.
    rewrite Hform in Hle, Hl. rewrite !length_app in Hle, Hl.
    change (length (lit " - ")) with 3 in *. lia. }
  assert (Hleft : take i (__str__ q) = dquote :: body q ++ [dquote]).
  { rewrite Hn, Hform. apply take_app_length. }
  assert (Hsep : contains (lit " - ") (space :: author q) = false).
  { apply not_true_is_false. intros (x & y & Hxy)%contains_occurs.
    assert (H : __str__ q
                = ((dquote :: body q ++ [dquote]) ++ [space; hyphen] ++ x)
                  ++ lit " - " ++ y).
    { rewrite Hform. change (lit " - ") with ([space; hyphen] ++ [space]) at 1.
      rewrite <- !app_assoc. do 2 f_equal.
      change ([space] ++ author q) with (space :: author q). by rewrite Hxy. }
    apply Hmax in H. rewrite !length_app in H. simpl in H.
    rewrite Hn in H. simpl in H. rewrite length_app in H. simpl in H. lia. }
  rewrite Hleft in Hbody.
  assert (Hquote : strip_chars [space; dquote] (body q) = body q).
  { change (dquote :: body q ++ [dquote]) with ([dquote] ++ body q ++ [dquote]) in Hbody.
    unfold strip_chars in Hbody |- *. rewrite strip_by_padded in Hbody by done.
    apply strip_by_same_length.
    pose proof (strip_by_length (in_chars [space; dquote]) (body q)) as H1.
    pose proof (strip_by_length isspace
                  (strip_by (in_chars [space; dquote]) (body q))) as H2.
    fold (strip (strip_by (in_chars [space; dquote]) (body q))) in H2.
    rewrite Hbody in H2. lia. }
  apply strip_by_fixed_bare_inv in Hquote; [|done].
  unfold well_formed.
  by rewrite Hb1, Ha1, Has, Hsep,
    (bare_both isspace (in_chars [space; dquote]) (body q) Hbs Hquote).
Qed.

(** X5.  The pairs on one line that are read back from their display
    form are the well-formed pairs: a file that holds the display form of
    a pair whose body and author are on one line is parsed to that one
    pair exactly when the pair is well formed. *)
Lemma read_back_iff_well_formed (path : str) q :
  one_line (body q) = true -> one_line (author q) = true ->
  TextIngestor.parse (fun _ => inr (__str__ q)) path = inr [q] <->
  well_formed q = true.
Proof.
  intros Hb1 Ha1. split; [by apply read_back_well_formed|].
  intros Hq. unfold TextIngestor.parse. cbn [rbind].
  change (__str__ q) with (display_file [q] false).
  by rewrite (ingest_display_file [q] [] false) by (by constructor).
Qed.

End ReadBack.

(** * Further properties *)

(** ** The text parser: outcomes, fields, files put together *)

Section TextMore.
Implicit Types (s t l line : str) (q : QuoteModel) (quotes : list QuoteModel).

Lemma rbind_inr {A} (m : result A) : rbind m inr = m.
Proof. by destruct m. Qed.

Lemma for_each_app {A S} (body : S -> A -> result S) (xs ys : list A) (s : S) :
  for_each body (xs ++ ys) s = rbind (for_each body xs s) (for_each body ys).
Proof.
  revert s. induction xs as [|x xs IH]; intros s; [done|]. simpl.
  destruct (body s x) as [e|s']; [done|]. apply IH.
Qed.

(** The loop body looks at the line trimmed, and at nothing else. *)
Lemma ingest_line_padded quotes (pad pad' line : str) :
  forallb isspace pad = true -> forallb isspace pad' = true ->
  TextIngestor.ingest_line quotes (pad ++ line ++ pad')
  = TextIngestor.ingest_line quotes line.
Proof.
  intros Hp Hp'. unfold TextIngestor.ingest_line, strip.
  by rewrite strip_by_padded.
Qed.

(** What the loop body appends does not depend on what was read before. *)
Lemma ingest_line_from quotes line :
  TextIngestor.ingest_line quotes line
  = rbind (TextIngestor.ingest_line [] line)
          (fun found => inr (quotes ++ found)).
Proof.
  unfold TextIngestor.ingest_line.
  destruct (negb (truthy (strip line)));
    [cbn [rbind]; by rewrite app_nil_r|].
  destruct (negb (contains (lit "-") (strip line)));
    [cbn [rbind]; by rewrite app_nil_r|].
  destruct (if contains (lit " - ") (strip line) then _ else _) as [e|parts];
    [done|].
  cbn [rbind]. destruct (_ && _); cbn [rbind]; [done|]. by rewrite app_nil_r.
Qed.

Lemma for_each_ingest_from (lines : list str) quotes :
  for_each TextIngestor.ingest_line lines quotes
  = rbind (for_each TextIngestor.ingest_line lines [])
          (fun found => inr (quotes ++ found)).
Proof.
  revert quotes. induction lines as [|l lines IH]; intros quotes.
  - simpl. by rewrite app_nil_r.
  - cbn [for_each]. rewrite (ingest_line_from quotes l).
    destruct (TextIngestor.ingest_line [] l) as [e|r0]; [done|].
    cbn [rbind]. rewrite (IH (quotes ++ r0)), (IH r0).
    destruct (for_each TextIngestor.ingest_line lines []) as [e|r1]; [done|].
    cbn [rbind]. by rewrite app_assoc.
Qed.

Lemma str_length_ind (P : str -> Prop) :
  (forall s, (forall t, length t < length s -> P t) -> P s) -> forall s, P s.
Proof.
  intros H s. remember (length s) as n eqn:Hn. revert s Hn.
  induction (lt_wf n) as [n _ IH]. intros s ->. apply H.
  intros t Ht. by apply (IH (length t)).
Qed.

(** Induction along the way [universal_newlines] reads a text. *)
Lemma universal_newlines_ind (P : str -> str -> Prop) :
  P [] [] ->
  (forall t, P t (universal_newlines t) ->
     P (CR :: LF :: t) (LF :: universal_newlines t)) ->
  (forall t, head t <> Some LF -> P t (universal_newlines t) ->
     P (CR :: t) (LF :: universal_newlines t)) ->
  (forall c t, c <> CR -> P t (universal_newlines t) ->
     P (c :: t) (c :: universal_newlines t)) ->
  forall s, P s (universal_newlines s).
Proof.
  intros Hnil Hcrlf Hcr Hother.
  apply (str_length_ind (fun s => P s (universal_newlines s))).
  intros s IH'.
  destruct s as [|c t]; [done|]. cbn [universal_newlines].
  case_bool_decide as Hc.
  - subst c. destruct t as [|c' t'].
    + by apply (Hcr []).
    + case_bool_decide as Hc'.
      * subst c'. apply Hcrlf, IH'. simpl. lia.
      * apply Hcr; [by intros [= ?]|]. apply IH'. simpl. lia.
  - apply Hother; [done|]. apply IH'. simpl. lia.
Qed.

(** No CR is left, and nothing else is added than LF. *)
Lemma universal_newlines_chars s c :
  c ∈ universal_newlines s -> c <> CR /\ (c = LF \/ c ∈ s).
Proof.
  revert c. apply (universal_newlines_ind
    (fun s u => forall c, c ∈ u -> c <> CR /\ (c = LF \/ c ∈ s))).
  - by intros c ?%elem_of_nil.
  - intros t IH c [->|Hc]%elem_of_cons; [split; [done|by left]|].
    destruct (IH c Hc) as [? [?|?]]; split; try done; [by left|].
    right. rewrite !elem_of_cons. auto.
  - intros t _ IH c [->|Hc]%elem_of_cons; [split; [done|by left]|].
    destruct (IH c Hc) as [? [?|?]]; split; try done; [by left|].
    right. rewrite !elem_of_cons. auto.
  - intros c' t Hc' IH c [->|Hc]%elem_of_cons.
    + split; [done|]. right. by left.
    + destruct (IH c Hc) as [? [?|?]]; split; try done; [by left|].
      right. rewrite !elem_of_cons. auto.
Qed.

Lemma universal_newlines_cr c t :
  c <> LF ->
  universal_newlines (CR :: c :: t) = LF :: universal_newlines (c :: t).
Proof.
  intros Hc. change (universal_newlines (CR :: c :: t))
    with (if bool_decide (c = LF) then LF :: universal_newlines t
          else LF :: universal_newlines (c :: t)).
  by rewrite bool_decide_eq_false_2.
Qed.

(** A text followed by a newline and a second text: the first part is
    handed over the same, up to a newline at its end. *)
Lemma universal_newlines_joined (a b : str) :
  exists w,
    universal_newlines (a ++ LF :: b) = w ++ LF :: universal_newlines b /\
    (universal_newlines a = w \/ universal_newlines a = w ++ [LF]).
Proof.
  apply (universal_newlines_ind (fun a u => exists w,
    universal_newlines (a ++ LF :: b) = w ++ LF :: universal_newlines b /\
    (u = w \/ u = w ++ [LF]))).
  - exists []. split; [done|by left].
  - intros t (w & Hw & Hu). exists (LF :: w). split.
    + change (universal_newlines ((CR :: LF :: t) ++ LF :: b))
        with (LF :: universal_newlines (t ++ LF :: b)).
      by rewrite Hw.
    + destruct Hu as [->| ->]; [by left|by right].
  - intros t Ht (w & Hw & Hu). destruct t as [|c' t'].
    + exists []. split; [done|by right].
    + exists (LF :: w). split.
      * change ((CR :: c' :: t') ++ LF :: b)
          with (CR :: c' :: (t' ++ LF :: b)).
        rewrite universal_newlines_cr by (intros ->; by apply Ht).
        cbn [app] in Hw. by rewrite Hw.
      * destruct Hu as [->| ->]; [by left|by right].
  - intros c t Hc (w & Hw & Hu). exists (c :: w). split.
    + cbn [app universal_newlines]. rewrite bool_decide_eq_false_2 by done.
      by rewrite Hw.
    + destruct Hu as [->| ->]; [by left|by right].
Qed.

(** The loop over the lines of a text is the loop over its fields
    between newlines. *)
Lemma for_each_lines_fields s quotes :
  for_each TextIngestor.ingest_line (iter_lines s) quotes
  = for_each TextIngestor.ingest_line (split_char LF s) quotes.
Proof.
  revert quotes. induction s as [s IH] using str_length_ind.
  intros quotes. destruct (decide (LF ∈ s)) as [Hin|Hno].
  - apply list_elem_of_split_l in Hin as (l & rest & -> & Hl).
    rewrite iter_lines_line, split_char_app, split_char_none by done.
    cbn [for_each app].
    rewrite <- (app_nil_l (l ++ [LF])).
    rewrite (ingest_line_padded quotes [] [LF] l) by done.
    destruct (TextIngestor.ingest_line quotes l) as [e|quotes']; [done|].
    cbn [rbind]. apply IH. rewrite length_app. simpl. lia.
  - rewrite split_char_none by done. destruct s as [|c s]; [done|].
    by rewrite iter_lines_last.
Qed.

Lemma line_rule_at_most_one (raw : str) (out : list QuoteModel) :
  line_rule raw out -> length out <= 1.
Proof.
  intros [[_ ->]|(_ & _ & sep & left & right & _ & _ & b & a & _ & _ & _ & H)].
  - simpl. lia.
  - destruct H as [(_ & _ & ->)|[_ ->]]; simpl; lia.
Qed.

Lemma trimmed_of_chars (p : ascii -> bool) s t c :
  trimmed_of p s t -> c ∈ t -> c ∈ s.
Proof. intros (l & r & -> & _) Hc. rewrite !elem_of_app. auto. Qed.

Lemma trimmed_of_bare (p : ascii -> bool) s t :
  trimmed_of p s t -> t <> [] -> bare p t = true.
Proof.
  intros (l & r & _ & _ & _ & Hh & Hl) Hne. unfold bare.
  destruct (head t) as [c|] eqn:Hc; [|by apply head_None in Hc].
  destruct (last t) as [c'|] eqn:Hc'; [|by apply last_None in Hc'].
  by rewrite (Hh c), (Hl c').
Qed.

(** What [line_rule] gives has trimmed fields made of characters of the
    trimmed line, and an author without [" - "]. *)
Lemma line_rule_fields (raw : str) (out : list QuoteModel) q :
  line_rule raw out -> q ∈ out ->
  bare isspace (body q) = true /\ bare isspace (author q) = true /\
  ~ occurs (lit " - ") (author q) /\
  (forall c, c ∈ body q \/ c ∈ author q -> c ∈ strip raw).
Proof.
  intros [[_ ->]|(_ & _ & sep & left & right & Hsep & [Hcut Hlast]
                  & b & a & Hb & Hleft & Ha & H)];
    [by intros ?%elem_of_nil|].
  destruct H as [(Hbne & Hane & ->)|[_ ->]]; [|by intros ?%elem_of_nil].
  intros ->%list_elem_of_singleton. cbn [body author].
  split; [by eapply trimmed_of_bare|]. split; [by eapply trimmed_of_bare|].
  split.
  - intros (x & y & Ha').
    destruct Ha as (l & r & Hright & _).
    assert (Hline : strip raw
                    = (left ++ sep ++ l ++ x) ++ lit " - " ++ (y ++ r)).
    { rewrite Hcut, Hright, Ha'. by rewrite <- !app_assoc. }
    destruct Hsep as [[_ ->]|[Hno ->]].
    + apply Hlast in Hline. rewrite !length_app in Hline.
      change (length (lit " - ")) with 3 in Hline. lia.
    + apply Hno. by eexists _, _.
  - intros c [Hc|Hc]; rewrite Hcut.
    + eapply trimmed_of_chars in Hc; [|done].
      eapply trimmed_of_chars in Hc; [|done].
      rewrite elem_of_app. by left.
    + eapply trimmed_of_chars in Hc; [|done].
      rewrite !elem_of_app. auto.
Qed.

(** The lines of a text: a newline is the last character of a line, or
    is not in it. *)
Lemma iter_lines_shape s line :
  line ∈ iter_lines s ->
  exists l0, (LF ∉ l0) /\ (line = l0 \/ line = l0 ++ [LF]) /\
             forall c, c ∈ l0 -> c ∈ s.
Proof.
  revert line. induction s as [s IH] using str_length_ind. intros line.
  destruct (decide (LF ∈ s)) as [Hin|Hno].
  - apply list_elem_of_split_l in Hin as (l & rest & -> & Hl).
    rewrite iter_lines_line by done. intros [->|Hline]%elem_of_cons.
    + exists l. split; [done|]. split; [by right|].
      intros c Hc. rewrite elem_of_app. by left.
    + apply IH in Hline as (l0 & ? & ? & Hsub).
      * exists l0. split; [done|]. split; [done|].
        intros c Hc%Hsub. rewrite elem_of_app, elem_of_cons. auto.
      * rewrite length_app. simpl. lia.
  - destruct s as [|c s]; [by intros ?%elem_of_nil|].
    rewrite iter_lines_last by done. intros ->%list_elem_of_singleton.
    exists (c :: s). split; [done|]. split; [by left|done].
Qed.

End TextMore.

(** X1.  The text parser raises exactly when the file cannot be opened
    or read, and then a ValueError that names the file and carries the
    text of the cause; no line of a readable file makes it raise, and it
    returns at most one record for each line. *)
Theorem text_parse_outcome (open_ : str -> result str) (path : str) :
  match open_ path with
  | inl e =>
      TextIngestor.parse open_ path =
      inl (ValueError (lit "Error parsing text file " ++ path ++ lit ": " ++
                       exn_str e))
  | inr text =>
      exists quotes,
        TextIngestor.parse open_ path = inr quotes /\
        length quotes <= length (iter_lines (universal_newlines text))
  end.
Proof.
  unfold TextIngestor.parse. destruct (open_ path) as [e|text]; [done|].
  cbn [rbind].
  destruct (for_each_ingest_line (iter_lines (universal_newlines text)) [])
    as (outs & -> & Houts).
  eexists. split; [done|]. cbn [app].
  induction Houts as [|l out lines outs Hl _ IH]; [done|].
  apply line_rule_at_most_one in Hl. simpl. rewrite length_app. lia.
Qed.

(** X2.  Every record of the text parser has a body and an author that
    are not empty, neither begin nor end with whitespace, have no
    newline or carriage return in them, and the author has no [" - "]
    in it. *)
Theorem text_parse_fields (open_ : str -> result str) (path : str)
  (quotes : list QuoteModel) (q : QuoteModel) :
  TextIngestor.parse open_ path = inr quotes -> q ∈ quotes ->
  bare isspace (body q) = true /\ bare isspace (author q) = true /\
  one_line (body q) = true /\ one_line (author q) = true /\
  ~ occurs (lit " - ") (author q).
Proof.
  unfold TextIngestor.parse. destruct (open_ path) as [e|text]; [done|].
  cbn [rbind].
  destruct (for_each_ingest_line (iter_lines (universal_newlines text)) [])
    as (outs & -> & Houts).
  intros [= <-]. cbn [app]. intros Hq.
  assert (Hline : exists line out,
            line ∈ iter_lines (universal_newlines text) /\
            line_rule line out /\ q ∈ out).
  { clear -Houts Hq. induction Houts as [|l out lines outs Hl _ IH];
      [by apply elem_of_nil in Hq|].
    simpl in Hq. apply elem_of_app in Hq as [Hq|Hq].
    - exists l, out. split; [by left|done].
    - destruct (IH Hq) as (line & out' & ? & ? & ?).
      exists line, out'. split; [by right|done]. }
  destruct Hline as (line & out & Hin & Hrule & Hq').
  destruct (line_rule_fields _ _ _ Hrule Hq') as (Hb & Ha & Hsep & Hchars).
  repeat split; try done.
  all: apply iter_lines_shape in Hin as (l0 & Hlf & Hl0 & Hsub).
  all: assert (Hstrip : forall c, c ∈ strip line -> c <> LF /\ c <> CR).
  1,3: intros c Hc;
    assert (Hc0 : c ∈ l0);
    [ destruct Hl0 as [->| ->];
      [ by apply (trimmed_of_chars isspace l0 (strip l0) c
                    (strip_by_trimmed isspace l0))
      | rewrite <- (app_nil_l (l0 ++ [LF])) in Hc; unfold strip in Hc;
        rewrite strip_by_padded in Hc by done;
        by apply (trimmed_of_chars isspace l0 (strip l0) c
                    (strip_by_trimmed isspace l0)) ]
    | split; [by intros -> | apply Hsub in Hc0;
                             by apply universal_newlines_chars in Hc0 as [? _]] ].
  all: unfold one_line; apply forallb_forall; intros c Hc%list_elem_of_In.
  - destruct (Hstrip c (Hchars c (or_introl Hc))) as [H1 H2].
    by rewrite !bool_decide_eq_false_2.
  - destruct (Hstrip c (Hchars c (or_intror Hc))) as [H1 H2].
    by rewrite !bool_decide_eq_false_2.
Qed.

Lemma text_parse_fields_witness :
  let q := mkQuote (lit "Stay hungry") (lit "Jobs") in
  bare isspace (body q) = true /\ bare isspace (author q) = true /\
  one_line (body q) = true /\ one_line (author q) = true /\
  ~ occurs (lit " - ") (author q).
Proof.
  apply (text_parse_fields
           (fun _ => inr ([space; dquote] ++ lit "Stay hungry" ++ [dquote] ++
                          lit " - Jobs " ++ [CR; LF]))
           (lit "quotes.txt")
           [mkQuote (lit "Stay hungry") (lit "Jobs")]).
  - reflexivity.
  - by left.
Defined.

(** X3.  A text file made of a first file, a newline and a second file
    gives the records of the first file followed by those of the
    second. *)
Theorem text_parse_joined (open_ : str -> result str) (p1 p2 p : str)
  (a b : str) :
  open_ p1 = inr a -> open_ p2 = inr b -> open_ p = inr (a ++ LF :: b) ->
  exists qa qb,
    TextIngestor.parse open_ p1 = inr qa /\
    TextIngestor.parse open_ p2 = inr qb /\
    TextIngestor.parse open_ p = inr (qa ++ qb).
Proof.
  intros H1 H2 H. unfold TextIngestor.parse. rewrite H1, H2, H. cbn [rbind].
  rewrite !for_each_lines_fields.
  destruct (universal_newlines_joined a b) as (w & -> & Hw).
  rewrite split_char_app, for_each_app.
  assert (Hfirst : for_each TextIngestor.ingest_line
                     (split_char LF (universal_newlines a)) []
                   = for_each TextIngestor.ingest_line (split_char LF w) []).
  { destruct Hw as [->| ->]; [done|].
    rewrite split_char_app, for_each_app.
    destruct (for_each TextIngestor.ingest_line (split_char LF w) []); done. }
  rewrite Hfirst.
  destruct (for_each_ingest_line (split_char LF w) []) as (oa & -> & _).
  cbn [rbind app].
  rewrite (for_each_ingest_from _ (concat oa)).
  destruct (for_each_ingest_line (split_char LF (universal_newlines b)) [])
    as (ob & -> & _).
  cbn [rbind app]. by eexists _, _.
Qed.

Lemma text_parse_joined_witness :
  exists qa qb,
    TextIngestor.parse
      (fun p => if bool_decide (p = lit "a.txt") then inr (lit "One - A" ++ [CR])
                else if bool_decide (p = lit "b.txt") then inr (lit "Two - B")
                else inr ((lit "One - A" ++ [CR]) ++ LF :: lit "Two - B"))
      (lit "a.txt") = inr qa /\
    TextIngestor.parse
      (fun p => if bool_decide (p = lit "a.txt") then inr (lit "One - A" ++ [CR])
                else if bool_decide (p = lit "b.txt") then inr (lit "Two - B")
                else inr ((lit "One - A" ++ [CR]) ++ LF :: lit "Two - B"))
      (lit "b.txt") = inr qb /\
    TextIngestor.parse
      (fun p => if bool_decide (p = lit "a.txt") then inr (lit "One - A" ++ [CR])
                else if bool_decide (p = lit "b.txt") then inr (lit "Two - B")
                else inr ((lit "One - A" ++ [CR]) ++ LF :: lit "Two - B"))
      (lit "ab.txt") = inr (qa ++ qb).
Proof.
  apply (text_parse_joined _ (lit "a.txt") (lit "b.txt") (lit "ab.txt")
           (lit "One - A" ++ [CR]) (lit "Two - B")); reflexivity.
Defined.

(** X4.  Two well-formed pairs with the same display form are the same
    pair: the display form of a well-formed pair tells its body from its
    author. *)
Theorem display_form_injective (q1 q2 : QuoteModel) :
  well_formed q1 = true -> well_formed q2 = true ->
  __str__ q1 = __str__ q2 -> q1 = q2.
Proof.
  intros H1 H2 Hstr.
  pose proof (ingest_display [] q1 [] H1 eq_refl) as E1.
  pose proof (ingest_display [] q2 [] H2 eq_refl) as E2.
  rewrite Hstr, E2 in E1. by injection E1 as <-.
Qed.

Lemma display_form_injective_witness :
  mkQuote (lit "Stay hungry") (lit "Jobs") = mkQuote (lit "Stay hungry") (lit "Jobs").
Proof.
  apply (display_form_injective
           (mkQuote (lit "Stay hungry") (lit "Jobs"))
           (mkQuote (lit "Stay hungry") (lit "Jobs"))); reflexivity.
Defined.

Lemma read_back_iff_well_formed_witness :
  TextIngestor.parse
    (fun _ => inr (__str__ (mkQuote (lit "Stay hungry") (lit "Jobs"))))
    (lit "quotes.txt")
  = inr [mkQuote (lit "Stay hungry") (lit "Jobs")] <->
  well_formed (mkQuote (lit "Stay hungry") (lit "Jobs")) = true.
Proof.
  apply (read_back_iff_well_formed (lit "quotes.txt")
           (mkQuote (lit "Stay hungry") (lit "Jobs"))); reflexivity.
Defined.

(** ** The document parser *)

(** X6.  The document parser raises a RuntimeError when python-docx is
    missing, whatever the file; a ValueError that names the file when the
    document cannot be opened; and otherwise returns, without raising,
    the records of the paragraphs in order, each paragraph giving what
    a line of a text file gives. *)
Theorem docx_parse_outcome (docx_installed : bool)
  (Document : str -> result (list str)) (path : str) :
  if docx_installed then
    match Document path with
    | inl e =>
        DocxIngestor.parse docx_installed Document path =
        inl (ValueError (lit "Error parsing DOCX file " ++ path ++ lit ": " ++
                         exn_str e))
    | inr paragraphs =>
        exists outs,
          DocxIngestor.parse docx_installed Document path = inr (concat outs) /\
          Forall2 line_rule paragraphs outs
    end
  else
    DocxIngestor.parse docx_installed Document path =
    inl (RuntimeError (lit "python-docx is required to parse docx files")).
Proof.
  unfold DocxIngestor.parse. destruct docx_installed; [|done]. cbn [negb].
  destruct (Document path) as [e|paragraphs]; [done|]. cbn [rbind].
  destruct (for_each_ingest_line paragraphs []) as (outs & -> & Houts).
  by exists outs.
Qed.

(** X7.  Every record of the document parser has a body and an author
    that are not empty and neither begin nor end with whitespace, and an
    author without [" - "] in it. *)
Theorem docx_parse_fields (docx_installed : bool)
  (Document : str -> result (list str)) (path : str)
  (quotes : list QuoteModel) (q : QuoteModel) :
  DocxIngestor.parse docx_installed Document path = inr quotes -> q ∈ quotes ->
  bare isspace (body q) = true /\ bare isspace (author q) = true /\
  ~ occurs (lit " - ") (author q).
Proof.
  unfold DocxIngestor.parse. destruct docx_installed; [|done]. cbn [negb].
  destruct (Document path) as [e|paragraphs]; [done|]. cbn [rbind].
  destruct (for_each_ingest_line paragraphs []) as (outs & -> & Houts).
  intros [= <-]. cbn [app]. intros Hq.
  induction Houts as [|l out lines outs Hl _ IH]; [by apply elem_of_nil in Hq|].
  simpl in Hq. apply elem_of_app in Hq as [Hq|Hq]; [|by apply IH].
  destruct (line_rule_fields _ _ _ Hl Hq) as (? & ? & ? & _). done.
Qed.

Lemma docx_parse_fields_witness :
  let q := mkQuote (lit "Stay hungry") (lit "Jobs") in
  bare isspace (body q) = true /\ bare isspace (author q) = true /\
  ~ occurs (lit " - ") (author q).
Proof.
  apply (docx_parse_fields true
           (fun _ => inr [lit "Quotes"; lit " Stay hungry - Jobs "])
           (lit "quotes.docx") [mkQuote (lit "Stay hungry") (lit "Jobs")]).
  - reflexivity.
  - by left.
Defined.

(** ** The PDF parser: what it returns and how it fails *)

Section PDFMore.
Import PDFIngestor.

(** The loop over the lines of the extracted text never raises: the
    [except] clauses see the failures of the tool and of the reading
    only. *)
Lemma text_records_total (text path : str) :
  exists quotes,
    for_each TextIngestor.ingest_line
      (iter_lines (universal_newlines text)) [] = inr quotes /\
    TextIngestor.parse (fun _ => inr text) path = inr quotes.
Proof.
  unfold TextIngestor.parse. cbn [rbind].
  destruct (for_each_ingest_line (iter_lines (universal_newlines text)) [])
    as (outs & -> & _).
  by eexists.
Qed.

(** The call with [pdftotext] on the PATH, by what the tool does. *)
Lemma parse_with_pdftotext (E : env) (path : str) (fs : fsys) :
  which E (lit "pdftotext") = true ->
  parse E path fs =
  let tmp_path := mktemp E fs in
  let '(ran, fs1) :=
    subprocess_run E [lit "pdftotext"; path; tmp_path] (<[tmp_path := Text []]> fs) in
  (match ran with
   | inl e => (handler (lit "pdftotext") path e fs1).1
   | inr _ =>
       match fs1 !! tmp_path with
       | Some (Text text) => TextIngestor.parse (fun _ => inr text) path
       | Some NotText =>
           inl (ValueError (lit "Error parsing PDF file " ++ path ++ lit ": " ++
                            lit "'utf-8' codec can't decode"))
       | None =>
           inl (ValueError (lit "Error parsing PDF file " ++ path ++ lit ": " ++
                            tmp_path))
       end
   end, delete tmp_path fs1).
Proof.
  intros Hwhich. unfold parse. rewrite Hwhich.
  unfold bind at 1. unfold ret at 1.
  unfold bind at 1. unfold NamedTemporaryFile at 1.
  rewrite try_finally_cleanup. cbn zeta.
  unfold try_except, extract.
  rewrite bool_decide_eq_true_2 by done.
  unfold bind, run, ret, read.
  destruct (subprocess_run E _ _) as [[e|out] fs1]; cbn [fst snd].
  - by destruct e.
  - destruct (fs1 !! mktemp E fs) as [[text|]|] eqn:Htmp; cbn [fst snd];
      [|done..].
    destruct (text_records_total text path) as (quotes & Hloop & ->).
    unfold lift. by rewrite Hloop.
Qed.

End PDFMore.

(** X8.  With [pdftotext] on the PATH, when the tool succeeds and leaves
    a readable text in the temporary file, the PDF parser returns what
    the text parser returns on a file with that text, never raises, and
    leaves the file system as the tool left it, without the temporary
    file. *)
Theorem pdf_parse_extracted_text (E : PDFIngestor.env) (path : str)
  (fs fs1 : PDFIngestor.fsys) (out text : str) :
  PDFIngestor.which E (lit "pdftotext") = true ->
  PDFIngestor.subprocess_run E
    [lit "pdftotext"; path; PDFIngestor.mktemp E fs]
    (<[PDFIngestor.mktemp E fs := PDFIngestor.Text []]> fs) = (inr out, fs1) ->
  fs1 !! PDFIngestor.mktemp E fs = Some (PDFIngestor.Text text) ->
  PDFIngestor.parse E path fs =
  (TextIngestor.parse (fun _ => inr text) path,
   delete (PDFIngestor.mktemp E fs) fs1) /\
  exists quotes, TextIngestor.parse (fun _ => inr text) path = inr quotes.
Proof.
  intros Hwhich Hrun Htmp. split.
  - rewrite parse_with_pdftotext by done. cbn zeta. by rewrite Hrun, Htmp.
  - destruct (text_records_total text path) as (quotes & _ & ?).
    by exists quotes.
Qed.

Lemma pdf_parse_extracted_text_witness :
  let E := PDFIngestor.mkEnv
             (fun tool => bool_decide (tool = lit "pdftotext"))
             (fun _ => lit "/tmp/tmpab12.txt")
             (fun argv fs =>
                (inr [], <[lit "/tmp/tmpab12.txt"
                           := PDFIngestor.Text (lit "Stay hungry - Jobs")]> fs)) in
  PDFIngestor.parse E (lit "quotes.pdf") ∅ =
  (TextIngestor.parse (fun _ => inr (lit "Stay hungry - Jobs")) (lit "quotes.pdf"),
   delete (lit "/tmp/tmpab12.txt")
     (<[lit "/tmp/tmpab12.txt" := PDFIngestor.Text (lit "Stay hungry - Jobs")]>
        (<[lit "/tmp/tmpab12.txt" := PDFIngestor.Text []]> ∅))) /\
  exists quotes,
    TextIngestor.parse (fun _ => inr (lit "Stay hungry - Jobs")) (lit "quotes.pdf")
    = inr quotes.
Proof.
  apply (pdf_parse_extracted_text
           (PDFIngestor.mkEnv
              (fun tool => bool_decide (tool = lit "pdftotext"))
              (fun _ => lit "/tmp/tmpab12.txt")
              (fun argv fs =>
                 (inr [], <[lit "/tmp/tmpab12.txt"
                            := PDFIngestor.Text (lit "Stay hungry - Jobs")]> fs)))
           (lit "quotes.pdf") ∅ _ [] (lit "Stay hungry - Jobs")).
  - reflexivity.
  - reflexivity.
  - apply lookup_insert_eq.
Defined.

(** X9.  With [pdftotext] on the PATH, a tool that fails (a
    CalledProcessError) makes the PDF parser raise a RuntimeError that
    names the tool; any other exception of the call, and a temporary file
    that is missing or is not text afterwards, makes it raise a
    ValueError that names the PDF file.  In each case the file system is
    left as the tool left it, without the temporary file. *)
Theorem pdf_parse_tool_failure (E : PDFIngestor.env) (path : str)
  (fs fs1 : PDFIngestor.fsys) (ran : result str) :
  PDFIngestor.which E (lit "pdftotext") = true ->
  PDFIngestor.subprocess_run E
    [lit "pdftotext"; path; PDFIngestor.mktemp E fs]
    (<[PDFIngestor.mktemp E fs := PDFIngestor.Text []]> fs) = (ran, fs1) ->
  (PDFIngestor.parse E path fs).2 = delete (PDFIngestor.mktemp E fs) fs1 /\
  match ran with
  | inl (CalledProcessError m) =>
      (PDFIngestor.parse E path fs).1
      = inl (RuntimeError (lit "pdftotext failed: " ++ m))
  | inl e =>
      (PDFIngestor.parse E path fs).1
      = inl (ValueError (lit "Error parsing PDF file " ++ path ++ lit ": " ++
                         exn_str e))
  | inr _ =>
      match fs1 !! PDFIngestor.mktemp E fs with
      | Some (PDFIngestor.Text _) => True
      | _ => exists msg,
          (PDFIngestor.parse E path fs).1
          = inl (ValueError (lit "Error parsing PDF file " ++ path ++ lit ": " ++
                             msg))
      end
  end.
Proof.
  intros Hwhich Hrun. rewrite parse_with_pdftotext by done. cbn zeta.
  rewrite Hrun. cbn [fst snd]. split; [done|].
  destruct ran as [e|out]; [by destruct e|].
  destruct (fs1 !! PDFIngestor.mktemp E fs) as [[text|]|]; [done|by eexists..].
Qed.

Lemma pdf_parse_tool_failure_witness :
  let E := PDFIngestor.mkEnv
             (fun tool => bool_decide (tool = lit "pdftotext"))
             (fun _ => lit "/tmp/tmpab12.txt")
             (fun argv fs => (inl (CalledProcessError (lit "exit status 1")), fs)) in
  (PDFIngestor.parse E (lit "quotes.pdf") ∅).2
    = delete (lit "/tmp/tmpab12.txt")
        (<[lit "/tmp/tmpab12.txt" := PDFIngestor.Text []]> ∅) /\
  (PDFIngestor.parse E (lit "quotes.pdf") ∅).1
    = inl (RuntimeError (lit "pdftotext failed: " ++ lit "exit status 1")).
Proof.
  apply (pdf_parse_tool_failure
           (PDFIngestor.mkEnv
              (fun tool => bool_decide (tool = lit "pdftotext"))
              (fun _ => lit "/tmp/tmpab12.txt")
              (fun argv fs => (inl (CalledProcessError (lit "exit status 1")), fs)))
           (lit "quotes.pdf") ∅ _
           (inl (CalledProcessError (lit "exit status 1")))); reflexivity.
Defined.

(** X10.  Without [pdftotext]: if [mutool] is missing too, the PDF
    parser raises a RuntimeError before any file is created; with
    [mutool], when the tool succeeds and the temporary file is still
    there, the records are those of the text parser on the standard
    output of the tool, and the temporary file is removed. *)
Theorem pdf_parse_without_pdftotext (E : PDFIngestor.env) (path : str)
  (fs : PDFIngestor.fsys) :
  PDFIngestor.which E (lit "pdftotext") = false ->
  if PDFIngestor.which E (lit "mutool")
  then forall (out : str) (fs1 : PDFIngestor.fsys),
      PDFIngestor.subprocess_run E
        [lit "mutool"; lit "draw"; lit "-F"; lit "txt"; path]
        (<[PDFIngestor.mktemp E fs := PDFIngestor.Text []]> fs) = (inr out, fs1) ->
      is_Some (fs1 !! PDFIngestor.mktemp E fs) ->
      PDFIngestor.parse E path fs =
      (TextIngestor.parse (fun _ => inr out) path,
       delete (PDFIngestor.mktemp E fs) fs1)
  else exists msg, PDFIngestor.parse E path fs = (inl (RuntimeError msg), fs).
Proof.
  intros Hno. unfold PDFIngestor.parse. rewrite Hno.
  destruct (PDFIngestor.which E (lit "mutool")); [|by eexists].
  intros out fs1 Hrun [d Htmp].
  unfold PDFIngestor.bind at 1. unfold PDFIngestor.ret at 1.
  unfold PDFIngestor.bind at 1. unfold PDFIngestor.NamedTemporaryFile at 1.
  rewrite try_finally_cleanup.
  unfold PDFIngestor.try_except, PDFIngestor.extract.
  rewrite bool_decide_eq_false_2 by done.
  unfold PDFIngestor.bind, PDFIngestor.run, PDFIngestor.open_w,
    PDFIngestor.write, PDFIngestor.read.
  rewrite insert_insert_eq, Hrun, Htmp, lookup_insert_eq.
  destruct (text_records_total out path) as (quotes & Hloop & ->).
  unfold PDFIngestor.lift. rewrite Hloop. cbn [fst snd].
  by rewrite delete_insert_eq.
Qed.

Lemma pdf_parse_without_pdftotext_witness :
  let E := PDFIngestor.mkEnv
             (fun tool => bool_decide (tool = lit "mutool"))
             (fun _ => lit "/tmp/tmpab12.txt")
             (fun argv fs => (inr (lit "Stay hungry - Jobs"), fs)) in
  PDFIngestor.parse E (lit "quotes.pdf") ∅ =
  (TextIngestor.parse (fun _ => inr (lit "Stay hungry - Jobs")) (lit "quotes.pdf"),
   delete (lit "/tmp/tmpab12.txt")
     (<[lit "/tmp/tmpab12.txt" := PDFIngestor.Text []]> ∅)).
Proof.
  intros E.
  assert (Hno : PDFIngestor.which E (lit "pdftotext") = false) by reflexivity.
  pose proof (pdf_parse_without_pdftotext E (lit "quotes.pdf") ∅ Hno) as Hyes.
  change (PDFIngestor.which E (lit "mutool")) with true in Hyes.
  apply Hyes.
  - reflexivity.
  - unfold E. cbn [PDFIngestor.mktemp]. rewrite lookup_insert_eq. by eexists.
Defined.

(** Every record the PDF parser returns was built by the loop of the
    text parser from the lines of one text. *)
Lemma pdf_parse_records (E : PDFIngestor.env) (path : str)
  (fs : PDFIngestor.fsys) (quotes : list QuoteModel) :
  (PDFIngestor.parse E path fs).1 = inr quotes ->
  exists text,
    for_each TextIngestor.ingest_line
      (iter_lines (universal_newlines text)) [] = inr quotes.
Proof.
  unfold PDFIngestor.parse, PDFIngestor.bind at 1.
  destruct (if PDFIngestor.which E (lit "pdftotext") then _ else _)
    as [[e|tool] fs0] eqn:Htool; [done|].
  unfold PDFIngestor.bind at 1, PDFIngestor.NamedTemporaryFile.
  rewrite try_finally_cleanup. cbn [fst].
  unfold PDFIngestor.try_except.
  destruct (PDFIngestor.extract E tool path _ _) as [[e|quotes'] fs1] eqn:Hx.
  { by destruct e. }
  cbn [fst]. intros [= <-]. revert Hx.
  unfold PDFIngestor.extract, PDFIngestor.bind at 1.
  destruct (if bool_decide (tool = lit "pdftotext") then _ else _)
    as [[e|[]] fs2]; [done|].
  unfold PDFIngestor.bind, PDFIngestor.read, PDFIngestor.lift.
  destruct (fs2 !! _) as [[text|]|]; [|done..].
  intros [= Hloop _]. by exists text.
Qed.

Lemma loop_fields (lines : list str) (quotes : list QuoteModel) (q : QuoteModel) :
  for_each TextIngestor.ingest_line lines [] = inr quotes -> q ∈ quotes ->
  bare isspace (body q) = true /\ bare isspace (author q) = true /\
  ~ occurs (lit " - ") (author q).
Proof.
  destruct (for_each_ingest_line lines []) as (outs & -> & Houts).
  intros [= <-]. cbn [app]. intros Hq.
  induction Houts as [|l out ls outs Hl _ IH]; [by apply elem_of_nil in Hq|].
  simpl in Hq. apply elem_of_app in Hq as [Hq|Hq]; [|by apply IH].
  destruct (line_rule_fields _ _ _ Hl Hq) as (? & ? & ? & _). done.
Qed.

(** X11.  Whatever the tool, the file system and the text extracted,
    every record the PDF parser returns has a body and an author with no
    whitespace at either end, and an author that does not contain the
    separator [" - "]. *)
Theorem pdf_parse_fields (E : PDFIngestor.env) (path : str)
  (fs : PDFIngestor.fsys) (quotes : list QuoteModel) (q : QuoteModel) :
  (PDFIngestor.parse E path fs).1 = inr quotes -> q ∈ quotes ->
  bare isspace (body q) = true /\ bare isspace (author q) = true /\
  ~ occurs (lit " - ") (author q).
Proof.
  intros (text & Hloop)%pdf_parse_records Hq. by eapply loop_fields.
Qed.

Lemma pdf_parse_fields_witness :
  let q := mkQuote (lit "Stay hungry") (lit "Jobs") in
  bare isspace (body q) = true /\ bare isspace (author q) = true /\
  ~ occurs (lit " - ") (author q).
Proof.
  apply (pdf_parse_fields
           (PDFIngestor.mkEnv
              (fun tool => bool_decide (tool = lit "mutool"))
              (fun _ => lit "/tmp/tmpab12.txt")
              (fun argv fs => (inr (lit "  Stay hungry - Jobs  "), fs)))
           (lit "quotes.pdf") ∅ [mkQuote (lit "Stay hungry") (lit "Jobs")]).
  - reflexivity.
  - by left.
Defined.

(** ** The parser on the csv module *)

Section CSVMore.
Import CSVIngestor.

(** A loop whose body only appends. *)
Lemma for_each_flat {A} (body : list QuoteModel -> A -> result (list QuoteModel))
  (f : A -> list QuoteModel) (xs : list A) (quotes : list QuoteModel) :
  (forall s x, x ∈ xs -> body s x = inr (s ++ f x)) ->
  for_each body xs quotes = inr (quotes ++ flat_map f xs).
Proof.
  revert quotes. induction xs as [|x xs IH]; intros quotes Hbody; simpl.
  - by rewrite app_nil_r.
  - rewrite Hbody by by left. simpl. rewrite IH, app_assoc; [done|].
    intros s y Hy. apply Hbody. by right.
Qed.

Lemma for_each_keep_flat {A}
  (body : list QuoteModel -> A -> result (list QuoteModel))
  (f : A -> list QuoteModel) (xs : list A) (quotes : list QuoteModel) :
  (forall s x, x ∈ xs -> body s x = inr (s ++ f x)) ->
  for_each_keep body xs quotes = (quotes ++ flat_map f xs, None).
Proof.
  revert quotes. induction xs as [|x xs IH]; intros quotes Hbody; simpl.
  - by rewrite app_nil_r.
  - rewrite Hbody by by left. rewrite IH, app_assoc; [done|].
    intros s y Hy. apply Hbody. by right.
Qed.

(** What the loop of the fallback makes of one row of the plain reader. *)
Lemma ingest_plain_row_appends (quotes : list QuoteModel) (row : list str) :
  ingest_plain_row quotes row
  = inr (quotes ++
         match row with
         | r0 :: r1 :: _ =>
             if truthy (strip r0) && truthy (strip r1)
             then [mkQuote (strip r0) (strip r1)] else []
         | _ => []
         end).
Proof.
  unfold ingest_plain_row. destruct row as [|r0 [|r1 row]];
    rewrite ?app_nil_r; [done..|].
  destruct (_ && _); by rewrite ?app_nil_r.
Qed.

End CSVMore.

(** X12.  The parser on the csv module, the file read row by row.  It
    raises exactly when the file cannot be opened or its reading stops
    with an exception, and then a ValueError that names the file and
    gives two causes.  The second is what stopped the second attempt: the
    exception of the opening or of the reading.  The first is that same
    exception, unless a row made the body of the first loop raise before
    the reading stopped: then it is the exception of that row.  A file
    read to its end never makes the parser raise, whatever its rows, and
    the parser returns what [parse] has for its rows. *)
Theorem csv_parse_outcome
  (reader : str -> result (list (list str) * option exn)) (path : str) :
  match reader path with
  | inl e =>
      CSVIngestor.parse_lazy reader path
      = inl (ValueError (lit "Error parsing CSV file " ++ path ++ lit ": " ++
                         exn_str e ++ lit ", fallback also failed: " ++
                         exn_str e))
  | inr (rows, Some stop) =>
      CSVIngestor.parse_lazy reader path
      = inl (ValueError
               (lit "Error parsing CSV file " ++ path ++ lit ": " ++
                exn_str (default stop
                           (CSVIngestor.for_each_keep CSVIngestor.ingest_row
                              (CSVIngestor.DictReader rows) []).2) ++
                lit ", fallback also failed: " ++ exn_str stop))
  | inr (rows, None) =>
      CSVIngestor.parse_lazy reader path
      = CSVIngestor.parse (fun _ => inr rows) path /\
      exists quotes, CSVIngestor.parse_lazy reader path = inr quotes
  end.
Proof.
  unfold CSVIngestor.parse_lazy, CSVIngestor.parse.
  destruct (reader path) as [e|[rows [stop|]]]; [done| |].
  - destruct (CSVIngestor.for_each_keep _ _ _) as [kept [e|]];
      cbn [rbind fst snd default];
      by rewrite (for_each_flat _ _ rows kept
                    (fun s x _ => ingest_plain_row_appends s x)).
  - destruct (CSVIngestor.for_each_keep _ _ _) as [kept [e|]];
      cbn [rbind fst snd]; [|by eauto].
    rewrite (for_each_flat _ _ rows kept
               (fun s x _ => ingest_plain_row_appends s x)).
    cbn [rbind]. by eauto.
Qed.

(** A row with a field beyond the header, then a byte that cannot be
    decoded: the first attempt ends at the row, the fallback at the
    byte, and the message has the two causes. *)
Example csv_parse_two_causes :
  CSVIngestor.parse_lazy
    (fun _ => inr ([[lit "quote"]; [lit "Stay hungry"; lit "Jobs"]],
                   Some (UnicodeDecodeError (lit "invalid start byte"))))
    (lit "q.csv")
  = inl (ValueError (lit "Error parsing CSV file q.csv: 'list' object has no attribute 'strip', fallback also failed: invalid start byte")).
Proof. reflexivity. Qed.

(** X13.  When a row makes the loop over the [DictReader] raise, the
    records made from the rows before it are kept, and the fallback adds
    to them a record from every row of the file, the header row and the
    rows already used included, that has two fields or more whose first
    two are not blank. *)
Theorem csv_parse_fallback (reader : str -> result (list (list str)))
  (path : str) (rows : list (list str)) (kept : list QuoteModel) (e : exn) :
  reader path = inr rows ->
  CSVIngestor.for_each_keep CSVIngestor.ingest_row
    (CSVIngestor.DictReader rows) [] = (kept, Some e) ->
  CSVIngestor.parse reader path
  = inr (kept ++
         flat_map (fun row =>
                     match row with
                     | r0 :: r1 :: _ =>
                         if truthy (strip r0) && truthy (strip r1)
                         then [mkQuote (strip r0) (strip r1)] else []
                     | _ => []
                     end) rows).
Proof.
  intros Hread Hloop. unfold CSVIngestor.parse. rewrite Hread, Hloop.
  cbn [rbind].
  by rewrite (for_each_flat _ _ rows kept
                (fun s x _ => ingest_plain_row_appends s x)).
Qed.

Lemma csv_parse_fallback_witness :
  let rows := [[lit "quote"]; [lit "Stay hungry"; lit "Jobs"]] in
  CSVIngestor.parse (fun _ => inr rows) (lit "quotes.csv")
  = inr [mkQuote (lit "Stay hungry") (lit "Jobs")].
Proof.
  intros rows.
  rewrite (csv_parse_fallback (fun _ => inr rows) (lit "quotes.csv") rows []
             (AttributeError (lit "'list' object has no attribute 'strip'")));
    reflexivity.
Defined.

Lemma for_each_keep_map_flat {A B}
  (body : list QuoteModel -> B -> result (list QuoteModel)) (g : A -> B)
  (f : A -> list QuoteModel) (xs : list A) (quotes : list QuoteModel) :
  (forall s x, x ∈ xs -> body s (g x) = inr (s ++ f x)) ->
  CSVIngestor.for_each_keep body (map g xs) quotes
  = (quotes ++ flat_map f xs, None).
Proof.
  revert quotes. induction xs as [|x xs IH]; intros quotes Hbody; simpl.
  - by rewrite app_nil_r.
  - rewrite Hbody by by left. rewrite IH, app_assoc; [done|].
    intros s y Hy. apply Hbody. by right.
Qed.

(** The rows a [DictReader] passes over give nothing anyway. *)
Lemma flat_map_rows {A B} (f : list A -> list B) (rows : list (list A)) :
  f [] = [] ->
  flat_map f (filter (fun r => r <> []) rows) = flat_map f rows.
Proof.
  intros Hf. induction rows as [|row rows IH]; [done|].
  rewrite filter_cons. destruct (decide (row <> [])) as [Hrow|Hrow].
  - cbn [flat_map]. by rewrite IH.
  - apply dec_stable in Hrow as ->. cbn [flat_map]. by rewrite Hf, IH.
Qed.

(** The field names the loop over the [DictReader] looks up, in a file
    of two columns. *)
Section CSVTwo.
Import CSVIngestor.

Lemma dict_row_two (h0 h1 : str) (row : list str) :
  h0 <> h1 ->
  dict_row [h0; h1] row =
  match row with
  | [] => [(Some h0, PNone); (Some h1, PNone)]
  | [r0] => [(Some h0, PStr r0); (Some h1, PNone)]
  | [r0; r1] => [(Some h0, PStr r0); (Some h1, PStr r1)]
  | r0 :: r1 :: rest => [(Some h0, PStr r0); (Some h1, PStr r1); (None, PList rest)]
  end.
Proof.
  intros Hne. unfold dict_row.
  destruct row as [|r0 [|r1 [|r2 rest]]]; cbn;
    rewrite ?bool_decide_eq_true_2 by done;
    rewrite ?bool_decide_eq_false_2 by congruence; try done.
Qed.

Ltac name_cases h :=
  destruct (decide (h = lit "body")) as [->|?];
  [|destruct (decide (h = lit "quote")) as [->|?];
    [|destruct (decide (h = lit "Body")) as [->|?];
      [|destruct (decide (h = lit "Quote")) as [->|?];
        [|destruct (decide (h = lit "author")) as [->|?];
          [|destruct (decide (h = lit "speaker")) as [->|?];
            [|destruct (decide (h = lit "Author")) as [->|?];
              [|destruct (decide (h = lit "Speaker")) as [->|?]]]]]]]].

Ltac decide_names :=
  repeat match goal with
  | |- context [bool_decide (?a = ?b)] =>
      first [ rewrite (bool_decide_eq_true_2 (a = b)) by reflexivity
            | rewrite (bool_decide_eq_false_2 (a = b))
                by (let H := fresh in intros H; first [congruence | by cbv in H]) ]
  | |- context [bool_decide (?a ∈ ?l)] =>
      first [ rewrite (bool_decide_eq_true_2 (a ∈ l))
                by (rewrite !elem_of_cons; auto 10)
            | rewrite (bool_decide_eq_false_2 (a ∈ l))
                by (rewrite !elem_of_cons, elem_of_nil;
                    let H := fresh in intros H;
                    repeat (destruct H as [H|H]; [first [congruence | by cbv in H]|]);
                    done) ]
  end.

Lemma py_or_none (v : pyval) : py_or PNone v = v.
Proof. done. Qed.

Lemma py_or_str (r : str) (v : pyval) :
  py_or (PStr r) v = if truthy r then PStr r else v.
Proof. done. Qed.

Ltac decide_values :=
  repeat first
    [ rewrite py_or_none
    | rewrite py_or_str
    | match goal with
      | H : truthy ?r = _ |- context [truthy ?r] => rewrite H
      end
    | progress cbn [val_truthy negb orb andb] ].

Lemma ingest_row_two (h0 h1 : str) (quotes : list QuoteModel) (row : list str) :
  h0 <> h1 -> row <> [] ->
  ingest_row quotes (dict_row [h0; h1] row)
  = inr (quotes ++
         match row with
         | r0 :: r1 :: _ =>
             if truthy r0 && truthy r1
             then [if bool_decide (h0 ∈ [lit "author"; lit "speaker";
                                         lit "Author"; lit "Speaker"])
                      && bool_decide (h1 ∈ [lit "body"; lit "quote";
                                            lit "Body"; lit "Quote"])
                   then mkQuote (strip r1) (strip r0)
                   else mkQuote (strip r0) (strip r1)]
             else []
         | _ => []
         end).
Proof.
  intros Hne Hrow. rewrite dict_row_two by done.
  destruct row as [|r0 [|r1 rest]]; [done| |].
  - name_cases h0; name_cases h1; try done.
    all: unfold ingest_row; cbn [dict_get dict_values map snd]; decide_names.
    all: destruct (truthy r0) eqn:H0.
    all: decide_values; by rewrite ?app_nil_r.
  - assert (Hrest : forall d : dict,
               ingest_row quotes ((Some h0, PStr r0) :: (Some h1, PStr r1) :: d)
               = ingest_row quotes [(Some h0, PStr r0); (Some h1, PStr r1)] ->
               ingest_row quotes
                 match rest with
                 | [] => [(Some h0, PStr r0); (Some h1, PStr r1)]
                 | _ :: _ => (Some h0, PStr r0) :: (Some h1, PStr r1) :: d
                 end
               = ingest_row quotes [(Some h0, PStr r0); (Some h1, PStr r1)]).
    { intros d Hd. by destruct rest. }
    rewrite (Hrest [(None, PList rest)]).
    + name_cases h0; name_cases h1; try done.
      all: unfold ingest_row; cbn [dict_get dict_values map snd]; decide_names.
      all: destruct (truthy r0) eqn:H0, (truthy r1) eqn:H1.
      all: decide_values; by rewrite ?app_nil_r.
    + unfold ingest_row. cbn [dict_get dict_values map snd].
      by rewrite !(bool_decide_eq_false_2 (None = Some _)) by done.
Qed.
End CSVTwo.

(** X14.  Under a header of two different names the parser on the csv
    module makes a record from exactly the rows with two fields or more
    whose first two are not empty, with the first field as the body and
    the second as the author; only when the header names an author column
    first and a body column second are the two exchanged.  Rows with one
    field and blank rows give nothing, further fields are ignored, and no
    row makes it raise. *)
Theorem csv_parse_two_columns (reader : str -> result (list (list str)))
  (path h0 h1 : str) (data : list (list str)) :
  h0 <> h1 ->
  reader path = inr ([h0; h1] :: data) ->
  CSVIngestor.parse reader path
  = inr (flat_map
           (fun row =>
              match row with
              | r0 :: r1 :: _ =>
                  if truthy r0 && truthy r1
                  then [if bool_decide (h0 ∈ [lit "author"; lit "speaker";
                                              lit "Author"; lit "Speaker"])
                           && bool_decide (h1 ∈ [lit "body"; lit "quote";
                                                 lit "Body"; lit "Quote"])
                        then mkQuote (strip r1) (strip r0)
                        else mkQuote (strip r0) (strip r1)]
                  else []
              | _ => []
              end) data).
Proof.
  intros Hne Hread. unfold CSVIngestor.parse. rewrite Hread.
  unfold CSVIngestor.DictReader.
  rewrite (for_each_keep_map_flat _ (CSVIngestor.dict_row [h0; h1])
             (fun row =>
                match row with
                | r0 :: r1 :: _ =>
                    if truthy r0 && truthy r1
                    then [if bool_decide (h0 ∈ [lit "author"; lit "speaker";
                                                lit "Author"; lit "Speaker"])
                             && bool_decide (h1 ∈ [lit "body"; lit "quote";
                                                   lit "Body"; lit "Quote"])
                          then mkQuote (strip r1) (strip r0)
                          else mkQuote (strip r0) (strip r1)]
                    else []
                | _ => []
                end)).
  - cbn [app]. by rewrite flat_map_rows.
  - intros s row [Hrow _]%list_elem_of_filter.
    by apply ingest_row_two.
Qed.

Lemma csv_parse_two_columns_witness :
  CSVIngestor.parse
    (fun _ => inr [[lit "speaker"; lit "quote"];
                   [lit "Jobs"; lit " Stay hungry "; lit "1995"];
                   [lit "Nobody"];
                   [];
                   [lit ""; lit "No author"]])
    (lit "quotes.csv")
  = inr [mkQuote (lit "Stay hungry") (lit "Jobs")].
Proof.
  rewrite (csv_parse_two_columns _ (lit "quotes.csv") (lit "speaker") (lit "quote")
             [[lit "Jobs"; lit " Stay hungry "; lit "1995"];
              [lit "Nobody"]; []; [lit ""; lit "No author"]]).
  - reflexivity.
  - by intros ?%(f_equal length).
  - reflexivity.
Defined.

(** Only the fields beyond the header are held as a list. *)
Section CSVSurplus.
Import CSVIngestor.

Local Abbreviation plain v := (forall l : list str, v <> PList l).
Local Abbreviation plain_dict d :=
  (Forall (fun kv : option str * pyval => plain kv.2) d).

Lemma dict_set_plain (k : option str) (v : pyval) (d : dict) :
  plain v -> plain_dict d -> plain_dict (dict_set k v d).
Proof.
  intros Hv. induction 1 as [|[k' v'] d Hkv Hd IH]; simpl.
  - by repeat constructor.
  - case_bool_decide; constructor; done.
Qed.

Lemma dict_zip_plain (fieldnames row : list str) (d : dict) :
  plain_dict d -> plain_dict (dict_zip fieldnames row d).
Proof.
  revert row d. induction fieldnames as [|k ks IH]; intros [|v vs] d Hd;
    simpl; try done.
  apply IH. by apply dict_set_plain.
Qed.

Lemma dict_row_plain (fieldnames row : list str) :
  length row <= length fieldnames -> plain_dict (dict_row fieldnames row).
Proof.
  intros Hlen. unfold dict_row.
  destruct (_ <? _) eqn:Hlt; [apply Nat.ltb_lt in Hlt; lia|].
  generalize (dict_zip_plain fieldnames row [] (Forall_nil_2 _)).
  generalize (dict_zip fieldnames row []).
  induction (drop (length row) fieldnames) as [|k ks IH]; intros d Hd;
    simpl; [done|].
  apply IH. by apply dict_set_plain.
Qed.

Lemma dict_get_plain (k : str) (d : dict) :
  plain_dict d -> plain (dict_get k d).
Proof.
  induction 1 as [|[k' v'] d Hkv Hd IH]; simpl; [done|].
  by case_bool_decide.
Qed.

Lemma py_or_plain (a b : pyval) : plain a -> plain b -> plain (py_or a b).
Proof. intros Ha Hb. unfold py_or. by destruct (val_truthy a). Qed.

Lemma val_strip_plain (v : pyval) :
  plain v -> val_truthy v = true -> exists s, val_strip v = inr s.
Proof.
  destruct v as [|s|l]; intros Hv Ht; [done|by eexists|].
  by destruct (Hv l).
Qed.

(** On a row without surplus fields the body of the loop does not
    raise. *)
Lemma ingest_row_plain (quotes : list QuoteModel) (row : dict) :
  plain_dict row -> exists quotes', ingest_row quotes row = inr quotes'.
Proof.
  intros Hrow. unfold ingest_row.
  set (b := py_or _ (dict_get (lit "Quote") row)).
  set (a := py_or _ (dict_get (lit "Speaker") row)).
  assert (Hb : plain b) by (repeat apply py_or_plain; by apply dict_get_plain).
  assert (Ha : plain a) by (repeat apply py_or_plain; by apply dict_get_plain).
  clearbody a b.
  assert (exists b' a',
            (if negb (val_truthy b) || negb (val_truthy a)
             then match dict_values row with
                  | v0 :: v1 :: _ => (v0, v1)
                  | _ => (b, a)
                  end
             else (b, a)) = (b', a') /\ plain b' /\ plain a')
    as (b' & a' & -> & Hb' & Ha').
  { destruct (_ || _); [|by eauto].
    destruct Hrow as [|[k0 v0] d H0 [|[k1 v1] d' H1 _]]; simpl; eauto 6. }
  destruct (val_truthy b') eqn:Htb; [|by eexists].
  destruct (val_truthy a') eqn:Hta; [|by eexists]. cbn [andb].
  destruct (val_strip_plain b' Hb' Htb) as (sb & ->).
  destruct (val_strip_plain a' Ha' Hta) as (sa & ->).
  by eexists.
Qed.

Lemma for_each_keep_total {A S} (body : S -> A -> result S) (xs : list A) (s : S) :
  (forall s x, x ∈ xs -> exists s', body s x = inr s') ->
  exists s', for_each_keep body xs s = (s', None).
Proof.
  revert s. induction xs as [|x xs IH]; intros s Hbody; simpl; [by eexists|].
  destruct (Hbody s x) as (s1 & ->); [by left|].
  apply IH. intros s2 y Hy. apply Hbody. by right.
Qed.

End CSVSurplus.

(** X15.  In a file whose rows have no more fields than the header, no
    row makes the loop over the [DictReader] raise, whatever the names in
    the header: the fallback is not used, and the parser returns the
    records of that loop. *)
Theorem csv_parse_no_surplus (reader : str -> result (list (list str)))
  (path : str) (header : list str) (data : list (list str)) :
  reader path = inr (header :: data) ->
  Forall (fun row => length row <= length header) data ->
  exists quotes,
    CSVIngestor.for_each_keep CSVIngestor.ingest_row
      (CSVIngestor.DictReader (header :: data)) [] = (quotes, None) /\
    CSVIngestor.parse reader path = inr quotes.
Proof.
  intros Hread Hdata.
  destruct (for_each_keep_total CSVIngestor.ingest_row
              (CSVIngestor.DictReader (header :: data)) []) as (quotes & Hloop).
  - intros s d (row & -> & [_ Hrow]%list_elem_of_filter)%list_elem_of_fmap.
    apply ingest_row_plain, dict_row_plain.
    by apply (proj1 (Forall_forall _ _) Hdata).
  - exists quotes. split; [done|].
    unfold CSVIngestor.parse. by rewrite Hread, Hloop.
Qed.

Lemma csv_parse_no_surplus_witness :
  exists quotes,
    CSVIngestor.for_each_keep CSVIngestor.ingest_row
      (CSVIngestor.DictReader
         [[lit "id"; lit "text"; lit "by"];
          [lit "1"; lit "Stay hungry"; lit "Jobs"]; [lit "2"]]) []
    = (quotes, None) /\
    CSVIngestor.parse
      (fun _ => inr [[lit "id"; lit "text"; lit "by"];
                     [lit "1"; lit "Stay hungry"; lit "Jobs"]; [lit "2"]])
      (lit "quotes.csv") = inr quotes.
Proof.
  apply (csv_parse_no_surplus _ (lit "quotes.csv")).
  - reflexivity.
  - repeat constructor.
Defined.

(** ** The facade: the choice of the parser and what comes back *)

Section FacadeMore.
Import Ingestor.

Lemma lower_char_dot (c : ascii) :
  bool_decide (lower_char c = dot) = bool_decide (c = dot).
Proof.
  destruct c as [[] [] [] [] [] [] [] []]; vm_compute; reflexivity.
Qed.

Lemma lower_char_idemp (c : ascii) : lower_char (lower_char c) = lower_char c.
Proof.
  destruct c as [[] [] [] [] [] [] [] []]; vm_compute; reflexivity.
Qed.

Lemma lower_idemp (s : str) : lower (lower s) = lower s.
Proof.
  unfold lower. rewrite map_map. apply map_ext. intros c. apply lower_char_idemp.
Qed.

Lemma split_char_lower (s : str) :
  split_char dot (lower s) = map lower (split_char dot s).
Proof.
  induction s as [|c s IH]; [done|].
  cbn [lower map split_char]. fold (lower s).
  rewrite lower_char_dot, IH.
  destruct (bool_decide (c = dot)); [done|].
  by destruct (split_char dot s).
Qed.

Lemma extension_lower (path : str) : extension (lower path) = extension path.
Proof.
  unfold extension. rewrite split_char_lower.
  change (map lower) with (fmap (M:=list) lower). rewrite fmap_last.
  destruct (last (split_char dot path)); simpl; [apply lower_idemp|done].
Qed.

Lemma can_ingest_one (i j : ingestor) (path : str) :
  can_ingest i path = true -> can_ingest j path = true -> i = j.
Proof.
  unfold can_ingest. intros Hi%bool_decide_eq_true Hj%bool_decide_eq_true.
  destruct i, j; try done; cbn in Hi, Hj;
    apply list_elem_of_singleton in Hi, Hj; rewrite Hi in Hj; by cbv in Hj.
Qed.

End FacadeMore.

(** X16.  Two paths that differ only in the case of their letters are
    accepted by the same parsers: the extension is compared in lower
    case, and the dots of a path are where those of its lower case are. *)
Theorem can_ingest_ignores_case (i : Ingestor.ingestor) (p q : str) :
  lower p = lower q -> Ingestor.can_ingest i p = Ingestor.can_ingest i q.
Proof.
  intros Hpq. unfold Ingestor.can_ingest.
  by rewrite <- (extension_lower p), <- (extension_lower q), Hpq.
Qed.

Lemma can_ingest_ignores_case_witness :
  Ingestor.can_ingest Ingestor.Docx (lit "Notes.v2.DocX")
  = Ingestor.can_ingest Ingestor.Docx (lit "notes.V2.docx").
Proof.
  apply (can_ingest_ignores_case Ingestor.Docx
           (lit "Notes.v2.DocX") (lit "notes.V2.docx")).
  reflexivity.
Defined.

(** X17.  What a call of the facade can come to, and nothing else: for
    a path that does not exist a FileNotFoundError, with no parser called
    and the world untouched; for a path no parser accepts a ValueError,
    likewise; otherwise exactly one parser accepts the path, that parser
    alone is called, once, the world is as it left it, and the facade
    returns what it returned or raises a ValueError.  So the facade never
    lets another exception through and never calls two parsers. *)
Theorem facade_outcome {W : Type}
  (path_exists : str -> W -> bool)
  (invoke : Ingestor.ingestor -> str -> W -> result (list QuoteModel) * W)
  (path : str) (w : W) :
  let o := Ingestor.parse path_exists invoke path w in
  (path_exists path w = false /\
   o = Ingestor.mkOutcome
         (inl (FileNotFoundError (lit "File not found: " ++ path))) [] w) \/
  (path_exists path w = true /\
   (forall i, Ingestor.can_ingest i path = false) /\
   o = Ingestor.mkOutcome
         (inl (ValueError (lit "No available ingestor for file type: " ++ path)))
         [] w) \/
  (path_exists path w = true /\
   exists i,
     Ingestor.can_ingest i path = true /\
     (forall j, Ingestor.can_ingest j path = true -> j = i) /\
     Ingestor.invoked o = [i] /\
     Ingestor.world o = (invoke i path w).2 /\
     match (invoke i path w).1 with
     | inr quotes => Ingestor.returned o = inr quotes
     | inl e => exists msg, Ingestor.returned o = inl (ValueError msg)
     end).
Proof.
  intros o. subst o. unfold Ingestor.parse.
  destruct (path_exists path w); cbn [negb]; [right|by left].
  rewrite dispatch_first.
  destruct (list_find _ _) as [[k i]|] eqn:Hfind.
  - right. split; [done|]. exists i.
    apply list_find_Some in Hfind as (_ & Hi & _).
    assert (Ingestor.can_ingest i path = true) as Hcan
      by by apply bool_decide_eq_true.
    split; [done|]. split; [intros j Hj; by apply (can_ingest_one j i path)|].
    cbn. repeat split. destruct (invoke i path w).1; [by eexists|done].
  - left. split; [done|]. split; [|done].
    intros i. apply bool_decide_eq_false. intros Hi.
    apply list_find_None in Hfind.
    apply (proj1 (Forall_forall _ _) Hfind i); [|done].
    destruct i; rewrite !elem_of_cons; auto.
Qed.

(** ** The facade with its parsers *)

Section FacadeParsers.
Import QuoteEngine.

Lemma text_parse_records (open_ : str -> result str) (path : str)
  (quotes : list QuoteModel) :
  TextIngestor.parse open_ path = inr quotes ->
  exists lines, for_each TextIngestor.ingest_line lines [] = inr quotes.
Proof.
  unfold TextIngestor.parse. destruct (open_ path) as [e|text]; [done|].
  cbn [rbind]. destruct (for_each _ _ _) as [e|quotes'] eqn:Hloop; [done|].
  intros [= <-]. by eexists.
Qed.

Lemma docx_parse_records (installed : bool)
  (Doc : str -> result (list str)) (path : str) (quotes : list QuoteModel) :
  DocxIngestor.parse installed Doc path = inr quotes ->
  exists lines, for_each TextIngestor.ingest_line lines [] = inr quotes.
Proof.
  unfold DocxIngestor.parse. destruct installed; [|done]. cbn [negb].
  destruct (Doc path) as [e|paragraphs]; [done|]. cbn [rbind].
  destruct (for_each _ _ _) as [e|quotes'] eqn:Hloop; [done|].
  intros [= <-]. by eexists.
Qed.

(** The call of the facade on a path that exists and that parser [i]
    accepts. *)
Lemma parse_chosen (R : runtime) (i : Ingestor.ingestor) (path : str)
  (fs : PDFIngestor.fsys) :
  path_exists R path fs = true ->
  Ingestor.can_ingest i path = true ->
  parse R path fs =
  Ingestor.mkOutcome
    match (ingestor_parse R i path fs).1 with
    | inr quotes => inr quotes
    | inl e =>
        inl (ValueError (lit "Failed to parse " ++ path ++ lit " with " ++
                         Ingestor.__name__ i ++ lit ": " ++ exn_str e))
    end
    [i] (ingestor_parse R i path fs).2.
Proof.
  intros Hex Hi. unfold parse, Ingestor.parse. rewrite Hex. cbn [negb].
  by rewrite dispatch_first, (can_ingest_chosen i path Hi).
Qed.

(** What the facade returns was returned by a parser that accepts the
    path. *)
Lemma parse_returned (R : runtime) (path : str) (fs : PDFIngestor.fsys)
  (quotes : list QuoteModel) :
  Ingestor.returned (parse R path fs) = inr quotes ->
  exists i, Ingestor.can_ingest i path = true /\
            (ingestor_parse R i path fs).1 = inr quotes.
Proof.
  unfold parse, Ingestor.parse.
  destruct (path_exists R path fs); cbn [negb]; [|done].
  rewrite dispatch_first.
  destruct (list_find _ _) as [[k i]|] eqn:Hfind; [|done].
  apply list_find_Some in Hfind as (_ & Hi & _).
  cbn [Ingestor.returned].
  destruct (ingestor_parse R i path fs).1 as [e|quotes'] eqn:Hp; [done|].
  intros [= ->]. exists i. split; [by apply bool_decide_eq_true|done].
Qed.

End FacadeParsers.

(** X18.  Through the facade, a text file that exists gives the records
    of its lines, whatever they are, and leaves the files as they were;
    if it cannot be read, the ValueError of the facade names the file and
    the text parser and carries the message of the text parser, which
    names the file again and gives the cause. *)
Theorem facade_text_file (R : QuoteEngine.runtime) (path : str)
  (fs : PDFIngestor.fsys) :
  QuoteEngine.path_exists R path fs = true ->
  Ingestor.extension path = lit "txt" ->
  QuoteEngine.parse R path fs =
  Ingestor.mkOutcome
    match QuoteEngine.open_ R path with
    | inr text => TextIngestor.parse (fun _ => inr text) path
    | inl e =>
        inl (ValueError (lit "Failed to parse " ++ path ++
                         lit " with TextIngestor: " ++
                         lit "Error parsing text file " ++ path ++
                         lit ": " ++ exn_str e))
    end
    [Ingestor.Text] fs /\
  forall text, QuoteEngine.open_ R path = inr text ->
    exists quotes, Ingestor.returned (QuoteEngine.parse R path fs) = inr quotes.
Proof.
  intros Hex Hext.
  assert (Ingestor.can_ingest Ingestor.Text path = true) as Hcan.
  { unfold Ingestor.can_ingest. rewrite Hext. done. }
  rewrite (parse_chosen R Ingestor.Text path fs Hex Hcan).
  cbn [QuoteEngine.ingestor_parse fst snd Ingestor.returned].
  unfold TextIngestor.parse at 1 3.
  destruct (QuoteEngine.open_ R path) as [e|text]; cbn [rbind].
  - split; [done|]. by intros text [=].
  - destruct (text_records_total text path) as (quotes & Hloop & ->).
    rewrite Hloop. split; [done|]. intros _ _. by eexists.
Qed.

Lemma facade_text_file_witness :
  let R := QuoteEngine.mkRuntime (fun _ _ => true)
             (fun _ => inl (OSError (lit "Permission denied")))
             (fun _ => inr []) true (fun _ => inr [])
             (PDFIngestor.mkEnv (fun _ => false) (fun _ => lit "t")
                (fun _ fs => (inr [], fs))) in
  Ingestor.returned (QuoteEngine.parse R (lit "a.TXT") ∅)
  = inl (ValueError (lit "Failed to parse a.TXT with TextIngestor: Error parsing text file a.TXT: Permission denied")).
Proof.
  intros R.
  pose proof (facade_text_file R (lit "a.TXT") ∅ eq_refl eq_refl) as [Hparse _].
  rewrite Hparse. reflexivity.
Defined.

(** X19.  Every record the facade returns for a path that is not a CSV
    file, from whichever of the text, document and PDF parsers, has a
    body and an author with no whitespace at either end, and an author
    that does not contain the separator [" - "]. *)
Theorem facade_records_fields (R : QuoteEngine.runtime) (path : str)
  (fs : PDFIngestor.fsys) (quotes : list QuoteModel) (q : QuoteModel) :
  Ingestor.extension path <> lit "csv" ->
  Ingestor.returned (QuoteEngine.parse R path fs) = inr quotes ->
  q ∈ quotes ->
  bare isspace (body q) = true /\ bare isspace (author q) = true /\
  ~ occurs (lit " - ") (author q).
Proof.
  intros Hext (i & Hcan & Hi)%parse_returned Hq.
  destruct i; cbn [QuoteEngine.ingestor_parse fst] in Hi.
  - apply text_parse_records in Hi as (lines & Hloop). by eapply loop_fields.
  - unfold Ingestor.can_ingest in Hcan. apply bool_decide_eq_true in Hcan.
    by apply list_elem_of_singleton in Hcan.
  - apply docx_parse_records in Hi as (lines & Hloop). by eapply loop_fields.
  - apply pdf_parse_records in Hi as (text & Hloop). by eapply loop_fields.
Qed.

Lemma facade_records_fields_witness :
  let q := mkQuote (lit "Stay hungry") (lit "Jobs") in
  bare isspace (body q) = true /\ bare isspace (author q) = true /\
  ~ occurs (lit " - ") (author q).
Proof.
  apply (facade_records_fields
           (QuoteEngine.mkRuntime (fun _ _ => true)
              (fun _ => inr []) (fun _ => inr []) true
              (fun _ => inr [lit "  Stay hungry - Jobs "])
              (PDFIngestor.mkEnv (fun _ => false) (fun _ => lit "t")
                 (fun _ fs => (inr [], fs))))
           (lit "quotes.docx") ∅ [mkQuote (lit "Stay hungry") (lit "Jobs")]).
  - by intros ?%(f_equal length).
  - reflexivity.
  - by left.
Defined.

(** ** The caption: the size chosen *)

Section CaptionMore.
Import MemeEngine.
Local Open Scope Z_scope.
Variable font : Type.
Variable _load_font : Z -> font.
Variable textbbox : font -> str -> Z * Z * Z * Z.

(** The loop tries the sizes two by two downwards and stops at the first
    where the caption fits; [k] is the number of sizes it has passed. *)
Lemma search_first_fit (fuel : nat) (img_width img_height : Z)
  (body author_line : str) (st : locals font) :
  10 < font_size font st -> (Z.to_nat (font_size font st) <= fuel)%nat ->
  exists st' (k : nat),
    search font _load_font textbbox fuel img_height (img_width - 2 * 20)
           body author_line st = Some st' /\
    10 < font_size font st - 2 * Z.of_nat k /\
    (forall j : nat, (j < k)%nat ->
       img_height <= 2 * block_height font _load_font textbbox (img_width - 2 * 20)
                          body author_line (font_size font st - 2 * Z.of_nat j)) /\
    font_ font st' = Some (_load_font (font_size font st - 2 * Z.of_nat k)) /\
    body_lines font st'
      = Some (wrap_text font textbbox body
                (_load_font (font_size font st - 2 * Z.of_nat k))
                (img_width - 2 * 20)) /\
    author_lines font st'
      = Some (wrap_text font textbbox author_line
                (_load_font (font_size font st - 2 * Z.of_nat k))
                (img_width - 2 * 20)) /\
    (exists lh, line_height font st' = Some lh) /\
    (2 * block_height font _load_font textbbox (img_width - 2 * 20)
           body author_line (font_size font st - 2 * Z.of_nat k) < img_height
     \/ font_size font st - 2 * Z.of_nat k <= 12).
Proof.
  revert st. induction fuel as [|fuel IH]; intros st Hsize Hfuel; [lia|].
  cbn [search]. rewrite (proj2 (Z.ltb_lt 10 (font_size font st))) by done.
  unfold block_height in *.
  destruct (textbbox (_load_font (font_size font st)) (lit "Ay"))
    as [[[x0 y0] x1] lh] eqn:Hbox.
  match goal with |- context [if ?c then _ else _] => destruct c eqn:Hfit end.
  - apply Z.ltb_lt in Hfit. eexists _, 0%nat. split; [done|].
    rewrite Z.sub_0_r. cbn. rewrite Hbox.
    repeat split; try done; try lia; eauto.
  - apply Z.ltb_ge in Hfit.
    destruct (Z.le_gt_cases (font_size font st - 2) 10) as [Hlast|Hmore].
    + rewrite search_not_entered by done.
      eexists _, 0%nat. split; [done|]. rewrite Z.sub_0_r. cbn.
      repeat split; try done; try lia; eauto.
    + destruct (IH (mkLocals font (font_size font st - 2)
                      (Some (_load_font (font_size font st)))
                      (Some (wrap_text font textbbox body
                               (_load_font (font_size font st)) (img_width - 2 * 20)))
                      (Some (wrap_text font textbbox author_line
                               (_load_font (font_size font st)) (img_width - 2 * 20)))
                      (Some lh)))
        as (st' & k & Hs & Hrange & Hpassed & Hrest); cbn; [lia|lia|].
      cbn [font_size] in Hrange, Hpassed, Hrest.
      exists st', (S k). split; [done|].
      replace (font_size font st - 2 * Z.of_nat (S k))
        with (font_size font st - 2 - 2 * Z.of_nat k) by lia.
      split; [lia|]. split; [|done].
      intros [|j] Hj.
      * rewrite Z.sub_0_r, Hbox. done.
      * replace (font_size font st - 2 * Z.of_nat (S j))
          with (font_size font st - 2 - 2 * Z.of_nat j) by lia.
        apply Hpassed. lia.
Qed.

(** A text with a character that is not whitespace has a word. *)
Lemma split_ws_from_cur (cur s : str) :
  cur <> [] -> split_ws_from cur s <> [].
Proof.
  revert cur. induction s as [|c s IH]; intros cur Hcur; simpl.
  - by destruct cur.
  - destruct (isspace c).
    + by destruct cur.
    + apply IH. by destruct cur.
Qed.

Lemma split_ws_from_char (cur a : str) (c : ascii) (b : str) :
  isspace c = false -> split_ws_from cur (a ++ c :: b) <> [].
Proof.
  intros Hc. revert cur. induction a as [|x a IH]; intros cur; simpl.
  - rewrite Hc. apply split_ws_from_cur. by destruct cur.
  - destruct (isspace x); [|by apply IH].
    destruct (truthy cur); [done|by apply IH].
Qed.

(** [wrap_text] gives no line only for a text without a word. *)
Lemma wrap_text_no_line (s : str) (f : font) (max_w : Z) :
  wrap_text font textbbox s f max_w = [] <-> split_ws s = [].
Proof.
  destruct (wrap_text_groups font textbbox f max_w s)
    as (G & -> & <- & Hne & _).
  destruct G as [|g G]; [done|].
  split; [done|]. simpl. apply Forall_cons_1 in Hne as [Hg _].
  by destruct g.
Qed.

End CaptionMore.

(** X20.  For an image 110 pixels high or more, [make_meme] draws the
    caption at the first of the sizes [min(40, height quot 10)], two
    less, two less again, ... at which the two blocks take less than half
    the height; every size before it was tried and was too high.  If none
    above 10 fits, the caption is drawn, too high, at the last size
    tried, which is 11 or 12.  The lines drawn are the body wrapped at
    that size, an empty line, the author line wrapped at that size. *)
Theorem make_meme_first_fit (font : Type) (_load_font : Z -> font)
  (textbbox : font -> str -> Z * Z * Z * Z)
  (img_width img_height : Z) (text author : str) :
  (110 <= img_height)%Z ->
  exists (k : nat) (c : MemeEngine.caption font),
    let size := (Z.min 40 (img_height ÷ 10) - 2 * Z.of_nat k)%Z in
    let height := MemeEngine.block_height font _load_font textbbox
                    (img_width - 2 * 20)%Z
                    ([dquote] ++ text ++ [dquote]) (lit "- " ++ author) in
    MemeEngine.make_meme font _load_font textbbox img_width img_height text author
    = Some (inr c) /\
    (10 < size)%Z /\
    (forall j : nat, j < k ->
       (img_height <= 2 * height (Z.min 40 (img_height ÷ 10) - 2 * Z.of_nat j))%Z) /\
    ((2 * height size < img_height)%Z \/ (size <= 12)%Z) /\
    MemeEngine.caption_font font c = Some (_load_font size) /\
    MemeEngine.caption_lines font c
    = MemeEngine.wrap_text font textbbox ([dquote] ++ text ++ [dquote])
        (_load_font size) (img_width - 2 * 20)%Z
      ++ [[]] ++
      MemeEngine.wrap_text font textbbox (lit "- " ++ author)
        (_load_font size) (img_width - 2 * 20)%Z.
Proof.
  intros Hh. unfold MemeEngine.make_meme.
  assert (Hq : (11 <= img_height ÷ 10)%Z).
  { rewrite Z.quot_div_nonneg by lia. apply Z.div_le_lower_bound; lia. }
  destruct (search_first_fit font _load_font textbbox
              (Z.to_nat (Z.min 40 (img_height ÷ 10)))
              img_width img_height ([dquote] ++ text ++ [dquote])
              (lit "- " ++ author)
              (MemeEngine.mkLocals font (Z.min 40 (img_height ÷ 10))
                 None None None None))
    as (st' & k & Hs & Hrange & Hpassed & Hfont & Hbl & Hal & [lh Hlh] & Hfit);
    [cbn; lia | cbn; lia |].
  cbn [MemeEngine.font_size] in Hrange, Hpassed, Hfont, Hbl, Hal, Hfit.
  exists k. eexists. cbn zeta.
  rewrite Hs, Hbl, Hal, Hlh. cbn [MemeEngine.local rbind].
  split; [done|]. cbn [MemeEngine.caption_font MemeEngine.caption_lines].
  repeat split; try done; lia.
Qed.

Lemma make_meme_first_fit_witness :
  exists (k : nat) (c : MemeEngine.caption unit),
    MemeEngine.make_meme unit (fun _ => tt)
      (fun _ s => (0, 0, 6 * Z.of_nat (length s), 11)%Z) 500%Z 300%Z
      (lit "Stay hungry") (lit "Jobs") = Some (inr c) /\
    (10 < Z.min 40 (300 ÷ 10) - 2 * Z.of_nat k)%Z.
Proof.
  destruct (make_meme_first_fit unit (fun _ => tt)
              (fun _ s => (0, 0, 6 * Z.of_nat (length s), 11)%Z) 500%Z 300%Z
              (lit "Stay hungry") (lit "Jobs")) as (k & c & Hc & Hk & _);
    [lia|].
  exists k, c. split; assumption.
Defined.

(** X21.  The part of [make_meme] between the resize of the image and
    the drawing, which lays the caption out, comes to an end on every
    size of the resized image, font and caption: the sizes left to try
    bound the passes of the loop.  That part raises exactly when the
    resized image is less than 110 pixels high, and then an
    UnboundLocalError at [body_lines]; for an image of 110 pixels or more
    it hands a caption to the drawing.  (The resize before it and the
    saving after it are Pillow's and can raise on their own.) *)
Theorem make_meme_layout_ends (font : Type) (_load_font : Z -> font)
  (textbbox : font -> str -> Z * Z * Z * Z)
  (img_width img_height : Z) (text author : str) :
  exists r,
    MemeEngine.make_meme font _load_font textbbox img_width img_height text author
    = Some r /\
    ((exists e, r = inl e) <-> (img_height < 110)%Z) /\
    (forall e, r = inl e -> e = UnboundLocalError (lit "body_lines")).
Proof.
  destruct (Z.lt_ge_cases img_height 110) as [Hlow|Hhigh].
  - exists (inl (UnboundLocalError (lit "body_lines"))).
    split; [|split; [by split; [|eexists]|by intros e [= <-]]].
    unfold MemeEngine.make_meme.
    rewrite search_not_entered; [done|]. cbn [MemeEngine.font_size].
    assert (img_height ÷ 10 <= 10)%Z; [|lia].
    destruct (Z.le_gt_cases 0 img_height) as [Hpos|Hneg].
    + rewrite Z.quot_div_nonneg by lia.
      apply Z.lt_succ_r, Z.div_lt_upper_bound; lia.
    + pose proof (Z.quot_opp_l img_height 10 ltac:(lia)) as Hq.
      assert (0 <= (- img_height) ÷ 10)%Z by (apply Z.quot_pos; lia). lia.
  - destruct (make_meme_entered font _load_font textbbox img_width img_height
                text author Hhigh) as (size & lh & _ & _ & ->).
    eexists. split; [done|]. split; [|by intros e [=]].
    split; [by intros [e [=]]|lia].
Qed.

(** X22.  The body in its quotation marks and the author line after its
    hyphen always have a word: whatever the font and the width,
    [wrap_text] gives one line or more for each.  It gives no line at all
    exactly for a text of whitespace only. *)
Theorem caption_blocks_not_empty (font : Type)
  (textbbox : font -> str -> Z * Z * Z * Z) (f : font) (max_w : Z)
  (text author : str) :
  MemeEngine.wrap_text font textbbox ([dquote] ++ text ++ [dquote]) f max_w <> [] /\
  MemeEngine.wrap_text font textbbox (lit "- " ++ author) f max_w <> [] /\
  (forall s, MemeEngine.wrap_text font textbbox s f max_w = [] <->
             forallb isspace s = true).
Proof.
  split; [|split].
  - rewrite wrap_text_no_line. apply (split_ws_from_char [] [] dquote). done.
  - rewrite wrap_text_no_line. apply (split_ws_from_char [] [] hyphen). done.
  - intros s. rewrite wrap_text_no_line. unfold split_ws.
    induction s as [|c s IH]; [done|]. simpl.
    destruct (isspace c); [done|]. simpl. split; [|done].
    intros Hs. by apply split_ws_from_cur in Hs.
Qed.

(** ** Lines wrapped again *)

Section WrapAgain.
Import MemeEngine.
Local Open Scope Z_scope.
Variable font : Type.
Variable textbbox : font -> str -> Z * Z * Z * Z.
Variable f : font.
Variable max_w : Z.

Local Abbreviation width := (text_width font textbbox f).
Local Abbreviation line_of := (join [space]).
(** Every beginning of two words or more of the line is no wider than
    the maximum width. *)
Local Abbreviation grown :=
  (fun g : list str =>
     forall k : nat, (2 <= k <= length g)%nat ->
       width (line_of (take k g)) <= max_w).

Lemma wrap_step_grown (gs : list (list str)) (current : list str) (w : str) :
  Forall (fun g => g <> []) gs -> (current = [] -> gs = []) ->
  Forall grown (gs ++ [current]) ->
  exists gs' current',
    wrap_step font textbbox f max_w (map line_of gs, current) w
      = (map line_of gs', current') /\
    current' <> [] /\ Forall (fun g => g <> []) gs' /\
    Forall grown (gs' ++ [current']) /\
    concat gs' ++ current' = concat gs ++ current ++ [w].
Proof.
  intros Hne Hfirst Hgrown. unfold wrap_step.
  destruct current as [|c0 cur].
  - rewrite (Hfirst eq_refl). exists [], [w].
    split; [by destruct (width w <=? max_w)|].
    repeat split; try done.
    constructor; [|done]. intros k Hk. simpl in Hk. lia.
  - set (current := c0 :: cur) in *.
    apply Forall_app in Hgrown as [Hgs Hcur].
    apply Forall_inv in Hcur. cbv beta in Hcur.
    destruct (width (line_of (current ++ [w])) <=? max_w) eqn:Hw.
    + apply Z.leb_le in Hw. exists gs, (current ++ [w]).
      repeat split; try done.
      apply Forall_app. split; [done|]. constructor; [|done].
      intros k Hk. rewrite length_app in Hk. simpl in Hk.
      destruct (decide (k <= length current)%nat) as [Hle|Hgt].
      * rewrite take_app_le by done. apply Hcur. lia.
      * subst current. rewrite take_ge; [done|].
        rewrite length_app. simpl in *. lia.
    + exists (gs ++ [current]), [w].
      rewrite map_app. repeat split; try done.
      * apply Forall_app. by split; [|constructor].
      * apply Forall_app. split.
        -- apply Forall_app. split; [done|]. by constructor.
        -- constructor; [|done]. intros k Hk. simpl in Hk. lia.
      * rewrite concat_app. simpl. by rewrite app_nil_r, <- !app_assoc.
Qed.

Lemma wrap_fold_grown (ws : list str) (gs : list (list str)) (current : list str) :
  Forall (fun g => g <> []) gs -> (current = [] -> gs = []) ->
  Forall grown (gs ++ [current]) ->
  exists gs' current',
    fold_left (wrap_step font textbbox f max_w) ws (map line_of gs, current)
      = (map line_of gs', current') /\
    (current' = [] -> gs' = []) /\ Forall (fun g => g <> []) gs' /\
    Forall grown (gs' ++ [current']) /\
    concat gs' ++ current' = concat gs ++ current ++ ws.
Proof.
  revert gs current. induction ws as [|w ws IH]; intros gs current Hne Hfirst Hgrown.
  - exists gs, current. by rewrite app_nil_r.
  - destruct (wrap_step_grown gs current w Hne Hfirst Hgrown)
      as (gs1 & cur1 & Hstep & Hcur1 & Hne1 & Hgrown1 & Hcat1).
    destruct (IH gs1 cur1 Hne1 ltac:(done) Hgrown1)
      as (gs2 & cur2 & Hfold & Hfirst2 & Hne2 & Hgrown2 & Hcat2).
    exists gs2, cur2. cbn [fold_left]. rewrite Hstep, Hfold.
    repeat split; try done.
    rewrite Hcat2, app_assoc, Hcat1. by rewrite <- !app_assoc.
Qed.

Lemma wrap_text_grown (s : str) :
  exists G : list (list str),
    wrap_text font textbbox s f max_w = map line_of G /\
    concat G = split_ws s /\
    Forall (fun g => g <> []) G /\ Forall grown G.
Proof.
  unfold wrap_text.
  destruct (wrap_fold_grown (split_ws s) [] [])
    as (gs & current & Hfold & Hfirst & Hne & Hgrown & Hcat); try done.
  { constructor; [|done]. intros k Hk. simpl in Hk. lia. }
  change ([] : list str) with (map line_of []) at 1. rewrite Hfold.
  destruct current as [|c0 cur].
  - rewrite (Hfirst eq_refl) in *. exists []. by repeat split.
  - exists (gs ++ [c0 :: cur]). rewrite map_app. repeat split; try done.
    + rewrite concat_app. simpl. by rewrite app_nil_r.
    + apply Forall_app. by split; [|constructor].
Qed.

(** The words of a line that grew within the width stay on one line. *)
Lemma wrap_fold_one_line (rest cur : list str) :
  cur <> [] -> grown (cur ++ rest) ->
  fold_left (wrap_step font textbbox f max_w) rest ([], cur) = ([], cur ++ rest).
Proof.
  revert cur. induction rest as [|w rest IH]; intros cur Hcur Hgrown.
  - by rewrite app_nil_r.
  - cbn [fold_left]. unfold wrap_step at 2.
    destruct cur as [|c0 cur]; [done|].
    set (current := c0 :: cur) in *.
    assert (width (line_of (current ++ [w])) <= max_w) as Hw.
    { specialize (Hgrown (S (length current))).
      replace (current ++ w :: rest) with ((current ++ [w]) ++ rest) in Hgrown
        by by rewrite <- app_assoc.
      rewrite take_app_le, take_ge in Hgrown
        by (rewrite length_app; simpl; lia).
      apply Hgrown. rewrite !length_app. subst current. simpl. lia. }
    apply Z.leb_le in Hw. rewrite Hw.
    rewrite IH; [by rewrite <- app_assoc|by destruct current|].
    by rewrite <- app_assoc.
Qed.

Lemma wrap_text_one_line (g : list str) :
  g <> [] -> Forall (fun w => is_word w = true) g -> grown g ->
  wrap_text font textbbox (line_of g) f max_w = [line_of g].
Proof.
  intros Hg Hwords Hgrown. unfold wrap_text. rewrite split_ws_join by done.
  destruct g as [|w rest]; [done|]. cbn [fold_left].
  assert (wrap_step font textbbox f max_w ([], []) w = ([], [w])) as ->.
  { unfold wrap_step. by destruct (_ <=? _). }
  by rewrite (wrap_fold_one_line rest [w]).
Qed.

End WrapAgain.

(** X23.  A line of [wrap_text] wrapped again, with the same font and
    width, is that one line: the lines are stable, also a line that is
    one word wider than the width. *)
Theorem wrap_text_stable (font : Type) (textbbox : font -> str -> Z * Z * Z * Z)
  (s : str) (f : font) (max_w : Z) :
  Forall (fun line => MemeEngine.wrap_text font textbbox line f max_w = [line])
         (MemeEngine.wrap_text font textbbox s f max_w).
Proof.
  destruct (wrap_text_grown font textbbox f max_w s)
    as (G & -> & Hcat & Hne & Hgrown).
  assert (Hwords : Forall (fun g => Forall (fun w => is_word w = true) g) G).
  { pose proof (split_ws_words s) as Hs. rewrite <- Hcat in Hs.
    clear -Hs. induction G as [|g G IH]; [done|].
    simpl in Hs. apply Forall_app in Hs as [? ?]. constructor; auto. }
  clear Hcat. apply Forall_fmap.
  induction G as [|g G IH]; [done|].
  apply Forall_cons_1 in Hne as [? ?]. apply Forall_cons_1 in Hgrown as [? ?].
  apply Forall_cons_1 in Hwords as [? ?].
  constructor; [|by apply IH]. by apply wrap_text_one_line.
Qed.

(** ** The request that makes a meme *)

Section WebFacts.
Import Web.

(** The last field between separators holds no separator. *)
Lemma split_char_last (c : ascii) (s : str) :
  exists l, last (split_char c s) = Some l /\ c ∉ l.
Proof.
  induction s as [|a s (l & Hl & Hc)]; simpl.
  - exists []. split; [done|]. by intros ?%elem_of_nil.
  - case_bool_decide as Ha.
    + exists l. split; [|done].
      destruct (split_char c s); [done|]. done.
    + destruct (split_char c s) as [|f fs] eqn:Hs; [done|].
      destruct fs as [|f' fs].
      * injection Hl as <-. exists (a :: f). split; [done|].
        by apply not_elem_of_cons.
      * exists l. split; [|done]. done.
Qed.

Lemma basename_no_slash (p : str) : slash ∉ basename p.
Proof.
  unfold basename. by destruct (split_char_last slash p) as (l & -> & Hl).
Qed.

End WebFacts.

(** X24.  The view [meme_post] answers with the page of the meme exactly
    when the three fields of the form are there and not empty, the image
    could be fetched and [make_meme] returned; the path of the page is
    then [/static/] followed by the last component of the path
    [make_meme] returned, so it names a file right under [/static/]
    wherever the meme was written.  Every other request is redirected to
    the form with exactly one message; an exception of [make_meme] never
    leaves the view. *)
Theorem meme_post_response
  (requests_get : str -> result str)
  (make_meme : str -> str -> str -> Web.files -> result str * Web.files)
  (str_of_int : Z -> str) (F : Web.form) (randint : Z) (fs : Web.files) :
  match (Web.meme_post requests_get make_meme str_of_int F randint fs).1 with
  | Web.render_template page =>
      exists url b a content out,
        Web.image_url F = Some url /\ url <> [] /\
        Web.body F = Some b /\ b <> [] /\
        Web.author F = Some a /\ a <> [] /\
        requests_get url = inr content /\
        (make_meme (Web.tmp_path str_of_int randint) b a
           (<[Web.tmp_path str_of_int randint := content]> fs)).1 = inr out /\
        page = lit "/static/" ++ Web.basename out /\
        Web.slash ∉ Web.basename out
  | Web.redirect flashed =>
      (exists message, flashed = [message]) /\
      ~ (exists url b a content out,
           Web.image_url F = Some url /\ url <> [] /\
           Web.body F = Some b /\ b <> [] /\
           Web.author F = Some a /\ a <> [] /\
           requests_get url = inr content /\
           (make_meme (Web.tmp_path str_of_int randint) b a
              (<[Web.tmp_path str_of_int randint := content]> fs)).1 = inr out)
  end.
Proof.
  unfold Web.meme_post.
  destruct F as [[[|u url]|] [[|cb b]|] [[|ca a]|]]; cbn;
    try (split; [by eexists|];
         intros (? & ? & ? & ? & ? & ? & ? & ? & ? & ? & ? & _); congruence).
  destruct (requests_get (u :: url)) as [e|content] eqn:Hget; cbn.
  { split; [by eexists|].
    intros (? & ? & ? & ? & ? & [= <-] & _ & _ & _ & _ & _ & ? & _).
    congruence. }
  destruct (make_meme _ _ _ _) as [[e|out] fs2] eqn:Hmake; cbn.
  - split; [by eexists|].
    intros (? & ? & ? & ? & ? & [= <-] & _ & [= <-] & _ & [= <-] & _ & Hc & Hm).
    rewrite Hget in Hc. injection Hc as <-. rewrite Hmake in Hm. done.
  - exists (u :: url), (cb :: b), (ca :: a), content, out.
    rewrite Hmake. repeat split; try done. apply basename_no_slash.
Qed.

(** X25.  A request that [meme_post] turns down before the download
    leaves the files as they were.  After the download the temporary
    image is gone, whether [make_meme] returned or raised, and also a
    file that was under that name before the request; every other file
    is as [make_meme] left it. *)
Theorem meme_post_temporary_file
  (requests_get : str -> result str)
  (make_meme : str -> str -> str -> Web.files -> result str * Web.files)
  (str_of_int : Z -> str) (F : Web.form) (randint : Z) (fs : Web.files) :
  let tmp := Web.tmp_path str_of_int randint in
  let fs' := (Web.meme_post requests_get make_meme str_of_int F randint fs).2 in
  if Web.not_ (Web.image_url F) || Web.not_ (Web.body F) || Web.not_ (Web.author F)
  then fs' = fs
  else
    match requests_get (default [] (Web.image_url F)) with
    | inl _ => fs' = fs
    | inr content =>
        fs' !! tmp = None /\
        forall p, p <> tmp ->
          fs' !! p
          = (make_meme tmp (default [] (Web.body F)) (default [] (Web.author F))
               (<[tmp := content]> fs)).2 !! p
    end.
Proof.
  intros tmp fs'. subst fs'. unfold Web.meme_post.
  destruct (Web.not_ (Web.image_url F)); [done|].
  destruct (Web.not_ (Web.body F)); [done|].
  destruct (Web.not_ (Web.author F)); [done|]. cbn [orb].
  destruct (requests_get _) as [e|content]; [done|]. fold tmp.
  destruct (make_meme _ _ _ _) as [[e|out] fs2]; cbn.
  - split; [apply lookup_delete_eq|]. intros p Hp. by apply lookup_delete_ne.
  - split; [apply lookup_delete_eq|]. intros p Hp. by apply lookup_delete_ne.
Qed.

(** ** The pandas parser: its records *)

Section PandasMore.
Import PandasCSVIngestor.

(** The fields of a record as the test of both loops leaves them. *)
Local Abbreviation kept :=
  (fun q : QuoteModel =>
     bare isspace (body q) = true /\ bare isspace (author q) = true /\
     body q <> lit "nan" /\ author q <> lit "nan").

Lemma keep_fields (quotes : list QuoteModel) (b a : str) :
  Forall kept quotes -> Forall kept (keep quotes (strip b) (strip a)).
Proof.
  intros Hq. unfold keep.
  destruct (truthy (strip b)) eqn:Hb; [|done].
  destruct (truthy (strip a)) eqn:Ha; [|done]. cbn [andb].
  case_bool_decide as Hbn; [done|]. case_bool_decide as Han; [done|].
  cbn [negb andb]. apply Forall_app. split; [done|]. constructor; [|done].
  apply truthy_true in Hb, Ha. cbn [body author].
  split; [by apply (trimmed_of_bare isspace b); [apply strip_by_trimmed|]|].
  split; [by apply (trimmed_of_bare isspace a); [apply strip_by_trimmed|]|].
  done.
Qed.

End PandasMore.

(** X26.  Whatever the data frame, also one whose rows are short or whose
    labels repeat, every record the pandas parser returns has a body and
    an author that are not empty, neither begin nor end with whitespace,
    and are not the text [nan]. *)
Theorem pandas_parse_fields
  (read_csv : str -> result PandasCSVIngestor.DataFrame) (path : str)
  (quotes : list QuoteModel) (q : QuoteModel) :
  PandasCSVIngestor.parse read_csv path = inr quotes -> q ∈ quotes ->
  bare isspace (body q) = true /\ bare isspace (author q) = true /\
  body q <> lit "nan" /\ author q <> lit "nan".
Proof.
  intros Hparse Hq. revert q Hq. apply Forall_forall. revert Hparse.
  unfold PandasCSVIngestor.parse.
  destruct (read_csv path) as [e|df]; [done|]. cbn [rbind].
  destruct (PandasCSVIngestor.parse_frame df) as [e|quotes'] eqn:Hf; [done|].
  intros [= <-]. revert Hf. unfold PandasCSVIngestor.parse_frame.
  destruct (PandasCSVIngestor._find_quote_columns _) as [e|[bc ac]]; [done|].
  cbn [rbind].
  destruct (_ && _).
  - apply (for_each_preserves (Forall _)); [|done].
    intros s row s' Hs.
    destruct (PandasCSVIngestor.row_get _ row (default [] bc)) as [e|b]; [done|].
    destruct (PandasCSVIngestor.row_get _ row (default [] ac)) as [e|a]; [done|].
    cbn [rbind]. intros [= <-]. by apply keep_fields.
  - destruct (2 <=? _); [|by intros [= <-]].
    apply (for_each_preserves (Forall _)); [|done].
    intros s row s' Hs.
    destruct (PandasCSVIngestor.row_iloc row 0) as [e|b]; [done|].
    destruct (PandasCSVIngestor.row_iloc row 1) as [e|a]; [done|].
    cbn [rbind]. intros [= <-]. by apply keep_fields.
Qed.

Lemma pandas_parse_fields_witness :
  let q := mkQuote (lit "Stay hungry") (lit "Jobs") in
  bare isspace (body q) = true /\ bare isspace (author q) = true /\
  body q <> lit "nan" /\ author q <> lit "nan".
Proof.
  apply (pandas_parse_fields
           (fun _ => inr (PandasCSVIngestor.mkFrame
              [lit "Speaker"; lit "QUOTE"]
              [[PandasCSVIngestor.Value (lit "Jobs");
                PandasCSVIngestor.Value (lit " Stay hungry ")];
               [PandasCSVIngestor.NaN; PandasCSVIngestor.Value (lit "Lost")]]))
           (lit "quotes.csv") [mkQuote (lit "Stay hungry") (lit "Jobs")]).
  - reflexivity.
  - by left.
Defined.
